(** * trade-scenario-js: a shallow embedding of the column store, the candle
    normaliser, the indicator family and the order ledger.

    JavaScript numbers are IEEE 754 binary64 values; they are modelled by
    Rocq's primitive floats, whose operations are the same binary64
    operations.  Arrays are lists, plain objects are association lists in
    key-enumeration order, and the wallet object is a finite map.

    The event listeners of [ArrayMap] (field [listeners]) are empty unless a
    caller installs one; no code of the repository does, so [trigger] is a
    no-op throughout and is left out of the model. *)

From Stdlib Require Import ZArith Floats Ascii String.
From stdpp Require Import gmap strings list sorting.

Local Open Scope string_scope.
Local Open Scope list_scope.

(** ** JavaScript values and numbers *)

Module JS.

(** The values a cell, a field of a record or an element of an input array
    can hold. *)
Inductive value : Type :=
| VUndefined
| VNull
| VNum (x : float)
| VStr (s : string).

(** [typeof v === 'number'], returning the number. *)
Definition as_number (v : value) : option float :=
  match v with
  | VNum x => Some x
  | _ => None
  end.

(** An array length or a loop index used as a number. *)
Definition of_nat (n : nat) : float :=
  PrimFloat.of_uint63 (Uint63.of_Z (Z.of_nat n)).

(** [Math.max(a, b)] and [Math.min(a, b)]: NaN if either argument is NaN,
    and [+0] counts as larger than [-0]. *)
Definition is_neg_zero (x : float) : bool :=
  match classify x with
  | NZero => true
  | _ => false
  end.

Definition max2 (a b : float) : float :=
  if is_nan a then nan
  else if is_nan b then nan
  else if (a <? b)%float then b
  else if (b <? a)%float then a
  else if is_neg_zero a then b else a.

Definition min2 (a b : float) : float :=
  if is_nan a then nan
  else if is_nan b then nan
  else if (a <? b)%float then a
  else if (b <? a)%float then b
  else if is_neg_zero a then a else b.

(** [Math.max(a, b, c)]. *)
Definition max3 (a b c : float) : float := max2 (max2 a b) c.

(** [x || 0] for a number or a missing property: [undefined], [NaN], [+0]
    and [-0] are falsy. *)
Definition or_zero (x : option float) : float :=
  match x with
  | None => 0%float
  | Some v => if is_nan v || (v =? 0)%float then 0%float else v
  end.

(** [arr.slice(s, e)] for [0 <= s] and [0 <= e]. *)
Definition slice {A} (s e : nat) (l : list A) : list A :=
  take (e - s) (drop s l).

(** [arr.slice(-n)]: the last [n] elements; [slice(-0)] is [slice(0)], the
    whole array. *)
Definition slice_last {A} (n : nat) (l : list A) : list A :=
  match n with
  | O => l
  | _ => drop (length l - n) l
  end.

(** A plain object, as its own enumerable properties in enumeration order. *)
Definition obj : Type := list (string * value).

Fixpoint get_opt (o : obj) (k : string) : option value :=
  match o with
  | [] => None
  | (k', v) :: o' => if String.eqb k' k then Some v else get_opt o' k
  end.

(** [o[k]]. *)
Definition get (o : obj) (k : string) : value :=
  match get_opt o k with
  | Some v => v
  | None => VUndefined
  end.

(** [k in o]. *)
Definition has (o : obj) (k : string) : bool :=
  match get_opt o k with
  | Some _ => true
  | None => false
  end.

(** [o[k] = v]. *)
Fixpoint set (o : obj) (k : string) (v : value) : obj :=
  match o with
  | [] => [(k, v)]
  | (k', v') :: o' =>
      if String.eqb k' k then (k', v) :: o' else (k', v') :: set o' k v
  end.

(** [Object.keys(o)]. *)
Definition keys (o : obj) : list string := map fst o.

(** [s[0]]; indexing the empty string gives [undefined], which as a
    property key reads ["undefined"]. *)
Definition char0 (s : string) : string :=
  match s with
  | EmptyString => "undefined"
  | String c _ => String c EmptyString
  end.

Definition upper_ascii (c : ascii) : ascii :=
  let n := nat_of_ascii c in
  if (97 <=? n)%nat && (n <=? 122)%nat then ascii_of_nat (n - 32) else c.

(** [s.toUpperCase()] on ASCII text. *)
Fixpoint toUpperCase (s : string) : string :=
  match s with
  | EmptyString => EmptyString
  | String c s' => String (upper_ascii c) (toUpperCase s')
  end.

(** *** Signs in the specification of binary64

    [Prim2SF] maps a number to its description as a sign, a mantissa and an
    exponent; the four predicates below read the sign and the class off
    that description. *)

(** A value that compares [>= 0]: a zero of either sign, [+infinity] or a
    positive finite number. *)
Definition sf_nonneg (x : spec_float) : bool :=
  match x with
  | S754_zero _ => true
  | S754_infinity s => negb s
  | S754_nan => false
  | S754_finite s _ _ => negb s
  end.

(** A value that compares [> 0]. *)
Definition sf_pos (x : spec_float) : bool :=
  match x with
  | S754_infinity s => negb s
  | S754_finite s _ _ => negb s
  | _ => false
  end.

Definition sf_infinite (x : spec_float) : bool :=
  match x with
  | S754_infinity _ => true
  | _ => false
  end.

Definition sf_nan (x : spec_float) : bool :=
  match x with
  | S754_nan => true
  | _ => false
  end.

End JS.

Import JS.

(** ** utils.js: ArrayMap *)

Module ArrayMap.

(** Field [values]: one array per key, in key-insertion order. *)
Definition t : Type := list (string * list value).

(** [get length()]: the longest column. *)
Definition length (m : t) : nat :=
  foldl (fun len kv => if (len <? List.length kv.2)%nat then List.length kv.2 else len)
        0%nat m.

Definition has_key (m : t) (k : string) : bool :=
  existsb (fun kv => String.eqb kv.1 k) m.

(** One iteration of [addKey]: a missing key gets a column of [undefined]
    as long as the map. *)
Definition addKey1 (m : t) (k : string) : t :=
  if has_key m k then m else m ++ [(k, replicate (length m) VUndefined)].

Definition addKey (ks : list string) (m : t) : t := foldl addKey1 m ks.

(** One iteration of [push]: the keys of the object become columns, then
    every column receives the object's value for its key. *)
Definition push1 (m : t) (o : obj) : t :=
  map (fun kv => (kv.1, kv.2 ++ [if has o kv.1 then get o kv.1 else VUndefined]))
      (addKey (keys o) m).

Definition push (os : list obj) (m : t) : t := foldl push1 m os.

(** [Array.prototype.splice(start, deleteCount, ...items)] on one column:
    both arguments are clamped to the array. *)
Definition array_splice {A} (start deleteCount : Z) (items : list A) (l : list A)
  : list A :=
  let len := Z.of_nat (List.length l) in
  let s := if (start <? 0)%Z then Z.max (len + start) 0 else Z.min start len in
  let d := Z.min (Z.max deleteCount 0) (len - s) in
  take (Z.to_nat s) l ++ items ++ drop (Z.to_nat (s + d)) l.

(** [splice(start, deleteCount, ...items)]. *)
Definition splice (start deleteCount : Z) (items : list obj) (m : t) : t :=
  let len := Z.of_nat (length m) in
  let start := Z.max 0 (Z.min start len) in
  let deleteCount := Z.min (len - start) deleteCount in
  map (fun kv => (kv.1, array_splice start deleteCount
                          (map (fun item => get item kv.1) items) kv.2)) m.

(** All columns have [n] cells. *)
Definition aligned (n : nat) (m : t) : Prop :=
  Forall (fun kv => List.length kv.2 = n) m.

(** A map is well formed when every column is as long as the map. *)
Definition wf (m : t) : Prop := aligned (length m) m.

End ArrayMap.

(** ** klines.js: Klines *)

Module Klines.

(** [Klines.source]. *)
Definition source : list string :=
  ["timestamp"; "open"; "high"; "low"; "close"; "volume";
   "hl2"; "hlc3"; "ohlc4"; "hlcc4"].

(** [let keysOut = this.source.slice(6, 10)]. *)
Definition keysOut : list string := slice 6 10 source.

(** [candidates] paired with [transformFn]; the numeric candidate [1] is the
    property key ["1"]. *)
Definition candidates : list (string * (string -> string)) :=
  [("1", char0);
   ("o", char0);
   ("open", fun e => e);
   ("O", fun e => toUpperCase (char0 e));
   ("OPEN", toUpperCase)].

Section Builtins.

(** The built-ins [parseFloat] and [parseInt], applied to a field of a raw
    record. *)
Variable parseFloat parseInt : value -> float.

(** The detection loop over the candidates, on the first record. *)
Fixpoint detect (first : obj) (cs : list (string * (string -> string)))
  : option (list string) :=
  match cs with
  | [] => None
  | (c, f) :: cs' =>
      if negb (is_nan (parseFloat (get first c)))
      then Some (map f keysOut)
      else detect first cs'
  end.

(** The inner loop [for (let i = 0; i < keysIn.length; i++)], from index [i]
    on, with [kio] the remaining pairs [(keysIn[i], keysOut[i])]. *)
Fixpoint convert_from (i : nat) (kio : list (string * string)) (d c : obj) : obj :=
  match kio with
  | [] => c
  | (kin, kout) :: kio' =>
      let x := match i with
               | O => parseInt (get d kin)
               | _ => parseFloat (get d kin)
               end in
      convert_from (S i) kio' d (set c kout (VNum x))
  end.

Definition convert (keysIn : list string) (d : obj) : obj :=
  convert_from 0 (zip keysIn keysOut) d [].

(** [static invert(data)]. *)
Definition invert (data : list obj) : list obj :=
  match data with
  | [] => []
  | first :: _ =>
      match detect first candidates with
      | None => []
      | Some keysIn => map (convert keysIn) data
      end
  end.

(** A [Klines] instance: the inherited [values] and the field [limit]. *)
Record t : Type := mk { values : ArrayMap.t; limit : Z }.

(** [new Klines()]. *)
Definition create : t := {| values := []; limit := 100 |}.

(** [push(...objects)]. *)
Definition push (objects : list obj) (k : t) : t :=
  let results := invert objects in
  let count := Z.of_nat (List.length results + ArrayMap.length (values k)) in
  let m := ArrayMap.splice 0 (if (limit k <? count)%Z then count - limit k else 0)%Z
                           [] (values k) in
  {| values := ArrayMap.push results m; limit := limit k |}.

End Builtins.

(** [parseFloat] and [parseInt] on the records of the concrete runs below,
    whose fields are numbers: [parseFloat] of a number is that number, and
    so is [parseInt] of an integral one (the runs apply [parseInt] to
    integral fields only); an absent field reads NaN. Fields that hold text
    do not occur in the runs and are not interpreted. *)
Definition parse_number (v : value) : float :=
  match v with
  | VNum x => x
  | _ => nan
  end.

End Klines.

(** ** indicator.js: the indicator family

    Each [push] method is a function from the state it reads and writes
    (the columns of [values] it touches and the fields it uses) to the
    state it leaves.

    The [length] getter of [Indicator] refers to an undeclared [items], so
    reading it throws, and [addKey] reads it when a constructor adds a
    column. The [push] methods of the six variants never read it. They are
    modelled on any state, and the states called fresh below are the ones
    the constructors are written to build: the columns they add, all empty.
    The field [limit] is consulted by no [push] method of a variant and is
    left out. Periods are natural numbers. *)

Module Indicator.

(** A cell of an output column that holds [null] ([None]) or a number. *)
Abbreviation cell := (option float).

Definition cell_value (c : cell) : value :=
  match c with
  | Some x => VNum x
  | None => VNull
  end.

(** [arr[i - 1]] read as a number: index [-1] and indices past the end give
    [undefined], and a [null] cell is no number either. *)
Definition prev_number (arr : list cell) (i : nat) : option float :=
  match i with
  | O => None
  | S j => mjoin (arr !! j)
  end.

(** [for (let i = start; i < start + n; i++) st = body(i, st)]. *)
Fixpoint loop {S : Type} (body : nat -> S -> S) (start n : nat) (st : S) : S :=
  match n with
  | O => st
  | Datatypes.S n' => loop body (Datatypes.S start) n' (body start st)
  end.

(** [for (let i = start; i < stop; i++) st = body(i, st)]. *)
Definition for_range {S : Type} (body : nat -> S -> S) (start stop : nat) (st : S) : S :=
  loop body start (stop - start) st.

(** A loop body that moves the cursor of the state by one. *)
Definition steps {S : Type} (cursor : S -> nat) (body : nat -> S -> S) : Prop :=
  forall i st, cursor (body i st) = Datatypes.S (cursor st).

(** A loop body that appends the cell [cell_of i st] to the column [col]. *)
Definition appends {S A : Type} (col : S -> list A) (cell_of : nat -> S -> A)
    (body : nat -> S -> S) : Prop :=
  forall i st, col (body i st) = col st ++ [cell_of i st].

(** *** MovingAverage *)

(** The state of a [MovingAverage] or an [ExponentialMovingAverage]: the
    field [period] and the column [values['base']]. *)
Record Base : Type := mkBase { period : nat; base : list cell }.

Definition push_base (c : cell) (st : Base) : Base :=
  {| period := period st; base := base st ++ [c] |}.

(** [static MovingAverage.calc(values)] on an array. *)
Definition MA_calc (values : list value) : cell :=
  let cleaned := omap as_number values in
  if (List.length cleaned <? List.length values)%nat then None
  else Some (foldl (fun sum v => sum + v) 0 cleaned / of_nat (List.length cleaned))%float.

(** The value pushed at index [i] of the loop of [MovingAverage.push]. *)
Definition MA_value (period : nat) (numberArray : list value) (i : nat) : cell :=
  if (i + 1 <? period)%nat then None
  else MA_calc (slice (i + 1 - period) (i + 1) numberArray).

Definition MA_body (numberArray : list value) (i : nat) (st : Base) : Base :=
  push_base (MA_value (period st) numberArray i) st.

(** [MovingAverage.push(numberArray)]. *)
Definition MA_push (numberArray : list value) (st : Base) : Base :=
  for_range (MA_body numberArray) (List.length (base st)) (List.length numberArray) st.

(** *** ExponentialMovingAverage *)

(** [static ExponentialMovingAverage.calc(current, prev, period)]; the first
    two arguments are given as [Some] when they are numbers. *)
Definition EMA_calc (current prev : option float) (period : nat) : cell :=
  match current, prev with
  | Some current, Some prev =>
      let alpha := (2 / (of_nat period + 1))%float in
      Some ((current - prev) * alpha + prev)%float
  | _, _ => None
  end.

(** The value pushed at index [i] of the loop of
    [ExponentialMovingAverage.push], with [baseArr] the column so far. *)
Definition EMA_value (period : nat) (numberArray : list value) (baseArr : list cell)
    (i : nat) : cell :=
  match numberArray !! i ≫= as_number with
  | None => None
  | Some current =>
      if (i + 1 <? period)%nat then None
      else if (i + 1 =? period)%nat
      then MA_calc (slice (i + 1 - period) (i + 1) numberArray)
      else EMA_calc (Some current) (prev_number baseArr i) period
  end.

Definition EMA_body (numberArray : list value) (i : nat) (st : Base) : Base :=
  push_base (EMA_value (period st) numberArray (base st) i) st.

(** [ExponentialMovingAverage.push(numberArray)]. *)
Definition EMA_push (numberArray : list value) (st : Base) : Base :=
  for_range (EMA_body numberArray) (List.length (base st)) (List.length numberArray) st.

(** *** MovingAverageConvergenceDivergence *)

(** The three periods and the five columns. The constructor replaces a
    period that is not positive by its default (12, 26, 9), so the periods
    of an instance are positive. *)
Record MACD : Type := mkMACD {
  shortPeriod : nat;
  longPeriod : nat;
  signalPeriod : nat;
  macd_base : list cell;
  short : list cell;
  long : list cell;
  signal : list cell;
  histogram : list cell
}.

Definition MACD_body (numberArray : list value) (i : nat) (st : MACD) : MACD :=
  match numberArray !! i ≫= as_number with
  | None =>
      {| shortPeriod := shortPeriod st; longPeriod := longPeriod st;
         signalPeriod := signalPeriod st;
         macd_base := macd_base st ++ [None];
         short := short st ++ [None];
         long := long st ++ [None];
         signal := signal st ++ [None];
         histogram := histogram st ++ [None] |}
  | Some price =>
      let short_ :=
        if (i + 1 =? shortPeriod st)%nat
        then MA_calc (slice (i + 1 - shortPeriod st) (i + 1) numberArray)
        else if (shortPeriod st <=? i)%nat
        then EMA_calc (Some price) (prev_number (short st) i) (shortPeriod st)
        else None in
      let long_ :=
        if (i + 1 =? longPeriod st)%nat
        then MA_calc (slice (i + 1 - longPeriod st) (i + 1) numberArray)
        else if (longPeriod st <=? i)%nat
        then EMA_calc (Some price) (prev_number (long st) i) (longPeriod st)
        else None in
      let base_ :=
        match short_, long_ with
        | Some s, Some l => Some (s - l)%float
        | _, _ => None
        end in
      let baseArr := macd_base st ++ [base_] in
      let signal_ :=
        if (i + 2 =? longPeriod st + signalPeriod st)%nat
        then MA_calc (map cell_value (slice (i + 1 - signalPeriod st) (i + 1) baseArr))
        else if (longPeriod st + signalPeriod st <? i + 2)%nat
        then EMA_calc base_ (prev_number (signal st) i) (signalPeriod st)
        else None in
      let histogram_ :=
        match base_, signal_ with
        | Some b, Some s => Some (b - s)%float
        | _, _ => None
        end in
      {| shortPeriod := shortPeriod st; longPeriod := longPeriod st;
         signalPeriod := signalPeriod st;
         macd_base := baseArr;
         short := short st ++ [short_];
         long := long st ++ [long_];
         signal := signal st ++ [signal_];
         histogram := histogram st ++ [histogram_] |}
  end.

(** [MovingAverageConvergenceDivergence.push(numberArray)]. *)
Definition MACD_push (numberArray : list value) (st : MACD) : MACD :=
  for_range (MACD_body numberArray) (List.length (macd_base st))
            (List.length numberArray) st.

(** *** RelativeStrengthIndex *)

Record RSI : Type := mkRSI {
  rsi_period : nat;
  rsi_base : list cell;
  gain : list cell;
  loss : list cell
}.

(** [arr.reduce((a, b) => a + b, 0)] over cells: a [null] cell adds as [0]. *)
Definition sum_cells (arr : list cell) : float :=
  foldl (fun a b => (a + default 0 b)%float) 0%float arr.

(** The value of [rsi] once [gainArr] and [lossArr] hold the current
    sample. *)
Definition RSI_value (period : nat) (gainArr lossArr : list cell) : float :=
  let avgGain := (sum_cells (slice_last period gainArr) / of_nat period)%float in
  let avgLoss := (sum_cells (slice_last period lossArr) / of_nat period)%float in
  let rs := if (avgLoss =? 0)%float then 100%float else (avgGain / avgLoss)%float in
  (100 - 100 / (1 + rs))%float.

(** [numberArray[i - 1]] as a number. *)
Definition number_before (numberArray : list value) (i : nat) : option float :=
  match i with
  | O => None
  | S j => numberArray !! j ≫= as_number
  end.

Definition RSI_body (numberArray : list value) (i : nat) (st : RSI) : RSI :=
  match numberArray !! i ≫= as_number, number_before numberArray i with
  | Some curr, Some prev =>
      let change := (curr - prev)%float in
      let gain_ := max2 change 0 in
      let loss_ := max2 (- change) 0 in
      let gainArr := gain st ++ [Some gain_] in
      let lossArr := loss st ++ [Some loss_] in
      let rsi :=
        if (rsi_period st <=? List.length gainArr)%nat
        then Some (RSI_value (rsi_period st) gainArr lossArr)
        else None in
      {| rsi_period := rsi_period st;
         rsi_base := rsi_base st ++ [rsi];
         gain := gainArr;
         loss := lossArr |}
  | _, _ =>
      {| rsi_period := rsi_period st;
         rsi_base := rsi_base st ++ [None];
         gain := gain st ++ [None];
         loss := loss st ++ [None] |}
  end.

(** [RelativeStrengthIndex.push(numberArray)]. *)
Definition RSI_push (numberArray : list value) (st : RSI) : RSI :=
  for_range (RSI_body numberArray) (List.length (rsi_base st))
            (List.length numberArray) st.

(** The cells the loop body of [RelativeStrengthIndex.push] appends to the
    three columns at index [i]. *)
Definition RSI_gain_cell (xs : list value) (i : nat) (st : RSI) : cell :=
  match xs !! i ≫= as_number, number_before xs i with
  | Some curr, Some prev => Some (max2 (curr - prev) 0)
  | _, _ => None
  end.

Definition RSI_loss_cell (xs : list value) (i : nat) (st : RSI) : cell :=
  match xs !! i ≫= as_number, number_before xs i with
  | Some curr, Some prev => Some (max2 (- (curr - prev)) 0)
  | _, _ => None
  end.

Definition RSI_base_cell (xs : list value) (i : nat) (st : RSI) : cell :=
  match RSI_gain_cell xs i st, RSI_loss_cell xs i st with
  | Some g, Some l =>
      if (rsi_period st <=? Datatypes.S (List.length (gain st)))%nat
      then Some (RSI_value (rsi_period st) (gain st ++ [Some g]) (loss st ++ [Some l]))
      else None
  | _, _ => None
  end.

(** *** AverageTrueRange *)

(** A price object as the indicators and the order callback read it.
    [close] is [None] when the property is absent. *)
Record PriceObject : Type := mkPrice {
  timestamp : Z;
  high : float;
  low : float;
  close : option float
}.

(** The fields [period] and [prevClose] and the columns [base] and
    [range]; every cell of the two columns is a number. *)
Record ATR : Type := mkATR {
  atr_period : nat;
  atr_base : list float;
  range : list float;
  prevClose : option float
}.

(** [arr.at(-1)] used as a number: [undefined] on the empty array, which
    makes the arithmetic NaN. *)
Definition last_number (arr : list float) : float := default nan (last arr).

(** One iteration of the loop of [AverageTrueRange.push] on an element that
    is an object. *)
Definition ATR_body (value : PriceObject) (st : ATR) : ATR :=
  let high := high value in
  let low := low value in
  let close := default ((high + low) / 2)%float (close value) in
  let prevClose := default ((high + low) / 2)%float (prevClose st) in
  let tr := max3 (high - low)%float (abs (high - prevClose)) (abs (low - prevClose)) in
  let trueRangeArr := range st ++ [tr] in
  let period := atr_period st in
  let atr :=
    if (List.length trueRangeArr <? period)%nat then nan
    else if (List.length trueRangeArr =? period)%nat
    then (foldl (fun a b => a + b) 0 (slice 0 period trueRangeArr) / of_nat period)%float
    else ((last_number (atr_base st) * (of_nat period - 1) + tr) / of_nat period)%float in
  {| atr_period := period;
     atr_base := atr_base st ++ [atr];
     range := trueRangeArr;
     prevClose := Some close |}.

(** [AverageTrueRange.push(priceArray)]: an element that is no object
    ([None]) is skipped. *)
Definition ATR_push (priceArray : list (option PriceObject)) (st : ATR) : ATR :=
  foldl (fun st value =>
           match value with
           | Some value => ATR_body value st
           | None => st
           end) st priceArray.

(** *** SuperTrend *)

(** The inherited state, the field [multiplier] and the columns [upper],
    [lower] (numbers) and [trend] ([null], [1] or [-1]). *)
Record SuperTrend : Type := mkST {
  st_atr : ATR;
  multiplier : float;
  upper : list float;
  lower : list float;
  trend : list (option Z)
}.

(** The loop variables [prevUpper], [prevLower] ([None] is [undefined]) and
    [prevTrend] ([None] is [undefined] or [null]). *)
Record ST_locals : Type := mkLocals {
  prevUpper : option float;
  prevLower : option float;
  prevTrend : option Z
}.

(** [a > b] and [a < b] when [b] may be [undefined]. *)
Definition gt_opt (a : float) (b : option float) : bool :=
  match b with
  | Some b => (b <? a)%float
  | None => false
  end.

Definition lt_opt (a : float) (b : option float) : bool :=
  match b with
  | Some b => (a <? b)%float
  | None => false
  end.

(** One iteration of the loop of [SuperTrend.push] on an element that is an
    object. *)
Definition ST_body (price : PriceObject) (sl : SuperTrend * ST_locals)
  : SuperTrend * ST_locals :=
  let (st, loc) := sl in
  let a := ATR_push [Some price] (st_atr st) in
  let high := high price in
  let low := low price in
  let close := default ((high + low) / 2)%float (close price) in
  let atr := last_number (atr_base a) in
  if negb (is_finite atr) then
    ({| st_atr := a; multiplier := multiplier st;
        upper := upper st ++ [nan];
        lower := lower st ++ [nan];
        trend := trend st ++ [None] |}, loc)
  else
    let hl2 := ((high + low) / 2)%float in
    let upperBand := (hl2 + multiplier st * atr)%float in
    let lowerBand := (hl2 - multiplier st * atr)%float in
    let trend_ :=
      match prevTrend loc with
      | None => 1%Z
      | Some t =>
          if gt_opt close (prevUpper loc) then 1%Z
          else if lt_opt close (prevLower loc) then (-1)%Z
          else t
      end in
    let finalUpper :=
      match prevUpper loc with
      | Some pu => if (trend_ =? 1)%Z then min2 upperBand pu else upperBand
      | None => upperBand
      end in
    let finalLower :=
      match prevLower loc with
      | Some pl => if (trend_ =? -1)%Z then max2 lowerBand pl else lowerBand
      | None => lowerBand
      end in
    ({| st_atr := a; multiplier := multiplier st;
        upper := upper st ++ [finalUpper];
        lower := lower st ++ [finalLower];
        trend := trend st ++ [Some trend_] |},
     {| prevUpper := Some finalUpper;
        prevLower := Some finalLower;
        prevTrend := Some trend_ |}).

(** The loop of [SuperTrend.push] on the state paired with the loop
    variables; an element that is no object ([None]) is skipped. *)
Definition ST_loop (priceArray : list (option PriceObject))
    (sl : SuperTrend * ST_locals) : SuperTrend * ST_locals :=
  foldl (fun sl price =>
           match price with
           | Some price => ST_body price sl
           | None => sl
           end) sl priceArray.

(** [SuperTrend.push(priceArray)]: the loop variables start from the last
    cells of the three columns. *)
Definition ST_push (priceArray : list (option PriceObject)) (st : SuperTrend)
  : SuperTrend :=
  let loc := {| prevUpper := last (upper st);
                prevLower := last (lower st);
                prevTrend := mjoin (last (trend st)) |} in
  fst (ST_loop priceArray (st, loc)).

(** The ATR value the loop body of [SuperTrend.push] reads after
    [super.push([price])]. *)
Definition atr_after (price : PriceObject) (st : SuperTrend) : float :=
  last_number (atr_base (ATR_push [Some price] (st_atr st))).

(** The trend rule: 1 without a previous trend; otherwise 1 if the close is
    above the previous upper band, -1 if it is below the previous lower
    band, and the previous trend in between. *)
Definition next_trend (close : float) (loc : ST_locals) : Z :=
  match prevTrend loc with
  | None => 1%Z
  | Some t =>
      if gt_opt close (prevUpper loc) then 1%Z
      else if lt_opt close (prevLower loc) then (-1)%Z
      else t
  end.

End Indicator.

(** ** The scenario: data source guard and order callback *)

Module Scenario.

Import Indicator.

(** [APIRequestFunction]: the raw records a request resolves to. *)
Definition APIRequestFunction : Type := string -> string -> Z -> list obj.

(** An argument of [setAPI]: a function, or a value that is none. *)
Inductive api_arg : Type :=
| ApiFunction (f : APIRequestFunction)
| ApiOther (v : value).

(** The fields of a [CryptoTradeScenario] that [setAPI], [start] and the
    order callback read or write. [pairs] holds the keys of [dataMap], each
    as the two symbols [parseSymbolPair] splits it into. *)
Record t : Type := mk {
  api : option APIRequestFunction;
  pairs : list (string * string);
  wallet : gmap string float;
  limit : Z
}.

(** The constructor. *)
Definition create : t :=
  {| api := None; pairs := []; wallet := ∅; limit := 100 |}.

(** [setAPI(apiReqFn)]. *)
Definition setAPI (apiReqFn : api_arg) (sc : t) : t :=
  {| api := match apiReqFn with
            | ApiFunction f => Some f
            | ApiOther _ => None
            end;
     pairs := pairs sc; wallet := wallet sc; limit := limit sc |}.

(** What [start] does that is visible from outside: a request to the data
    source, and one run of [loop] for a timestamp ([None] when [loop] runs
    on an empty timeline). *)
Inductive event : Type :=
| Fetch (sym1 sym2 : string) (limit : Z)
| Tick (timestamp : option Z).

Section Start.

(** [invertPriceData], which the module imports from utils.js and utils.js
    does not define. *)
Variable invertPriceData : list obj -> list PriceObject.

(** [Array.from(new Set(timestamps)).sort((a, b) => a - b)], the last
    statement of [fetchAll]. *)
Definition timeline (results : list (list PriceObject)) : list Z :=
  merge_sort Z.le (remove_dups (concat (map (map timestamp) results))).

(** [loop] runs once unconditionally and then once per further
    timestamp. *)
Definition ticks (timestamps : list Z) : list event :=
  match timestamps with
  | [] => [Tick None]
  | _ => map (fun ts => Tick (Some ts)) timestamps
  end.

(** [start(interval)]: either the error thrown, or the requests issued and
    the replay steps run.

    The guard is the first statement of [start] and is modelled as it is
    written.  What follows the guard is not: [fetchAll] uses [await] inside
    the arrow function it passes to [pairs.map], and that arrow is not
    [async], so the text as shipped does not parse and fixes no behaviour
    of its own.  The [Some] branch is the reading of [fetchAll] and [loop]
    with that arrow marked [async]; the properties below use of it only
    that it is not the error. *)
Definition start (sc : t) : string + list event :=
  match api sc with
  | None => inl "API not set"
  | Some f =>
      let results :=
        map (fun p => invertPriceData (f p.1 p.2 (limit sc))) (pairs sc) in
      inr (map (fun p => Fetch p.1 p.2 (limit sc)) (pairs sc)
           ++ ticks (timeline results))
  end.

End Start.

(** [this.wallet[sym]] used as a number. *)
Definition number_at (w : gmap string float) (sym : string) : float :=
  default nan (w !! sym).

(** The balance the order callback works with: [this.wallet[sym] || 0]. *)
Definition balance (w : gmap string float) (sym : string) : float :=
  or_zero (w !! sym).

(** The order callback [(side, value) => ...] of the strategy call for the
    pair [sym1]/[sym2] at the candle [price], as a function of the wallet. *)
Definition order (price : PriceObject) (sym1 sym2 : string)
    (side : string) (value : float) (w : gmap string float) : gmap string float :=
  if (value <=? 0)%float then w
  else
    let w := <[sym1 := or_zero (w !! sym1)]> w in
    let w := <[sym2 := or_zero (w !! sym2)]> w in
    let close := default nan (close price) in
    if String.eqb side "buy" then
      let priceAvg := ((high price + close) / 2)%float in
      let amount := (value / priceAvg)%float in
      if (value <=? number_at w sym2)%float then
        let w := <[sym2 := (number_at w sym2 - value)%float]> w in
        <[sym1 := (number_at w sym1 + amount)%float]> w
      else w
    else if String.eqb side "sell" then
      let priceAvg := ((low price + close) / 2)%float in
      let quantity := (value / priceAvg)%float in
      if (quantity <=? number_at w sym1)%float then
        let w := <[sym1 := (number_at w sym1 - quantity)%float]> w in
        <[sym2 := (number_at w sym2 + value)%float]> w
      else w
    else w.

(** One call of the order callback: the candle and pair of the strategy
    call it belongs to, and its two arguments. *)
Record call : Type := mkCall {
  c_price : PriceObject;
  c_sym1 : string;
  c_sym2 : string;
  c_side : string;
  c_value : float
}.

Definition order_call (w : gmap string float) (c : call) : gmap string float :=
  order (c_price c) (c_sym1 c) (c_sym2 c) (c_side c) (c_value c) w.

(** A sequence of calls of the order callback, in order. *)
Definition orders (cs : list call) (w : gmap string float) : gmap string float :=
  foldl order_call w cs.

(** The wallet after the two assignments [this.wallet[sym] = this.wallet[sym] || 0]. *)
Definition normalize (sym1 sym2 : string) (w : gmap string float) : gmap string float :=
  let w := <[sym1 := or_zero (w !! sym1)]> w in
  <[sym2 := or_zero (w !! sym2)]> w.

(** Every balance of the wallet compares [>= 0]. *)
Definition nonneg (w : gmap string float) : Prop :=
  map_Forall (fun _ b => (0 <=? b)%float = true) w.

(** The two execution prices of the candle of a call are positive. *)
Definition prices_positive (c : call) : Prop :=
  let close := default nan (close (c_price c)) in
  (0 <? (high (c_price c) + close) / 2)%float = true
  /\ (0 <? (low (c_price c) + close) / 2)%float = true.

(** The amount of a buy is not infinite, and neither is the quantity of a
    sell. *)
Definition amounts_not_infinite (c : call) : Prop :=
  let close := default nan (close (c_price c)) in
  (c_side c = "buy" -> is_infinity (c_value c) = false)
  /\ (c_side c = "sell" ->
      is_infinity (c_value c / ((low (c_price c) + close) / 2))%float = false).

End Scenario.

(** ** Concrete inputs *)

Module Examples.

(** A raw record in the lowercase-letter scheme:
    [{t: 1000, o: 1, h: 2, l: 0.5, c: 1.5}]. *)
Definition raw1 : obj :=
  [("t", VNum 1000); ("o", VNum 1); ("h", VNum 2); ("l", VNum 0.5); ("c", VNum 1.5)].

(** The candles [{h: 10, l: 8, c: 9}], [{h: 11, l: 9, c: 10}] and
    [{h: 12, l: 10, c: 11}]. *)
Definition candle1 : Indicator.PriceObject := Indicator.mkPrice 1 10 8 (Some 9%float).
Definition candle2 : Indicator.PriceObject := Indicator.mkPrice 2 11 9 (Some 10%float).
Definition candle3 : Indicator.PriceObject := Indicator.mkPrice 3 12 10 (Some 11%float).

(** The state the constructor of [AverageTrueRange] is written to build
    for [{period: 2}] (the call itself throws, see the head of
    [Indicator]): empty columns, no previous close. *)
Definition atr2 : Indicator.ATR := Indicator.mkATR 2 [] [] None.

(** The state the constructor of [SuperTrend] is written to build for
    [{period: 2, multiplier: 3}]. *)
Definition supertrend2 : Indicator.SuperTrend := Indicator.mkST atr2 3 [] [] [].

(** A candle at the price [2 ** -1000]. *)
Definition tiny_candle : Indicator.PriceObject :=
  Indicator.mkPrice 1 0x1p-1000 0x1p-1000 (Some 0x1p-1000%float).

(** A wallet holding [2 ** 1000] USDT. *)
Definition large_wallet : gmap string float := {[ "USDT" := 0x1p+1000%float ]}.

(** A buy of BTC for [2 ** 1000] USDT followed by a sell of BTC for
    [2 ** 1000] USDT, both at [tiny_candle]. *)
Definition overflow_calls : list Scenario.call :=
  [Scenario.mkCall tiny_candle "BTC" "USDT" "buy" 0x1p+1000;
   Scenario.mkCall tiny_candle "BTC" "USDT" "sell" 0x1p+1000].

(** A candle at the price 1, a wallet holding 100 USDT, and a buy for 10. *)
Definition unit_candle : Indicator.PriceObject := Indicator.mkPrice 1 1 1 (Some 1%float).
Definition small_wallet : gmap string float := {[ "USDT" := 100%float ]}.
Definition small_calls : list Scenario.call := [Scenario.mkCall unit_candle "BTC" "USDT" "buy" 10].

(** A wallet holding 100 USDT whose BTC entry is [NaN]. *)
Definition nan_wallet : gmap string float :=
  {[ "BTC" := nan; "USDT" := 100%float ]}.

End Examples.

(** ** The true range and the mean as the specification states them *)

Module Spec.

Import Indicator.

(** [hl2 = (high + low) / 2]. *)
Definition hl2 (c : PriceObject) : float := ((high c + low c) / 2)%float.

(** The close of a bar, [hl2] standing in when it has none. *)
Definition close_of (c : PriceObject) : float := default (hl2 c) (close c).

(** [TR = max(high - low, |high - prevClose|, |low - prevClose|)]. *)
Definition true_range (c : PriceObject) (prevClose : float) : float :=
  max3 (high c - low c)%float (abs (high c - prevClose)) (abs (low c - prevClose)).

(** The true ranges of a run of bars: [prevClose] is the close of the bar
    before, and the bar's own [hl2] when there is none. *)
Fixpoint true_ranges (prevClose : option float) (cs : list PriceObject) : list float :=
  match cs with
  | [] => []
  | c :: cs' =>
      true_range c (default (hl2 c) prevClose) :: true_ranges (Some (close_of c)) cs'
  end.

(** The arithmetic mean [sum / n] of the first [n] elements, summed from
    the left starting at [0]. *)
Definition mean_first (n : nat) (xs : list float) : float :=
  (foldl (fun a b => a + b) 0 (take n xs) / of_nat n)%float.

End Spec.

(** ** utils.js: the row operations of ArrayMap *)

Module ArrayMapRows.

(** [arr[index]] for an integral index: [undefined] outside the array. *)
Definition cell_at (arr : list value) (index : Z) : value :=
  if (index <? 0)%Z then VUndefined
  else default VUndefined (arr !! Z.to_nat index).

(** [getItemAt(index)]. *)
Definition getItemAt (index : Z) (m : ArrayMap.t) : obj :=
  foldl (fun item kv => set item kv.1 (cell_at kv.2 index)) [] m.

(** [arr.pop()] on one column: the array left and the value returned. *)
Definition array_pop (arr : list value) : list value * value :=
  (removelast arr, default VUndefined (last arr)).


(** [clear()]. *)
Definition clear (m : ArrayMap.t) : ArrayMap.t :=
  map (fun kv => (kv.1, [])) m.

(** One iteration of [deleteKey]. *)
Definition deleteKey1 (m : ArrayMap.t) (k : string) : ArrayMap.t :=
  if ArrayMap.has_key m k then filter (fun kv => kv.1 <> k) m else m.

(** [deleteKey(...keys)]. *)
Definition deleteKey (ks : list string) (m : ArrayMap.t) : ArrayMap.t :=
  foldl deleteKey1 m ks.



(** The rows [getItemAt(0)], ..., [getItemAt(length - 1)] with their
    indices, as the loops of [map], [forEach], [filter], [find], [some] and
    [every] visit them. *)
Definition rows (m : ArrayMap.t) : list (obj * Z) :=
  map (fun i => (getItemAt (Z.of_nat i) m, Z.of_nat i)) (seq 0 (ArrayMap.length m)).

(** [map(callback)]. *)
Definition map_rows {A} (callback : obj -> Z -> A) (m : ArrayMap.t) : list A :=
  map (fun r => callback r.1 r.2) (rows m).

(** [filter(callback)]. *)
Definition filter_rows (callback : obj -> Z -> bool) (m : ArrayMap.t) : ArrayMap.t :=
  foldl (fun newMap r => if callback r.1 r.2 then ArrayMap.push [r.1] newMap else newMap)
        (ArrayMap.addKey (map fst m) []) (rows m).

(** [find(callback)]: [None] is [undefined]. *)
Definition find_row (callback : obj -> Z -> bool) (m : ArrayMap.t) : option obj :=
  fst <$> List.find (fun r => callback r.1 r.2) (rows m).

(** [some(callback)] and [every(callback)]. *)
Definition some (callback : obj -> Z -> bool) (m : ArrayMap.t) : bool :=
  existsb (fun r => callback r.1 r.2) (rows m).

Definition every (callback : obj -> Z -> bool) (m : ArrayMap.t) : bool :=
  forallb (fun r => callback r.1 r.2) (rows m).




(** [clone()]. *)
Definition clone (m : ArrayMap.t) : ArrayMap.t :=
  foldl (fun newMap r => ArrayMap.push [r.1] newMap)
        (ArrayMap.addKey (map fst m) []) (rows m).

(** The keys of a map are pairwise distinct, as the property names of an
    object are. *)
Definition distinct_keys (m : ArrayMap.t) : Prop := NoDup (map fst m).

End ArrayMapRows.

Module ArrayMapCells.

(** The column stored under a key. *)
Fixpoint column (m : ArrayMap.t) (k : string) : option (list value) :=
  match m with
  | [] => None
  | (k', c) :: m' => if String.eqb k' k then Some c else column m' k
  end.

(** The cell of row [i] in the column [k], as [getItemAt(i)[k]] reads it. *)
Definition cell (m : ArrayMap.t) (k : string) (i : Z) : value :=
  match column m k with
  | Some c => ArrayMapRows.cell_at c i
  | None => VUndefined
  end.

End ArrayMapCells.

Module RowExamples.
Definition m0 : ArrayMap.t := [("a", [VNum 1])].
Definition o0 : obj := [("b", VNum 2)].
Definition two_rows : ArrayMap.t :=
  [("a", [VNum 1; VNum 2]); ("b", [VStr "x"; VStr "y"])].
Definition ragged : ArrayMap.t := [("a", [VNum 1]); ("b", [VNum 2; VNum 3])].
End RowExamples.

(** ** klines.js: reading a store and inserting into it *)

Module KlinesRows.

Section Builtins.

Variable parseFloat parseInt : value -> float.

(** [splice(start, deleteCount, ...objects)], called with numbers. *)
Definition splice (start deleteCount : Z) (objects : list obj) (k : Klines.t)
  : Klines.t :=
  if (start <? 0)%Z then k
  else
    let results := Klines.invert parseFloat parseInt objects in
    let len := (Z.of_nat (ArrayMap.length (Klines.values k)) - start
                - (if (0 <=? deleteCount)%Z then deleteCount else 0))%Z in
    let count := (Z.of_nat (List.length results) + len)%Z in
    let m := ArrayMap.splice 0 (if (Klines.limit k <? count)%Z
                                then count - Klines.limit k else 0)%Z
                             [] (Klines.values k) in
    {| Klines.values := ArrayMap.splice start deleteCount results m;
       Klines.limit := Klines.limit k |}.

End Builtins.

(** [first(index)]. *)
Definition first (index : Z) (k : Klines.t) : obj :=
  ArrayMapRows.getItemAt index (Klines.values k).

(** [last(index)]. *)
Definition last (index : Z) (k : Klines.t) : obj :=
  ArrayMapRows.getItemAt (Z.of_nat (ArrayMap.length (Klines.values k)) - (1 + index))
                         (Klines.values k).

Section Conversions.

(** The conversions of a string to a number and of a number to a string
    that [+], [*] and [/] apply to their operands. *)
Variable string_to_number : string -> float.
Variable number_to_string : float -> string.

Definition to_number (v : value) : float :=
  match v with
  | VUndefined => nan
  | VNull => 0
  | VNum x => x
  | VStr s => string_to_number s
  end.

Definition to_string (v : value) : string :=
  match v with
  | VUndefined => "undefined"
  | VNull => "null"
  | VNum x => number_to_string x
  | VStr s => s
  end.

(** [a + b]: concatenation as soon as one operand is a string. *)
Definition js_add (a b : value) : value :=
  match a, b with
  | VStr _, _ | _, VStr _ => VStr (to_string a ++ to_string b)
  | _, _ => VNum (to_number a + to_number b)
  end.

(** [a * b] and [a / b]. *)
Definition js_mul (a b : value) : value := VNum (to_number a * to_number b).
Definition js_div (a b : value) : value := VNum (to_number a / to_number b).

(** [x ?? NaN]. *)
Definition or_nan (v : value) : value :=
  match v with
  | VUndefined | VNull => VNum nan
  | _ => v
  end.

(** [static parse(data, source)] on an object. *)
Definition parse (data : obj) (source : string) : value :=
  if negb (bool_decide (source ∈ Klines.source)) then VNum nan
  else
    let high := get data "high" in
    let low := get data "low" in
    let close := get data "close" in
    let open := get data "open" in
    or_nan
      (if String.eqb source "hl2" then js_div (js_add high low) (VNum 2)
       else if String.eqb source "hlc3"
            then js_div (js_add (js_add high low) close) (VNum 3)
       else if String.eqb source "ohlc4"
            then js_div (js_add (js_add (js_add open high) low) close) (VNum 4)
       else if String.eqb source "hlcc4"
            then js_div (js_add (js_add high low) (js_mul close (VNum 2))) (VNum 4)
       else get data source).

(** [getItemsBySource(source, count)], called with a number [count]. *)
Definition getItemsBySource (source : string) (count : Z) (k : Klines.t)
  : list value :=
  let length := ArrayMap.length (Klines.values k) in
  let len := if (0 <? count)%Z
             then (if (Z.of_nat length <? count)%Z then length else Z.to_nat count)
             else 0%nat in
  if negb (bool_decide (source ∈ Klines.source)) || (len =? 0)%nat then []
  else map (fun i => parse (ArrayMapRows.getItemAt (Z.of_nat i) (Klines.values k)) source)
           (seq (length - len) len).

End Conversions.

(** The rows of a map, as objects. *)
Definition objects (m : ArrayMap.t) : list obj := map fst (ArrayMapRows.rows m).

(** A store as [push] and [splice] leave it: aligned, and either without
    columns or with the columns of a normalised record. *)
Definition stored (k : Klines.t) : Prop :=
  ArrayMap.wf (Klines.values k)
  /\ (Klines.values k = [] \/ map fst (Klines.values k) = Klines.keysOut).

End KlinesRows.

(** ** indicator.js: reading the columns of an indicator *)

Module Columns.
Import Indicator.

(** The difference of two cells: a number when both are numbers, [null]
    otherwise. *)
Definition sub_cell (a b : cell) : cell :=
  match a, b with
  | Some x, Some y => Some (x - y)%float
  | _, _ => None
  end.

(** The five columns of a MACD have [n] cells each. *)
Definition MACD_aligned (n : nat) (st : MACD) : Prop :=
  List.length (macd_base st) = n /\ List.length (short st) = n
  /\ List.length (long st) = n /\ List.length (signal st) = n
  /\ List.length (histogram st) = n.

(** The state of the EMA that a column of a MACD continues. *)
Definition short_EMA (st : MACD) : Base := mkBase (shortPeriod st) (short st).
Definition long_EMA (st : MACD) : Base := mkBase (longPeriod st) (long st).

(** The state the constructor of [MovingAverageConvergenceDivergence] is
    written to build for positive periods: five empty columns. *)
Definition MACD_fresh (shortPeriod longPeriod signalPeriod : nat) : MACD :=
  mkMACD shortPeriod longPeriod signalPeriod [] [] [] [] [].

(** The cell [MACD_body] appends to a column of an EMA of period [p] whose
    cells so far are [arr]. *)
Definition EMA_step (p : nat) (xs : list value) (arr : list cell) (i : nat)
    (price : float) : cell :=
  if (i + 1 =? p)%nat then MA_calc (slice (i + 1 - p) (i + 1) xs)
  else if (p <=? i)%nat then EMA_calc (Some price) (prev_number arr i) p
  else None.

(** The cells a run of the loop appends are differences, cell by cell. *)
Definition differences (st0 st : MACD) : Prop :=
  exists s l g : list cell,
    List.length s = List.length l /\ List.length l = List.length g
    /\ short st = short st0 ++ s /\ long st = long st0 ++ l
    /\ signal st = signal st0 ++ g
    /\ macd_base st = macd_base st0 ++ zip_with sub_cell s l
    /\ histogram st = histogram st0 ++ zip_with sub_cell (zip_with sub_cell s l) g.

(** What holds of a MACD with [longPeriod < shortPeriod] after [i] cells. *)
Definition no_signal (sp lp sg : nat) (i : nat) (m : MACD) : Prop :=
  shortPeriod m = sp /\ longPeriod m = lp /\ signalPeriod m = sg
  /\ List.length (macd_base m) = i
  /\ (lp - 1 < i -> macd_base m !! (lp - 1) = Some None)
  /\ signal m = replicate i None /\ histogram m = replicate i None.

(** What holds of a MACD after [i] cells when the input has no number at
    index [j]. *)
Definition silent_from (j i : nat) (m : MACD) : Prop :=
  MACD_aligned i m
  /\ forall k, j <= k < i ->
       short m !! k = Some None /\ long m !! k = Some None
       /\ macd_base m !! k = Some None /\ signal m !! k = Some None
       /\ histogram m !! k = Some None.

(** A number that does not compare below zero: zero, positive or NaN. *)
Definition not_negative (x : float) : Prop := (x <? 0)%float = false.

(** The same, read off the description of the number. *)
Definition sf_not_negative (x : spec_float) : bool := sf_nonneg x || sf_nan x.

(** A description whose sign bit is clear, or NaN. *)
Definition sf_plus (x : spec_float) : bool :=
  match x with
  | S754_zero s | S754_infinity s | S754_finite s _ _ => negb s
  | S754_nan => true
  end.

End Columns.

(** ** The scenario: symbol pairs and the wallet

    [parseSymbolPair] matches its input against
    [/([a-zA-Z0-9]+)[\W\s]+([a-zA-Z0-9]+)/]. Text is a list of characters
    here; a character outside ASCII is a sequence of bytes above 127, none
    of which is a word character. *)

Module Symbols.

(** The class [[a-zA-Z0-9]]. *)
Definition alnum (c : ascii) : bool :=
  let n := nat_of_ascii c in
  ((48 <=? n)%nat && (n <=? 57)%nat) || ((65 <=? n)%nat && (n <=? 90)%nat)
  || ((97 <=? n)%nat && (n <=? 122)%nat).

(** The class [[\W\s]]: [\W] is every character but [[A-Za-z0-9_]], and
    the white space of [\s] is part of it. *)
Definition separator (c : ascii) : bool :=
  negb (alnum c || (nat_of_ascii c =? 95)%nat).

(** The longest prefix in a class, and what follows it. *)
Fixpoint span (p : ascii -> bool) (l : list ascii) : list ascii * list ascii :=
  match l with
  | c :: l' => if p c then let (a, b) := span p l' in (c :: a, b) else ([], l)
  | [] => ([], [])
  end.

(** A greedy [+]: the continuation is tried on the longest run first, then
    on shorter ones down to one character. *)
Fixpoint tries {R} (n : nat) (l : list ascii)
    (k : list ascii -> list ascii -> option R) : option R :=
  match n with
  | O => None
  | S n' =>
      match k (take n l) (drop n l) with
      | Some r => Some r
      | None => tries n' l k
      end
  end.

Definition plus {R} (p : ascii -> bool) (l : list ascii)
    (k : list ascii -> list ascii -> option R) : option R :=
  tries (List.length (span p l).1) l k.

(** The pattern, matched at the start of the text: the two groups. *)
Definition match_here (l : list ascii) : option (list ascii * list ascii) :=
  plus alnum l (fun sym1 rest =>
    plus separator rest (fun _ rest =>
      plus alnum rest (fun sym2 _ => Some (sym1, sym2)))).

(** [input.match(...)]: the leftmost match. *)
Fixpoint search (l : list ascii) : option (list ascii * list ascii) :=
  match match_here l with
  | Some r => Some r
  | None =>
      match l with
      | [] => None
      | _ :: l' => search l'
      end
  end.

(** [parseSymbolPair(input)]. *)
Definition parseSymbolPair (input : string) : option (string * string) :=
  match search (list_ascii_of_string input) with
  | None => None
  | Some (sym1, sym2) =>
      Some (toUpperCase (string_of_list_ascii sym1),
            toUpperCase (string_of_list_ascii sym2))
  end.

Section UpperCase.

(** The built-in [String.prototype.toUpperCase], which [setWallet] applies
    to keys of any text: it maps every cased letter, not only the ASCII
    ones, so it is not [JS.toUpperCase]. *)
Variable String_toUpperCase : string -> string.

(** [setWallet(wallet)], on the entries of the argument in the order of
    [Object.keys]. *)
Definition setWallet (entries : list (string * float)) (w : gmap string float)
  : gmap string float :=
  foldl (fun w kv => <[String_toUpperCase kv.1 := kv.2]> w) w entries.

End UpperCase.

(** On text made of ASCII letters and digits the built-in is the ASCII
    mapping. *)
Definition ascii_upper_case (String_toUpperCase : string -> string) : Prop :=
  forall s, forallb alnum (list_ascii_of_string s) = true ->
            String_toUpperCase s = toUpperCase s.

(** A digit or an upper-case letter. *)
Definition upper_alnum (c : ascii) : bool :=
  let n := nat_of_ascii c in
  ((48 <=? n)%nat && (n <=? 57)%nat) || ((65 <=? n)%nat && (n <=? 90)%nat).

(** A symbol as [parseSymbolPair] returns it: not empty, digits and
    upper-case letters only. *)
Definition symbol (s : string) : Prop :=
  s <> EmptyString /\ forallb upper_alnum (list_ascii_of_string s) = true.

End Symbols.

(** ** utils.js: the [length] setter of ArrayMap *)

Module ArrayMapLength.

(** [arr.length = len] for [0 <= len < 2^32]: the array is cut, or grows by
    empty slots, which read [undefined]. *)
Definition array_resize (len : nat) (arr : list value) : list value :=
  take len arr ++ replicate (len - List.length arr) VUndefined.

(** [set length(len)] for an integral number [len]: a negative [len] is
    ignored; from [2^32] on, the first assignment [arr.length = len] throws
    a [RangeError] ([None]). *)
Definition set_length (len : Z) (m : ArrayMap.t) : option ArrayMap.t :=
  if (len <? 0)%Z then Some m
  else
    match m with
    | [] => Some m
    | _ =>
        if (2 ^ 32 <=? len)%Z then None
        else Some (map (fun kv => (kv.1, array_resize (Z.to_nat len) kv.2)) m)
    end.

End ArrayMapLength.

(** ** indicator.js: the cells of the [trend] column *)

Module Trend.

(** [null], [1] or [-1]. *)
Definition trend_cell (t : option Z) : Prop :=
  t = None \/ t = Some 1%Z \/ t = Some (-1)%Z.

End Trend.

(** * Properties *)

Module ArrayMapFacts.
Import ArrayMap.

Lemma length_snoc (m : ArrayMap.t) (k : string) (c : list value) :
  ArrayMap.length (m ++ [(k, c)]) = Nat.max (ArrayMap.length m) (List.length c).
Proof.
  unfold ArrayMap.length. rewrite foldl_app. simpl.
  destruct (Nat.ltb_spec (foldl (fun len kv => if (len <? List.length kv.2)%nat then List.length kv.2 else len) 0%nat m) (List.length c)); lia.
Qed.

Lemma length_aligned (n : nat) (m : ArrayMap.t) :
  aligned n m -> m <> [] -> ArrayMap.length m = n.
Proof.
  induction m as [|kv m IH] using rev_ind; [done|].
  intros Ha _. destruct kv as [k c].
  apply Forall_app in Ha as [Ha Hc]. rewrite Forall_singleton in Hc. simpl in Hc.
  rewrite length_snoc, Hc.
  destruct m as [|kv' m']; [simpl; unfold ArrayMap.length; simpl; lia|].
  rewrite IH by done. lia.
Qed.


Lemma addKey1_wf (m : ArrayMap.t) (k : string) :
  wf m -> wf (addKey1 m k) /\ ArrayMap.length (addKey1 m k) = ArrayMap.length m.
Proof.
  intros Hm. unfold addKey1. destruct (has_key m k); [done|].
  assert (Hl : ArrayMap.length (m ++ [(k, replicate (ArrayMap.length m) VUndefined)])
               = ArrayMap.length m).
  { rewrite length_snoc, length_replicate. lia. }
  split; [|done]. unfold wf. rewrite Hl.
  apply Forall_app. split; [done|].
  apply Forall_singleton. simpl. by rewrite length_replicate.
Qed.

Lemma addKey_wf (ks : list string) (m : ArrayMap.t) :
  wf m -> wf (addKey ks m) /\ ArrayMap.length (addKey ks m) = ArrayMap.length m.
Proof.
  revert m. induction ks as [|k ks IH]; intros m Hm; [done|].
  simpl. destruct (addKey1_wf m k Hm) as [H1 H2].
  destruct (IH _ H1) as [H3 H4]. split; [done|]. unfold addKey in *. simpl. congruence.
Qed.

Lemma addKey1_nonempty (m : ArrayMap.t) (k : string) : addKey1 m k <> [].
Proof.
  unfold addKey1. destruct (has_key m k) eqn:E.
  - destruct m; [done|done].
  - destruct m; done.
Qed.

Lemma addKey_nonempty (ks : list string) (m : ArrayMap.t) :
  m <> [] -> addKey ks m <> [].
Proof.
  revert m. induction ks as [|k ks IH]; intros m Hm; [done|].
  apply IH, addKey1_nonempty.
Qed.

Lemma addKey_keys_nonempty (ks : list string) (m : ArrayMap.t) :
  ks <> [] -> addKey ks m <> [].
Proof.
  destruct ks as [|k ks]; [done|]. intros _.
  apply (addKey_nonempty ks), addKey1_nonempty.
Qed.

Lemma aligned_map_snoc (n : nat) (m : ArrayMap.t) (f : string -> value) :
  aligned n m ->
  aligned (S n) (map (fun kv => (kv.1, kv.2 ++ [f kv.1])) m).
Proof.
  intros Ha. apply Forall_map. eapply Forall_impl; [exact Ha|].
  intros [k c] Hc. simpl in *. rewrite length_app. simpl. lia.
Qed.

Lemma push1_wf (m : ArrayMap.t) (o : obj) :
  wf m -> keys o <> [] ->
  wf (push1 m o) /\ ArrayMap.length (push1 m o) = S (ArrayMap.length m).
Proof.
  intros Hm Hk. destruct (addKey_wf (keys o) m Hm) as [Hw Hl].
  pose proof (addKey_keys_nonempty (keys o) m Hk) as Hne.
  unfold push1.
  pose proof (aligned_map_snoc _ _ (fun k => if has o k then get o k else VUndefined) Hw) as Ha.
  assert (Hlen : ArrayMap.length
                   (map (fun kv => (kv.1, kv.2 ++ [if has o kv.1 then get o kv.1 else VUndefined]))
                        (addKey (keys o) m)) = S (ArrayMap.length m)).
  { rewrite <- Hl. apply length_aligned; [done|].
    destruct (addKey (keys o) m); done. }
  split; [|done]. unfold wf. rewrite Hlen, <- Hl. done.
Qed.

Lemma push_wf (os : list obj) (m : ArrayMap.t) :
  wf m -> Forall (fun o => keys o <> []) os ->
  wf (ArrayMap.push os m)
  /\ ArrayMap.length (ArrayMap.push os m) = (ArrayMap.length m + List.length os)%nat.
Proof.
  revert m. induction os as [|o os IH]; intros m Hm Hk.
  - simpl. split; [done|lia].
  - apply Forall_cons in Hk as [Ho Hk].
    destruct (push1_wf m o Hm Ho) as [H1 H2].
    destruct (IH _ H1 Hk) as [H3 H4].
    split; [done|]. unfold ArrayMap.push in *. simpl. rewrite H4, H2. lia.
Qed.

Lemma array_splice_front {A} (d : Z) (l : list A) :
  (0 <= d)%Z ->
  array_splice 0 d [] l = drop (Z.to_nat (Z.min d (Z.of_nat (List.length l)))) l.
Proof.
  intros Hd. unfold array_splice. simpl.
  replace (Z.min 0 (Z.of_nat (List.length l))) with 0%Z by lia.
  simpl. f_equal. lia.
Qed.

Lemma splice_front_wf (d : Z) (m : ArrayMap.t) :
  wf m -> (0 <= d)%Z ->
  wf (splice 0 d [] m)
  /\ ArrayMap.length (splice 0 d [] m)
     = (ArrayMap.length m - Z.to_nat d)%nat.
Proof.
  intros Hm Hd.
  assert (Ha : aligned (ArrayMap.length m - Z.to_nat d) (splice 0 d [] m)).
  { unfold splice. apply Forall_map. eapply Forall_impl; [exact Hm|].
    intros [k c] Hc. simpl in *.
    replace (Z.max 0 (Z.min 0 (Z.of_nat (ArrayMap.length m)))) with 0%Z by lia.
    rewrite array_splice_front by lia. rewrite length_drop. lia. }
  destruct m as [|kv m].
  - simpl. split; [done|done].
  - assert (Hl : ArrayMap.length (splice 0 d [] (kv :: m))
                 = (ArrayMap.length (kv :: m) - Z.to_nat d)%nat).
    { apply length_aligned; [done|]. done. }
    split; [|done]. unfold wf. by rewrite Hl.
Qed.

End ArrayMapFacts.

Module KlinesFacts.
Import ArrayMapFacts.

Section Builtins.
Variable parseFloat parseInt : value -> float.

Lemma detect_length (first : obj) (keysIn : list string) :
  Klines.detect parseFloat first Klines.candidates = Some keysIn ->
  List.length keysIn = 4%nat.
Proof.
  unfold Klines.candidates. simpl.
  repeat (destruct (negb _); [intros [= <-]; reflexivity|]). done.
Qed.

Lemma convert_keys (keysIn : list string) (d : obj) :
  List.length keysIn = 4%nat ->
  keys (Klines.convert parseFloat parseInt keysIn d) = Klines.keysOut.
Proof.
  intros Hl. destruct keysIn as [|k0 [|k1 [|k2 [|k3 [|k4 ?]]]]]; try done.
Qed.

Lemma invert_keys (data : list obj) :
  Forall (fun c => keys c = Klines.keysOut) (Klines.invert parseFloat parseInt data).
Proof.
  unfold Klines.invert. destruct data as [|first rest]; [constructor|].
  destruct (Klines.detect parseFloat first Klines.candidates) as [keysIn|] eqn:E;
    [|constructor].
  apply Forall_map, Forall_forall. intros d _.
  apply convert_keys. by eapply detect_length.
Qed.

Lemma invert_length (data : list obj) :
  Klines.invert parseFloat parseInt data = []
  \/ List.length (Klines.invert parseFloat parseInt data) = List.length data.
Proof.
  unfold Klines.invert. destruct data as [|first rest]; [by left|].
  destruct (Klines.detect parseFloat first Klines.candidates); [|by left].
  right. by rewrite length_map.
Qed.

Lemma invert_keys_nonempty (data : list obj) :
  Forall (fun c => keys c <> []) (Klines.invert parseFloat parseInt data).
Proof.
  eapply Forall_impl; [apply invert_keys|]. intros c ->. done.
Qed.

(** [push] keeps the columns aligned, and leaves
    [max 0 (len - max 0 (n + len - limit)) + n] rows, for [n] the number of
    normalised records and [len] the rows before. *)
Lemma push_wf_length (objects : list obj) (k : Klines.t) :
  ArrayMap.wf (Klines.values k) ->
  let k' := Klines.push parseFloat parseInt objects k in
  let n := List.length (Klines.invert parseFloat parseInt objects) in
  let len := ArrayMap.length (Klines.values k) in
  ArrayMap.wf (Klines.values k')
  /\ Klines.limit k' = Klines.limit k
  /\ Z.of_nat (ArrayMap.length (Klines.values k'))
     = (Z.max 0 (Z.of_nat len - Z.max 0 (Z.of_nat (n + len) - Klines.limit k))
        + Z.of_nat n)%Z.
Proof.
  intros Hw k' n len. subst k'. unfold Klines.push. simpl.
  fold n. fold len.
  set (d := (if (Klines.limit k <? Z.of_nat (n + len))%Z
             then Z.of_nat (n + len) - Klines.limit k else 0)%Z).
  assert (Hd : (0 <= d)%Z).
  { subst d. destruct (Z.ltb_spec (Klines.limit k) (Z.of_nat (n + len))); lia. }
  destruct (splice_front_wf d _ Hw Hd) as [H1 H2].
  destruct (push_wf (Klines.invert parseFloat parseInt objects) _ H1
              (invert_keys_nonempty objects)) as [H3 H4].
  split; [done|]. split; [done|].
  rewrite H4, H2. fold len. fold n.
  subst d. destruct (Z.ltb_spec (Klines.limit k) (Z.of_nat (n + len))); lia.
Qed.

(** With a batch that fits the limit, the limit is kept, and it is reached
    exactly when the rows overflow. *)
Lemma push_within_limit (objects : list obj) (k : Klines.t) :
  ArrayMap.wf (Klines.values k) ->
  let k' := Klines.push parseFloat parseInt objects k in
  let n := List.length (Klines.invert parseFloat parseInt objects) in
  let len := ArrayMap.length (Klines.values k) in
  (Z.of_nat n <= Klines.limit k)%Z ->
  (Z.of_nat len <= Klines.limit k)%Z ->
  (Z.of_nat (ArrayMap.length (Klines.values k')) <= Klines.limit k)%Z
  /\ ((Klines.limit k < Z.of_nat (n + len))%Z ->
      Z.of_nat (ArrayMap.length (Klines.values k')) = Klines.limit k).
Proof.
  intros Hw k' n len Hn Hlen.
  destruct (push_wf_length objects k Hw) as (_ & _ & Hl).
  fold k' n len in Hl. lia.
Qed.

(** With a batch larger than the limit, every normalised record stays. *)
Lemma push_over_limit (objects : list obj) (k : Klines.t) :
  ArrayMap.wf (Klines.values k) ->
  let k' := Klines.push parseFloat parseInt objects k in
  let n := List.length (Klines.invert parseFloat parseInt objects) in
  (0 <= Klines.limit k < Z.of_nat n)%Z ->
  ArrayMap.length (Klines.values k') = n.
Proof.
  intros Hw k' n Hn.
  destruct (push_wf_length objects k Hw) as (_ & _ & Hl).
  fold k' n in Hl. lia.
Qed.

End Builtins.

(** C1 (the code departs from its own documentation): [push] is documented
    as keeping the number of rows within the limit, but it only drops rows
    that are already stored. On a fresh [Klines] (limit 100), one call with
    101 records leaves 101 aligned rows. *)
Theorem Klines_push_exceeds_limit :
  let k := Klines.push Klines.parse_number Klines.parse_number
                       (replicate 101 Examples.raw1) Klines.create in
  Klines.limit k = 100%Z
  /\ ArrayMap.length (Klines.values k) = 101%nat
  /\ ArrayMap.aligned 101 (Klines.values k).
Proof.
  assert (Hn : List.length (Klines.invert Klines.parse_number Klines.parse_number
                              (replicate 101 Examples.raw1)) = 101%nat)
    by (vm_compute; reflexivity).
  assert (Hw : ArrayMap.wf (Klines.values Klines.create)) by constructor.
  pose proof (push_wf_length Klines.parse_number Klines.parse_number
                (replicate 101 Examples.raw1) Klines.create Hw) as (Hwf & Hlim & _).
  pose proof (push_over_limit Klines.parse_number Klines.parse_number
                (replicate 101 Examples.raw1) Klines.create Hw) as Hlen.
  cbv zeta in Hlen. rewrite Hn in Hlen. specialize (Hlen ltac:(simpl; lia)).
  cbv zeta. split; [exact Hlim|]. split; [exact Hlen|].
  unfold ArrayMap.wf in Hwf. rewrite Hlen in Hwf. exact Hwf.
Qed.

(** C2 (the code departs from its own documentation): [invert] is documented
    as returning normalised Kline objects, but [keysOut] is taken from
    positions 6 to 9 of [source]. Every record it returns has exactly the
    keys hl2, hlc3, ohlc4 and hlcc4, read from the keys h, h, o, h of the
    lowercase-letter scheme; the record [{t: 1000, o: 1, h: 2, l: 0.5, c: 1.5}]
    becomes [{hl2: 2, hlc3: 2, ohlc4: 1, hlcc4: 2}], with no timestamp, open,
    high, low or close. *)
Theorem Klines_invert_keys :
  (forall (parseFloat parseInt : value -> float) (data : list obj),
      Forall (fun c => keys c = ["hl2"; "hlc3"; "ohlc4"; "hlcc4"])
             (Klines.invert parseFloat parseInt data))
  /\ (forall (parseFloat parseInt : value -> float) (d : obj),
        Klines.convert parseFloat parseInt (map char0 Klines.keysOut) d
        = [("hl2", VNum (parseInt (get d "h")));
           ("hlc3", VNum (parseFloat (get d "h")));
           ("ohlc4", VNum (parseFloat (get d "o")));
           ("hlcc4", VNum (parseFloat (get d "h")))])
  /\ Klines.invert Klines.parse_number Klines.parse_number [Examples.raw1]
     = [[("hl2", VNum 2); ("hlc3", VNum 2); ("ohlc4", VNum 1); ("hlcc4", VNum 2)]]
  /\ get_opt [("hl2", VNum 2); ("hlc3", VNum 2); ("ohlc4", VNum 1); ("hlcc4", VNum 2)]
             "timestamp" = None.
Proof.
  split; [|split; [|split]]; try reflexivity.
  intros parseFloat parseInt data. apply invert_keys.
Qed.

End KlinesFacts.

Module FloatFacts.

(** ** Signs of rounded results *)

Lemma shr_1_nonneg (mrs : shr_record) : (0 <= shr_m mrs -> 0 <= shr_m (shr_1 mrs))%Z.
Proof.
  destruct mrs as [m r s]. simpl.
  destruct m as [|[p|p|]|[p|p|]]; simpl; lia.
Qed.

Lemma iter_pos_invariant {A} (f : A -> A) (P : A -> Prop) (n : positive) (x : A) :
  (forall y, P y -> P (f y)) -> P x -> P (SpecFloat.iter_pos f n x).
Proof.
  intros Hf. revert x. induction n as [n IH|n IH|]; intros x Hx; simpl; auto.
Qed.

Lemma shr_nonneg (mrs : shr_record) (e n : Z) :
  (0 <= shr_m mrs -> 0 <= shr_m (fst (shr mrs e n)))%Z.
Proof.
  intros Hm. unfold shr. destruct n as [|p|p]; simpl; try done.
  apply (iter_pos_invariant shr_1 (fun r => (0 <= shr_m r)%Z)); [apply shr_1_nonneg|done].
Qed.

Lemma shr_record_of_loc_m (m : Z) (l : location) : shr_m (shr_record_of_loc m l) = m.
Proof. by destruct l as [|[| |]]. Qed.

Lemma shr_fexp_nonneg (prec emax m e : Z) (l : location) :
  (0 <= m -> 0 <= shr_m (fst (shr_fexp prec emax m e l)))%Z.
Proof.
  intros Hm. unfold shr_fexp. apply shr_nonneg. by rewrite shr_record_of_loc_m.
Qed.

Lemma round_nearest_even_nonneg (m : Z) (l : location) :
  (0 <= m -> 0 <= round_nearest_even m l)%Z.
Proof.
  intros Hm. destruct l as [|[| |]]; simpl; try done; [|lia].
  destruct (Z.even m); lia.
Qed.

(** Rounding a non-negative integer with the positive sign gives a zero, a
    positive finite number or [+infinity]. *)
Lemma binary_round_aux_nonneg (prec emax mx ex : Z) (lx : location) :
  (0 <= mx)%Z -> sf_nonneg (binary_round_aux prec emax false mx ex lx) = true.
Proof.
  intros Hm. unfold binary_round_aux.
  pose proof (shr_fexp_nonneg prec emax mx ex lx Hm) as H1.
  destruct (shr_fexp prec emax mx ex lx) as [mrs' e'] eqn:E1. simpl in H1.
  pose proof (shr_fexp_nonneg prec emax
                (round_nearest_even (shr_m mrs') (loc_of_shr_record mrs')) e' loc_Exact
                (round_nearest_even_nonneg _ _ H1)) as H2.
  destruct (shr_fexp prec emax _ e' loc_Exact) as [mrs'' e''] eqn:E2. simpl in H2.
  destruct (shr_m mrs'') as [|m|m]; [done| |lia].
  by destruct (Z.leb e'' (emax - prec)).
Qed.

Lemma binary_normalize_nonneg (prec emax m e : Z) :
  (0 <= m)%Z -> sf_nonneg (binary_normalize prec emax m e false) = true.
Proof.
  intros Hm. destruct m as [|m|m]; [done| |lia].
  simpl. unfold binary_round.
  destruct (shl_align m e _) as [mz ez]. by apply binary_round_aux_nonneg.
Qed.

Lemma SFadd_nonneg (prec emax : Z) (x y : spec_float) :
  sf_nonneg x = true -> sf_nonneg y = true -> sf_nonneg (SFadd prec emax x y) = true.
Proof.
  destruct x as [sx|sx| |sx mx ex], y as [sy|sy| |sy my ey]; simpl; try done;
    try (destruct sx, sy; done).
  destruct sx, sy; try done. intros _ _.
  apply binary_normalize_nonneg. simpl. lia.
Qed.

Lemma SFdiv_nonneg (prec emax : Z) (x y : spec_float) :
  sf_pos x = true -> sf_pos y = true -> sf_infinite x = false ->
  sf_nonneg (SFdiv prec emax x y) = true.
Proof.
  destruct x as [sx|sx| |sx mx ex], y as [sy|sy| |sy my ey]; simpl; try done;
    try (destruct sx, sy; done).
  destruct sx, sy; try done. intros _ _ _.
  unfold SFdiv_core_binary.
  set (m' := match (ex - ey - Z.min _ _)%Z with
             | 0%Z => Z.pos mx
             | Z.pos _ => Z.shiftl (Z.pos mx) _
             | Z.neg _ => 0%Z
             end).
  assert (Hm' : (0 <= m')%Z).
  { subst m'. destruct (ex - ey - Z.min _ _)%Z; [lia| |lia].
    apply Z.shiftl_nonneg. lia. }
  pose proof (Z_div_mod m' (Z.pos my) ltac:(lia)) as Hdm.
  destruct (Z.div_eucl m' (Z.pos my)) as [q r]. destruct Hdm as [Hq Hr].
  apply binary_round_aux_nonneg. nia.
Qed.

Lemma SFdiv_nonneg_or_nan (prec emax : Z) (x y : spec_float) :
  sf_pos x = true -> sf_pos y = true -> sf_nan (SFdiv prec emax x y) = false ->
  sf_nonneg (SFdiv prec emax x y) = true.
Proof.
  intros Hx Hy Hn. destruct (sf_infinite x) eqn:Hi; [|by apply SFdiv_nonneg].
  destruct x as [sx|sx| |sx mx ex], y as [sy|sy| |sy my ey]; simpl in *; try done.
  by destruct sx, sy.
Qed.

(** ** The mantissa of a canonical number *)

Lemma digits2_pos_bounds (m : positive) :
  (2 ^ (Z.pos (digits2_pos m) - 1) <= Z.pos m < 2 ^ Z.pos (digits2_pos m))%Z.
Proof.
  induction m as [m IH|m IH|]; simpl digits2_pos.
  - rewrite Pos2Z.inj_succ.
    replace (Z.succ (Z.pos (digits2_pos m)) - 1)%Z with (Z.succ (Z.pos (digits2_pos m) - 1)) by lia.
    rewrite !Z.pow_succ_r by lia. lia.
  - rewrite Pos2Z.inj_succ.
    replace (Z.succ (Z.pos (digits2_pos m)) - 1)%Z with (Z.succ (Z.pos (digits2_pos m) - 1)) by lia.
    rewrite !Z.pow_succ_r by lia. lia.
  - simpl. lia.
Qed.

Lemma iter_xO (m d : positive) : Z.pos (Pos.iter xO m d) = (Z.pos m * 2 ^ Z.pos d)%Z.
Proof.
  induction d as [|d IH] using Pos.peano_ind.
  - simpl. lia.
  - rewrite Pos.iter_succ, Pos2Z.inj_xO, IH, Pos2Z.inj_succ, Z.pow_succ_r by lia. lia.
Qed.

Lemma canonical_digits (prec emax : Z) (m : positive) (e : Z) :
  canonical_mantissa prec emax m e = true ->
  (Z.pos (digits2_pos m) <= prec)%Z
  /\ (SpecFloat.emin prec emax <= e)%Z
  /\ ((SpecFloat.emin prec emax < e)%Z -> Z.pos (digits2_pos m) = prec).
Proof.
  unfold canonical_mantissa, SpecFloat.fexp, SpecFloat.emin. intros H. apply Z.eqb_eq in H. lia.
Qed.

(** For canonical positive numbers, the comparison of the specification is
    the comparison of the mantissas brought to the smaller exponent. *)
Lemma SFsub_finite_nonneg (prec emax : Z) (mx my : positive) (ex ey : Z) :
  (0 < prec)%Z ->
  bounded prec emax mx ex = true -> bounded prec emax my ey = true ->
  SFleb (S754_finite false my ey) (S754_finite false mx ex) = true ->
  sf_nonneg (SFsub prec emax (S754_finite false mx ex) (S754_finite false my ey)) = true.
Proof.
  intros Hprec Hx Hy Hle.
  unfold bounded in *. apply andb_prop in Hx as [Hx _]. apply andb_prop in Hy as [Hy _].
  apply canonical_digits in Hx as (Hdx & Hex & Hnx).
  apply canonical_digits in Hy as (Hdy & Hey & Hny).
  unfold SFsub. apply binary_normalize_nonneg. simpl cond_Zopp.
  unfold SFleb, SFcompare in Hle.
  destruct (Z.compare_spec ey ex) as [Heq|Hlt|Hgt]; [| |done].
  - subst ey. rewrite Z.min_id. unfold shl_align. rewrite Z.sub_diag. simpl.
    destruct (Pos.compare_cont Eq my mx) eqn:E; try done.
    + apply Pos.compare_eq in E. lia.
    + assert (Z.pos my < Z.pos mx)%Z by exact E. lia.
  - rewrite Z.min_r by lia. unfold shl_align. rewrite Z.sub_diag.
    destruct (ey - ex)%Z as [|d|d] eqn:Ed; [lia|lia|]. simpl fst.
    rewrite iter_xO.
    pose proof (digits2_pos_bounds mx) as Bx. pose proof (digits2_pos_bounds my) as By.
    rewrite (Hnx ltac:(lia)) in Bx.
    assert (H1 : (Z.pos my < 2 ^ prec)%Z).
    { eapply Z.lt_le_trans; [apply By|]. apply Z.pow_le_mono_r; lia. }
    assert (H2 : (2 ^ prec = 2 * 2 ^ (prec - 1))%Z).
    { rewrite <- Z.pow_succ_r by lia. f_equal. lia. }
    assert (H3 : (2 <= 2 ^ Z.pos d)%Z).
    { change 2%Z with (2 ^ 1)%Z at 1. apply Z.pow_le_mono_r; lia. }
    nia.
Qed.

Lemma SFsub_nonneg (prec emax : Z) (x y : spec_float) :
  (0 < prec)%Z ->
  SpecFloat.valid_binary prec emax x = true -> SpecFloat.valid_binary prec emax y = true ->
  sf_nonneg x = true -> sf_nonneg y = true -> sf_infinite y = false ->
  SFleb y x = true ->
  sf_nonneg (SFsub prec emax x y) = true.
Proof.
  intros Hprec Hvx Hvy Hx Hy Hi Hle.
  destruct x as [sx|sx| |sx mx ex], y as [sy|sy| |sy my ey]; simpl in *; try done;
    try (destruct sx, sy; done).
  destruct sx, sy; try done.
  by apply (SFsub_finite_nonneg prec emax mx my ex ey).
Qed.

Lemma SFcompare_antisym (x y : spec_float) :
  SFcompare y x = option_map CompOpp (SFcompare x y).
Proof.
  destruct x as [sx|sx| |sx mx ex], y as [sy|sy| |sy my ey]; simpl; try done;
    try (destruct sx, sy; done); try (by destruct sx); try (by destruct sy).
  destruct sx, sy; try done; simpl; f_equal.
  - rewrite (Z.compare_antisym ex ey).
    destruct (ex ?= ey)%Z; simpl; try done.
    rewrite (Pos.compare_cont_antisym mx my Eq). simpl.
    by destruct (Pos.compare_cont Eq mx my).
  - rewrite (Z.compare_antisym ex ey).
    destruct (ex ?= ey)%Z; simpl; try done.
    by rewrite (Pos.compare_cont_antisym mx my Eq).
Qed.

(** ** The same facts on binary64 numbers *)

Lemma leb_zero (x : float) : (0 <=? x)%float = sf_nonneg (Prim2SF x).
Proof.
  rewrite FloatAxioms.leb_spec. replace (Prim2SF 0) with (S754_zero false) by reflexivity.
  by destruct (Prim2SF x) as [[|]|[|]| |[|] m e].
Qed.

Lemma ltb_zero (x : float) : (0 <? x)%float = sf_pos (Prim2SF x).
Proof.
  rewrite FloatAxioms.ltb_spec. replace (Prim2SF 0) with (S754_zero false) by reflexivity.
  by destruct (Prim2SF x) as [[|]|[|]| |[|] m e].
Qed.

Lemma is_infinity_spec (x : float) : is_infinity x = sf_infinite (Prim2SF x).
Proof.
  unfold is_infinity. rewrite FloatAxioms.eqb_spec, FloatAxioms.abs_spec.
  replace (Prim2SF infinity) with (S754_infinity false) by reflexivity.
  by destruct (Prim2SF x) as [[|]|[|]| |[|] m e].
Qed.

Lemma is_nan_spec (x : float) : is_nan x = sf_nan (Prim2SF x).
Proof.
  unfold is_nan. rewrite FloatAxioms.eqb_spec. unfold SFeqb.
  destruct (Prim2SF x) as [[|]|[|]| |[|] m e]; simpl; try done.
  - by rewrite Z.compare_refl, Pos.compare_cont_refl.
  - by rewrite Z.compare_refl, Pos.compare_cont_refl.
Qed.

(** The sum of two numbers [>= 0] is [>= 0]. *)
Lemma add_nonneg (x y : float) :
  (0 <=? x)%float = true -> (0 <=? y)%float = true -> (0 <=? x + y)%float = true.
Proof. rewrite !leb_zero, FloatAxioms.add_spec. apply SFadd_nonneg. Qed.

(** Taking a number that is not infinite from one that is at least as
    large leaves a number [>= 0]. *)
Lemma sub_nonneg (x y : float) :
  (0 <=? x)%float = true -> (0 <=? y)%float = true -> (y <=? x)%float = true ->
  is_infinity y = false -> (0 <=? x - y)%float = true.
Proof.
  rewrite !leb_zero, FloatAxioms.leb_spec, is_infinity_spec, FloatAxioms.sub_spec. intros Hx Hy Hle Hi.
  apply SFsub_nonneg; try done; apply Prim2SF_valid.
Qed.

(** A positive number that is not infinite, over a positive number, is
    [>= 0]. *)
Lemma div_nonneg (v p : float) :
  (0 <? v)%float = true -> (0 <? p)%float = true -> is_infinity v = false ->
  (0 <=? v / p)%float = true.
Proof.
  rewrite !ltb_zero, leb_zero, is_infinity_spec, FloatAxioms.div_spec. apply SFdiv_nonneg.
Qed.

(** A positive number over a positive number is [>= 0] unless it is NaN. *)
Lemma div_nonneg_or_nan (v p : float) :
  (0 <? v)%float = true -> (0 <? p)%float = true -> is_nan (v / p)%float = false ->
  (0 <=? v / p)%float = true.
Proof.
  rewrite !ltb_zero, leb_zero, is_nan_spec, FloatAxioms.div_spec.
  apply SFdiv_nonneg_or_nan.
Qed.

Lemma ltb_not_geb (a b : float) : (a <? b)%float = true -> (b <=? a)%float = false.
Proof.
  rewrite FloatAxioms.ltb_spec, FloatAxioms.leb_spec. unfold SFltb, SFleb.
  rewrite (SFcompare_antisym (Prim2SF a) (Prim2SF b)).
  by destruct (SFcompare (Prim2SF a) (Prim2SF b)) as [[| |]|].
Qed.

Lemma pos_of_not_le_zero (v : float) :
  (v <=? 0)%float = false -> is_nan v = false -> (0 <? v)%float = true.
Proof.
  rewrite FloatAxioms.leb_spec, is_nan_spec, ltb_zero.
  replace (Prim2SF 0) with (S754_zero false) by reflexivity.
  by destruct (Prim2SF v) as [[|]|[|]| |[|] m e].
Qed.

Lemma leb_not_nan (a b : float) : (a <=? b)%float = true -> is_nan a = false.
Proof.
  rewrite FloatAxioms.leb_spec, is_nan_spec. by destruct (Prim2SF a) as [[|]|[|]| |[|] m e].
Qed.

Lemma div_not_nan (v p : float) : is_nan (v / p)%float = false -> is_nan v = false.
Proof.
  rewrite !is_nan_spec, FloatAxioms.div_spec. by destruct (Prim2SF v) as [[|]|[|]| |[|] m e].
Qed.

Lemma pos_nonneg (v : float) : (0 <? v)%float = true -> (0 <=? v)%float = true.
Proof.
  rewrite ltb_zero, leb_zero. by destruct (Prim2SF v) as [[|]|[|]| |[|] m e].
Qed.

End FloatFacts.

Module LoopFacts.
Import Indicator.

Section Loop.
Context {S : Type}.
Implicit Types (body : nat -> S -> S) (st : S).

Lemma loop_app body (start n m : nat) st :
  loop body start (n + m) st = loop body (start + n) m (loop body start n st).
Proof.
  revert start st. induction n as [|n IH]; intros start st; simpl.
  - by rewrite Nat.add_0_r.
  - rewrite IH. f_equal. lia.
Qed.

Lemma loop_snoc body (start n : nat) st :
  loop body start (Datatypes.S n) st = body (start + n) (loop body start n st).
Proof. replace (Datatypes.S n) with (n + 1)%nat by lia. by rewrite loop_app. Qed.

Lemma loop_ext body1 body2 (start n : nat) st :
  (forall i st', start <= i < start + n -> body1 i st' = body2 i st') ->
  loop body1 start n st = loop body2 start n st.
Proof.
  revert start st. induction n as [|n IH]; intros start st Hb; [done|].
  simpl. rewrite Hb by lia. apply IH. intros i st' Hi. apply Hb. lia.
Qed.

(** A loop whose body moves the cursor by one. *)
Section Cursor.
Variable cursor : S -> nat.

Lemma loop_cursor body (start n : nat) st :
  steps cursor body -> cursor (loop body start n st) = (cursor st + n)%nat.
Proof.
  intros Hs. revert start st. induction n as [|n IH]; intros start st; simpl; [lia|].
  rewrite IH, Hs. lia.
Qed.

(** Running the loop up to [n] with one body and then up to [m] with a body
    that agrees with it below [n] is running the second body up to [m]. *)
Lemma for_range_resume body1 body2 (n m : nat) st :
  steps cursor body1 ->
  (forall i st', i < n -> body1 i st' = body2 i st') ->
  n <= m ->
  let st1 := for_range body1 (cursor st) n st in
  for_range body2 (cursor st1) m st1 = for_range body2 (cursor st) m st.
Proof.
  intros Hs Hb Hnm st1. subst st1. unfold for_range.
  destruct (decide (n <= cursor st)) as [Hle|Hgt].
  - replace (n - cursor st)%nat with 0%nat by lia. done.
  - rewrite loop_cursor by done.
    replace (cursor st + (n - cursor st))%nat with n by lia.
    replace (m - cursor st)%nat with ((n - cursor st) + (m - n))%nat by lia.
    rewrite loop_app.
    replace (cursor st + (n - cursor st))%nat with n by lia.
    f_equal. apply loop_ext. intros i st' Hi. apply Hb. lia.
Qed.

End Cursor.

(** A loop whose body appends one cell to a column. *)
Section Column.
Context {A : Type}.
Variable col : S -> list A.
Variable cell_of : nat -> S -> A.

Lemma loop_col_length body (start n : nat) st :
  appends col cell_of body ->
  List.length (col (loop body start n st)) = (List.length (col st) + n)%nat.
Proof.
  intros Ha. induction n as [|n IH]; [simpl; lia|].
  rewrite loop_snoc, Ha, length_app, IH. simpl. lia.
Qed.

Lemma loop_col_prefix body (start n m : nat) st :
  appends col cell_of body -> n <= m ->
  col (loop body start n st) = take (List.length (col st) + n) (col (loop body start m st)).
Proof.
  intros Ha Hnm. replace m with (n + (m - n))%nat by lia.
  generalize (m - n)%nat as k. clear m Hnm. intros k.
  induction k as [|k IH].
  - rewrite Nat.add_0_r, take_ge; [done|]. rewrite loop_col_length by done. lia.
  - replace (n + Datatypes.S k)%nat with (Datatypes.S (n + k)) by lia.
    rewrite loop_snoc, Ha, take_app_le; [done|].
    rewrite loop_col_length by done. lia.
Qed.

(** The cell at position [length (col st) + i] is the one the body computes
    at index [start + i], from the state the loop has reached by then. *)
Lemma loop_col_lookup body (start n i : nat) st :
  appends col cell_of body -> i < n ->
  col (loop body start n st) !! (List.length (col st) + i)%nat
  = Some (cell_of (start + i) (loop body start i st)).
Proof.
  intros Ha Hi.
  assert (Hp := loop_col_prefix body start (Datatypes.S i) n st Ha ltac:(lia)).
  assert (Hl : col (loop body start (Datatypes.S i) st) !! (List.length (col st) + i)%nat
               = Some (cell_of (start + i) (loop body start i st))).
  { rewrite loop_snoc, Ha. rewrite lookup_app_r; rewrite loop_col_length by done; [|lia].
    by replace (List.length (col st) + i - (List.length (col st) + i))%nat with 0%nat by lia. }
  rewrite Hp in Hl. rewrite lookup_take_lt in Hl by lia. done.
Qed.

(** The same from a state whose column is empty. *)
Lemma loop_fresh_length body (start n : nat) st :
  appends col cell_of body -> col st = [] -> List.length (col (loop body start n st)) = n.
Proof. intros Ha He. rewrite loop_col_length by done. by rewrite He. Qed.

Lemma loop_fresh_prefix body (start n m : nat) st :
  appends col cell_of body -> col st = [] -> n <= m ->
  col (loop body start n st) = take n (col (loop body start m st)).
Proof.
  intros Ha He Hnm. rewrite (loop_col_prefix body start n m) by done. by rewrite He.
Qed.

Lemma loop_fresh_lookup body (start n i : nat) st :
  appends col cell_of body -> col st = [] -> i < n ->
  col (loop body start n st) !! i = Some (cell_of (start + i) (loop body start i st)).
Proof.
  intros Ha He Hi. rewrite <- (loop_col_lookup body start n i st Ha Hi). by rewrite He.
Qed.

End Column.
End Loop.

Lemma slice_app_l {A} (s e : nat) (xs zs : list A) :
  e <= List.length xs -> slice s e (xs ++ zs) = slice s e xs.
Proof.
  intros He. unfold slice.
  destruct (decide (s <= List.length xs)) as [Hs|Hs].
  - rewrite drop_app_le by done. rewrite take_app_le; [done|].
    rewrite length_drop. lia.
  - replace (e - s)%nat with 0%nat by lia. done.
Qed.

Lemma slice_prefix {A} (s e : nat) (xs ys : list A) :
  xs `prefix_of` ys -> e <= List.length xs -> slice s e ys = slice s e xs.
Proof. intros [zs ->] He. by apply slice_app_l. Qed.

Lemma lookup_number_prefix (xs ys : list value) (i : nat) :
  xs `prefix_of` ys -> i < List.length xs ->
  ys !! i ≫= as_number = xs !! i ≫= as_number.
Proof. intros [zs ->] Hi. by rewrite lookup_app_l. Qed.

Lemma number_before_prefix (xs ys : list value) (i : nat) :
  xs `prefix_of` ys -> i < List.length xs ->
  number_before ys i = number_before xs i.
Proof.
  intros Hp Hi. destruct i as [|j]; [done|]. simpl.
  apply lookup_number_prefix; [done|lia].
Qed.

End LoopFacts.

Module CursorFacts.
Import Indicator LoopFacts.

Lemma MA_body_prefix (xs ys : list value) (i : nat) (st : Base) :
  xs `prefix_of` ys -> i < List.length xs -> MA_body xs i st = MA_body ys i st.
Proof.
  intros Hp Hi. unfold MA_body, MA_value.
  by rewrite (slice_prefix _ _ xs ys) by (done || lia).
Qed.

Lemma EMA_body_prefix (xs ys : list value) (i : nat) (st : Base) :
  xs `prefix_of` ys -> i < List.length xs -> EMA_body xs i st = EMA_body ys i st.
Proof.
  intros Hp Hi. unfold EMA_body, EMA_value.
  rewrite (lookup_number_prefix xs ys) by done.
  by rewrite (slice_prefix _ _ xs ys) by (done || lia).
Qed.

Lemma MACD_body_prefix (xs ys : list value) (i : nat) (st : MACD) :
  xs `prefix_of` ys -> i < List.length xs -> MACD_body xs i st = MACD_body ys i st.
Proof.
  intros Hp Hi. unfold MACD_body.
  rewrite (lookup_number_prefix xs ys) by done.
  by rewrite !(slice_prefix _ _ xs ys) by (done || lia).
Qed.

Lemma RSI_body_prefix (xs ys : list value) (i : nat) (st : RSI) :
  xs `prefix_of` ys -> i < List.length xs -> RSI_body xs i st = RSI_body ys i st.
Proof.
  intros Hp Hi. unfold RSI_body.
  rewrite (lookup_number_prefix xs ys) by done.
  by rewrite (number_before_prefix xs ys) by done.
Qed.

Lemma MA_steps (xs : list value) : steps (fun st => List.length (base st)) (MA_body xs).
Proof. intros i st. unfold MA_body, push_base. simpl. rewrite length_app. simpl. lia. Qed.

Lemma EMA_steps (xs : list value) : steps (fun st => List.length (base st)) (EMA_body xs).
Proof. intros i st. unfold EMA_body, push_base. simpl. rewrite length_app. simpl. lia. Qed.

Lemma MACD_steps (xs : list value) :
  steps (fun st => List.length (macd_base st)) (MACD_body xs).
Proof.
  intros i st. unfold MACD_body.
  destruct (xs !! i ≫= as_number); simpl; rewrite length_app; simpl; lia.
Qed.

Lemma RSI_steps (xs : list value) :
  steps (fun st => List.length (rsi_base st)) (RSI_body xs).
Proof.
  intros i st. unfold RSI_body.
  destruct (xs !! i ≫= as_number), (number_before xs i); simpl; rewrite length_app; simpl; lia.
Qed.

Lemma MA_push_prefix (xs ys : list value) (st : Base) :
  xs `prefix_of` ys -> MA_push ys (MA_push xs st) = MA_push ys st.
Proof.
  intros Hp. unfold MA_push.
  apply (for_range_resume (fun st => List.length (base st)) (MA_body xs) (MA_body ys)).
  - apply MA_steps.
  - intros i st' Hi. by apply MA_body_prefix.
  - by apply prefix_length.
Qed.

Lemma EMA_push_prefix (xs ys : list value) (st : Base) :
  xs `prefix_of` ys -> EMA_push ys (EMA_push xs st) = EMA_push ys st.
Proof.
  intros Hp. unfold EMA_push.
  apply (for_range_resume (fun st => List.length (base st)) (EMA_body xs) (EMA_body ys)).
  - apply EMA_steps.
  - intros i st' Hi. by apply EMA_body_prefix.
  - by apply prefix_length.
Qed.

Lemma MACD_push_prefix (xs ys : list value) (st : MACD) :
  xs `prefix_of` ys -> MACD_push ys (MACD_push xs st) = MACD_push ys st.
Proof.
  intros Hp. unfold MACD_push.
  apply (for_range_resume (fun st => List.length (macd_base st)) (MACD_body xs) (MACD_body ys)).
  - apply MACD_steps.
  - intros i st' Hi. by apply MACD_body_prefix.
  - by apply prefix_length.
Qed.

Lemma RSI_push_prefix (xs ys : list value) (st : RSI) :
  xs `prefix_of` ys -> RSI_push ys (RSI_push xs st) = RSI_push ys st.
Proof.
  intros Hp. unfold RSI_push.
  apply (for_range_resume (fun st => List.length (rsi_base st)) (RSI_body xs) (RSI_body ys)).
  - apply RSI_steps.
  - intros i st' Hi. by apply RSI_body_prefix.
  - by apply prefix_length.
Qed.

End CursorFacts.

Module DeltaFacts.
Import Indicator.

Lemma ATR_push_app (ps qs : list (option PriceObject)) (st : ATR) :
  ATR_push qs (ATR_push ps st) = ATR_push (ps ++ qs) st.
Proof. unfold ATR_push. by rewrite foldl_app. Qed.

Lemma ATR_push_cons (c : PriceObject) (cs : list (option PriceObject)) (st : ATR) :
  ATR_push (Some c :: cs) st = ATR_push cs (ATR_body c st).
Proof. done. Qed.

Lemma ATR_push_snoc (c : PriceObject) (cs : list (option PriceObject)) (st : ATR) :
  ATR_push (cs ++ [Some c]) st = ATR_body c (ATR_push cs st).
Proof. by rewrite <- ATR_push_app. Qed.

Lemma ATR_push_rows (cs : list PriceObject) (st : ATR) :
  List.length (atr_base (ATR_push (map Some cs) st)) = (List.length (atr_base st) + List.length cs)%nat
  /\ List.length (range (ATR_push (map Some cs) st)) = (List.length (range st) + List.length cs)%nat.
Proof.
  revert st. induction cs as [|c cs IH]; intros st; [simpl; lia|].
  simpl map. rewrite ATR_push_cons. destruct (IH (ATR_body c st)) as [H1 H2].
  rewrite H1, H2. unfold ATR_body. simpl. rewrite !length_app. simpl. lia.
Qed.

Lemma ST_body_rows (c : PriceObject) (sl : SuperTrend * ST_locals) :
  let st := (ST_body c sl).1 in
  List.length (upper st) = Datatypes.S (List.length (upper sl.1))
  /\ List.length (lower st) = Datatypes.S (List.length (lower sl.1))
  /\ List.length (trend st) = Datatypes.S (List.length (trend sl.1))
  /\ List.length (atr_base (st_atr st)) = Datatypes.S (List.length (atr_base (st_atr sl.1))).
Proof.
  destruct sl as [st loc]. unfold ST_body.
  destruct (negb _); simpl; rewrite !length_app; simpl; repeat split; lia.
Qed.

Lemma ST_loop_rows (cs : list PriceObject) (sl : SuperTrend * ST_locals) :
  let st := (ST_loop (map Some cs) sl).1 in
  List.length (upper st) = (List.length (upper sl.1) + List.length cs)%nat
  /\ List.length (lower st) = (List.length (lower sl.1) + List.length cs)%nat
  /\ List.length (trend st) = (List.length (trend sl.1) + List.length cs)%nat
  /\ List.length (atr_base (st_atr st))
     = (List.length (atr_base (st_atr sl.1)) + List.length cs)%nat.
Proof.
  revert sl. induction cs as [|c cs IH]; intros sl; [simpl; lia|].
  simpl. destruct (IH (ST_body c sl)) as (H1 & H2 & H3 & H4).
  destruct (ST_body_rows c sl) as (B1 & B2 & B3 & B4).
  unfold ST_loop in *. cbv zeta in *. rewrite H1, H2, H3, H4, B1, B2, B3, B4. lia.
Qed.

Lemma ST_push_rows (cs : list PriceObject) (st : SuperTrend) :
  let st' := ST_push (map Some cs) st in
  List.length (upper st') = (List.length (upper st) + List.length cs)%nat
  /\ List.length (lower st') = (List.length (lower st) + List.length cs)%nat
  /\ List.length (trend st') = (List.length (trend st) + List.length cs)%nat
  /\ List.length (atr_base (st_atr st'))
     = (List.length (atr_base (st_atr st)) + List.length cs)%nat.
Proof. apply (ST_loop_rows cs (st, _)). Qed.

End DeltaFacts.

Module C3.
Import Indicator CursorFacts DeltaFacts.

(** C3, as the code has it: the four indicators over numbers resume at
    their cursor, from any state, so a call with [xs] followed by a call
    with an extension [ys] is a call with [ys], and a repeated call changes
    nothing. [AverageTrueRange] and [SuperTrend] keep no cursor: a call
    processes every element it is given, so two calls on an ATR are one call
    with the concatenation, and a call on a SuperTrend adds one row per
    price object. *)
Theorem push_resumes_at_cursor (xs ys : list value) :
  xs `prefix_of` ys ->
  (forall st, MA_push ys (MA_push xs st) = MA_push ys st)
  /\ (forall st, EMA_push ys (EMA_push xs st) = EMA_push ys st)
  /\ (forall st, MACD_push ys (MACD_push xs st) = MACD_push ys st)
  /\ (forall st, RSI_push ys (RSI_push xs st) = RSI_push ys st)
  /\ (forall st, MA_push xs (MA_push xs st) = MA_push xs st)
  /\ (forall st, EMA_push xs (EMA_push xs st) = EMA_push xs st)
  /\ (forall st, MACD_push xs (MACD_push xs st) = MACD_push xs st)
  /\ (forall st, RSI_push xs (RSI_push xs st) = RSI_push xs st)
  /\ (forall ps qs st, ATR_push qs (ATR_push ps st) = ATR_push (ps ++ qs) st)
  /\ (forall cs st,
         List.length (atr_base (ATR_push (map Some cs) st))
         = (List.length (atr_base st) + List.length cs)%nat)
  /\ (forall cs st,
         List.length (upper (ST_push (map Some cs) st))
         = (List.length (upper st) + List.length cs)%nat
         /\ List.length (lower (ST_push (map Some cs) st))
            = (List.length (lower st) + List.length cs)%nat
         /\ List.length (trend (ST_push (map Some cs) st))
            = (List.length (trend st) + List.length cs)%nat).
Proof.
  intros Hp. repeat split.
  - intros st. by apply MA_push_prefix.
  - intros st. by apply EMA_push_prefix.
  - intros st. by apply MACD_push_prefix.
  - intros st. by apply RSI_push_prefix.
  - intros st. by apply MA_push_prefix.
  - intros st. by apply EMA_push_prefix.
  - intros st. by apply MACD_push_prefix.
  - intros st. by apply RSI_push_prefix.
  - intros ps qs st. apply ATR_push_app.
  - intros cs st. apply ATR_push_rows.
  - apply ST_push_rows.
  - apply ST_push_rows.
  - apply ST_push_rows.
Qed.

Lemma push_resumes_at_cursor_witness :
  [VNum 1; VNum 2] `prefix_of` [VNum 1; VNum 2; VNum 3]
  /\ MA_push [VNum 1; VNum 2; VNum 3] (MA_push [VNum 1; VNum 2] (mkBase 2 []))
     = MA_push [VNum 1; VNum 2; VNum 3] (mkBase 2 []).
Proof.
  assert (Hp : [VNum 1; VNum 2] `prefix_of` [VNum 1; VNum 2; VNum 3])
    by (exists [VNum 3]; reflexivity).
  split; [exact Hp|].
  exact (proj1 (push_resumes_at_cursor _ _ Hp) (mkBase 2 [])).
Defined.

(** C3 as stated fails for [AverageTrueRange]: calling [push] again with
    the input it has already seen appends that input's rows once more. *)
Lemma ATR_push_again_appends :
  [Some Examples.candle1] `prefix_of` [Some Examples.candle1]
  /\ List.length (atr_base (ATR_push [Some Examples.candle1] Examples.atr2)) = 1%nat
  /\ List.length (atr_base (ATR_push [Some Examples.candle1]
                              (ATR_push [Some Examples.candle1] Examples.atr2))) = 2%nat
  /\ ATR_push [Some Examples.candle1] (ATR_push [Some Examples.candle1] Examples.atr2)
     <> ATR_push [Some Examples.candle1] Examples.atr2.
Proof.
  split; [done|]. split; [reflexivity|]. split; [reflexivity|].
  intros H. apply (f_equal (fun st => List.length (atr_base st))) in H.
  vm_compute in H. discriminate.
Qed.

End C3.

Module EMAFacts.
Import Indicator LoopFacts.

Lemma omap_as_number (fs : list float) : omap as_number (map VNum fs) = fs.
Proof. induction fs as [|x fs IH]; [done|]. cbn. by f_equal. Qed.

Lemma slice_map {A B} (f : A -> B) (s e : nat) (l : list A) :
  slice s e (map f l) = map f (slice s e l).
Proof. unfold slice. by rewrite <- fmap_drop, <- fmap_take. Qed.

(** On numbers, [MovingAverage.calc] is the sum from the left over the
    count. *)
Lemma MA_calc_numbers (fs : list float) :
  MA_calc (map VNum fs)
  = Some (foldl (fun a b => a + b) 0 fs / of_nat (List.length fs))%float.
Proof.
  unfold MA_calc. rewrite omap_as_number, length_map.
  by rewrite Nat.ltb_irrefl.
Qed.

Lemma lookup_number (fs : list float) (i : nat) :
  map VNum fs !! i ≫= as_number = fs !! i.
Proof. rewrite list_lookup_fmap. by destruct (fs !! i). Qed.

Lemma EMA_loop_period (xs : list value) (start n : nat) (st : Base) :
  period (loop (EMA_body xs) start n st) = period st.
Proof. revert start st. induction n as [|n IH]; intros start st; [done|]. simpl. by rewrite IH. Qed.

Lemma EMA_appends (xs : list value) :
  appends base (fun i st => EMA_value (period st) xs (base st) i) (EMA_body xs).
Proof. intros i st. done. Qed.

(** The cell at index [i] is the value the loop body computes from the
    input and the cells before it. *)
Lemma EMA_push_lookup (p : nat) (xs : list value) (i : nat) :
  i < List.length xs ->
  let out := base (EMA_push xs (mkBase p [])) in
  out !! i = Some (EMA_value p xs (take i out) i).
Proof.
  intros Hi out. subst out. unfold EMA_push, for_range. simpl.
  rewrite Nat.sub_0_r.
  rewrite (loop_fresh_lookup base _ (EMA_body xs) 0 (List.length xs) i (mkBase p [])
             (EMA_appends xs) eq_refl Hi).
  rewrite EMA_loop_period. simpl.
  by rewrite (loop_fresh_prefix base _ (EMA_body xs) 0 i (List.length xs) (mkBase p [])
                (EMA_appends xs) eq_refl) by lia.
Qed.

Lemma EMA_push_length (p : nat) (xs : list value) :
  List.length (base (EMA_push xs (mkBase p []))) = List.length xs.
Proof.
  unfold EMA_push, for_range. simpl. rewrite Nat.sub_0_r.
  by rewrite (loop_fresh_length base _ (EMA_body xs) 0 _ _ (EMA_appends xs)).
Qed.

Lemma MA_loop_period (xs : list value) (start n : nat) (st : Base) :
  period (loop (MA_body xs) start n st) = period st.
Proof. revert start st. induction n as [|n IH]; intros start st; [done|]. simpl. by rewrite IH. Qed.

Lemma MA_appends (xs : list value) :
  appends base (fun i st => MA_value (period st) xs i) (MA_body xs).
Proof. intros i st. done. Qed.

(** The cell of the Moving Average at index [i]. *)
Lemma MA_push_lookup (p : nat) (xs : list value) (i : nat) :
  i < List.length xs ->
  base (MA_push xs (mkBase p [])) !! i = Some (MA_value p xs i).
Proof.
  intros Hi. unfold MA_push, for_range. simpl. rewrite Nat.sub_0_r.
  rewrite (loop_fresh_lookup base _ (MA_body xs) 0 (List.length xs) i (mkBase p [])
             (MA_appends xs) eq_refl Hi).
  by rewrite MA_loop_period.
Qed.

Lemma MA_seed (p : nat) (fs : list float) :
  1 <= p -> p <= List.length fs ->
  base (MA_push (map VNum fs) (mkBase p [])) !! (p - 1)%nat
  = Some (Some (Spec.mean_first p fs)).
Proof.
  intros Hp Hn. rewrite MA_push_lookup by (rewrite length_map; lia).
  unfold MA_value. destruct (Nat.ltb_spec (p - 1 + 1) p); [lia|].
  rewrite slice_map, MA_calc_numbers. unfold slice, Spec.mean_first.
  replace (p - 1 + 1 - p)%nat with 0%nat by lia.
  replace (p - 1 + 1 - 0)%nat with p by lia.
  rewrite drop_0, length_take.
  by replace (p `min` List.length fs)%nat with p by lia.
Qed.

Lemma prev_number_take (arr : list cell) (i : nat) :
  prev_number (take i arr) i = prev_number arr i.
Proof.
  destruct i as [|j]; [done|]. simpl. by rewrite lookup_take_lt by lia.
Qed.

Section Numbers.
Variable p : nat.
Variable fs : list float.
Let out := base (EMA_push (map VNum fs) (mkBase p [])).

Lemma EMA_cell (i : nat) (x : float) :
  fs !! i = Some x ->
  out !! i = Some (if (i + 1 <? p)%nat then None
                   else if (i + 1 =? p)%nat then Some (Spec.mean_first p fs)
                   else EMA_calc (Some x) (prev_number out i) p).
Proof.
  intros Hx. assert (Hi : i < List.length fs) by (by eapply lookup_lt_Some).
  subst out. rewrite EMA_push_lookup by (by rewrite length_map).
  f_equal. unfold EMA_value. rewrite lookup_number, Hx. simpl.
  destruct (Nat.ltb_spec (i + 1) p); [done|].
  destruct (Nat.eqb_spec (i + 1) p) as [Heq|Hne].
  - rewrite slice_map, MA_calc_numbers. unfold slice, Spec.mean_first.
    replace (i + 1 - p)%nat with 0%nat by lia. simpl.
    rewrite Nat.sub_0_r, Heq, length_take, drop_0.
    by replace (p `min` List.length fs)%nat with p by lia.
  - by rewrite prev_number_take.
Qed.

Lemma EMA_defined (i : nat) :
  1 <= p -> p <= i + 1 -> i < List.length fs -> exists v, out !! i = Some (Some v).
Proof.
  intros Hp. induction i as [|i IH]; intros Hpi Hi.
  - destruct (lookup_lt_is_Some_2 fs 0 Hi) as [x Hx].
    rewrite (EMA_cell 0 x Hx). replace p with 1%nat by lia. simpl. eauto.
  - destruct (lookup_lt_is_Some_2 fs _ Hi) as [x Hx].
    rewrite (EMA_cell _ x Hx).
    destruct (Nat.ltb_spec (Datatypes.S i + 1) p); [lia|].
    destruct (Nat.eqb_spec (Datatypes.S i + 1) p); [eauto|].
    destruct IH as [v Hv]; [lia|lia|]. simpl. rewrite Hv. simpl. eauto.
Qed.

End Numbers.

(** C7: on an input of numbers and with a period of at least one, the EMA
    column has one cell per element; the cells before index [p - 1] are
    [null]; the cell at [p - 1] is the mean of the first [p] elements, the
    cell the Moving Average has there; and every cell from index [p] on is
    [(input[i] - output[i-1]) * alpha + output[i-1]] with
    [alpha = 2 / (p + 1)], the cell before it being a number. *)
Theorem EMA_recurrence (p : nat) (fs : list float) :
  1 <= p ->
  let out := base (EMA_push (map VNum fs) (mkBase p [])) in
  List.length out = List.length fs
  /\ (forall i, i + 1 < p -> i < List.length fs -> out !! i = Some None)
  /\ (p <= List.length fs ->
      out !! (p - 1)%nat = Some (Some (Spec.mean_first p fs))
      /\ out !! (p - 1)%nat = base (MA_push (map VNum fs) (mkBase p [])) !! (p - 1)%nat)
  /\ (forall i x, p <= i -> fs !! i = Some x ->
        exists prev,
          out !! (i - 1)%nat = Some (Some prev)
          /\ out !! i = Some (Some ((x - prev) * (2 / (of_nat p + 1)) + prev)%float)).
Proof.
  intros Hp out. subst out. split; [|split; [|split]].
  - by rewrite EMA_push_length, length_map.
  - intros i Hip Hi. destruct (lookup_lt_is_Some_2 fs i Hi) as [x Hx].
    rewrite (EMA_cell p fs i x Hx).
    by destruct (Nat.ltb_spec (i + 1) p); [|lia].
  - intros Hn. destruct (lookup_lt_is_Some_2 fs (p - 1)) as [x Hx]; [lia|].
    rewrite (MA_seed p fs Hp Hn), (EMA_cell p fs _ x Hx).
    destruct (Nat.ltb_spec (p - 1 + 1) p); [lia|].
    by destruct (Nat.eqb_spec (p - 1 + 1) p); [|lia].
  - intros i x Hpi Hx.
    assert (Hi : i < List.length fs) by (by eapply lookup_lt_Some).
    destruct (EMA_defined p fs (i - 1) Hp) as [prev Hprev]; [lia|lia|].
    exists prev. split; [done|].
    rewrite (EMA_cell p fs i x Hx).
    destruct (Nat.ltb_spec (i + 1) p); [lia|].
    destruct (Nat.eqb_spec (i + 1) p); [lia|].
    destruct i as [|j]; [lia|]. simpl in *. rewrite Nat.sub_0_r in Hprev.
    by rewrite Hprev.
Qed.

Lemma EMA_recurrence_witness :
  1 <= 2
  /\ base (EMA_push (map VNum [1; 2; 3; 2]%float) (mkBase 2 [])) !! 1%nat
     = Some (Some 1.5%float)
  /\ List.length (base (EMA_push (map VNum [1; 2; 3; 2]%float) (mkBase 2 []))) = 4%nat.
Proof.
  split; [lia|]. split; [reflexivity|].
  exact (proj1 (EMA_recurrence 2 [1; 2; 3; 2]%float ltac:(lia))).
Defined.

End EMAFacts.

Module RSIFacts.
Import Indicator LoopFacts EMAFacts.

Lemma RSI_appends_gain (xs : list value) : appends gain (RSI_gain_cell xs) (RSI_body xs).
Proof.
  intros i st. unfold RSI_body, RSI_gain_cell.
  by destruct (xs !! i ≫= as_number), (number_before xs i).
Qed.

Lemma RSI_appends_loss (xs : list value) : appends loss (RSI_loss_cell xs) (RSI_body xs).
Proof.
  intros i st. unfold RSI_body, RSI_loss_cell.
  by destruct (xs !! i ≫= as_number), (number_before xs i).
Qed.

Lemma RSI_appends_base (xs : list value) :
  appends rsi_base (RSI_base_cell xs) (RSI_body xs).
Proof.
  intros i st. unfold RSI_body, RSI_base_cell, RSI_gain_cell, RSI_loss_cell.
  destruct (xs !! i ≫= as_number), (number_before xs i); try done.
  simpl. rewrite length_app. simpl.
  by replace (List.length (gain st) + 1)%nat with (Datatypes.S (List.length (gain st))) by lia.
Qed.

Lemma RSI_loop_period (xs : list value) (start n : nat) (st : RSI) :
  rsi_period (loop (RSI_body xs) start n st) = rsi_period st.
Proof.
  revert start st. induction n as [|n IH]; intros start st; [done|].
  simpl. rewrite IH. unfold RSI_body.
  by destruct (xs !! start ≫= as_number), (number_before xs start).
Qed.

Section Numbers.
Variable p : nat.
Variable fs : list float.
Let st := RSI_push (map VNum fs) (mkRSI p [] [] []).

Lemma RSI_push_loop :
  st = loop (RSI_body (map VNum fs)) 0 (List.length fs) (mkRSI p [] [] []).
Proof. subst st. unfold RSI_push, for_range. simpl. by rewrite Nat.sub_0_r, length_map. Qed.

Lemma RSI_lengths :
  List.length (rsi_base st) = List.length fs
  /\ List.length (gain st) = List.length fs
  /\ List.length (loss st) = List.length fs.
Proof.
  rewrite RSI_push_loop. repeat split.
  - by rewrite (loop_fresh_length rsi_base _ _ 0 _ _ (RSI_appends_base _)).
  - by rewrite (loop_fresh_length gain _ _ 0 _ _ (RSI_appends_gain _)).
  - by rewrite (loop_fresh_length loss _ _ 0 _ _ (RSI_appends_loss _)).
Qed.

Lemma number_before_numbers (i : nat) :
  number_before (map VNum fs) (Datatypes.S i) = fs !! i.
Proof. simpl. apply lookup_number. Qed.

Lemma RSI_first_cells :
  fs <> [] -> rsi_base st !! 0%nat = Some None /\ gain st !! 0%nat = Some None
              /\ loss st !! 0%nat = Some None.
Proof.
  intros Hne. assert (Hi : 0 < List.length fs) by (destruct fs; [done|simpl; lia]).
  rewrite RSI_push_loop. repeat split.
  - rewrite (loop_fresh_lookup rsi_base _ _ 0 _ 0 (mkRSI p [] [] []) (RSI_appends_base _) eq_refl Hi).
    unfold RSI_base_cell, RSI_gain_cell. simpl. by destruct (_ ≫= _).
  - rewrite (loop_fresh_lookup gain _ _ 0 _ 0 (mkRSI p [] [] []) (RSI_appends_gain _) eq_refl Hi).
    unfold RSI_gain_cell. simpl. by destruct (_ ≫= _).
  - rewrite (loop_fresh_lookup loss _ _ 0 _ 0 (mkRSI p [] [] []) (RSI_appends_loss _) eq_refl Hi).
    unfold RSI_loss_cell. simpl. by destruct (_ ≫= _).
Qed.

Lemma RSI_gain_loss (i : nat) (x y : float) :
  fs !! i = Some x -> fs !! Datatypes.S i = Some y ->
  gain st !! Datatypes.S i = Some (Some (max2 (y - x) 0))
  /\ loss st !! Datatypes.S i = Some (Some (max2 (- (y - x)) 0)).
Proof.
  intros Hx Hy.
  assert (Hi : Datatypes.S i < List.length fs) by (by eapply lookup_lt_Some).
  rewrite RSI_push_loop. split.
  - rewrite (loop_fresh_lookup gain _ _ 0 _ (Datatypes.S i) (mkRSI p [] [] []) (RSI_appends_gain _) eq_refl Hi).
    unfold RSI_gain_cell. rewrite Nat.add_0_l, lookup_number, number_before_numbers, Hx, Hy.
    done.
  - rewrite (loop_fresh_lookup loss _ _ 0 _ (Datatypes.S i) (mkRSI p [] [] []) (RSI_appends_loss _) eq_refl Hi).
    unfold RSI_loss_cell. rewrite Nat.add_0_l, lookup_number, number_before_numbers, Hx, Hy.
    done.
Qed.

Lemma RSI_base_cell_numbers (i : nat) :
  1 <= i -> i < List.length fs ->
  rsi_base st !! i
  = Some (if (p <=? i + 1)%nat
          then Some (RSI_value p (take (i + 1) (gain st)) (take (i + 1) (loss st)))
          else None).
Proof.
  intros H1 Hi. destruct i as [|j]; [lia|].
  destruct (lookup_lt_is_Some_2 fs j) as [x Hx]; [lia|].
  destruct (lookup_lt_is_Some_2 fs (Datatypes.S j)) as [y Hy]; [lia|].
  destruct (RSI_gain_loss j x y Hx Hy) as [Hg Hl].
  destruct RSI_lengths as (_ & Hgl & Hll).
  replace (Datatypes.S j + 1)%nat with (Datatypes.S (Datatypes.S j)) by lia.
  rewrite (take_S_r _ _ _ Hg), (take_S_r _ _ _ Hl).
  rewrite RSI_push_loop in *.
  rewrite (loop_fresh_lookup rsi_base _ _ 0 _ (Datatypes.S j) (mkRSI p [] [] []) (RSI_appends_base _) eq_refl Hi).
  f_equal. unfold RSI_base_cell, RSI_gain_cell, RSI_loss_cell.
  rewrite Nat.add_0_l, lookup_number, number_before_numbers, Hx, Hy, RSI_loop_period.
  rewrite (loop_fresh_prefix gain _ _ 0 (Datatypes.S j) (List.length fs) (mkRSI p [] [] []) (RSI_appends_gain _) eq_refl)
    by lia.
  rewrite (loop_fresh_prefix loss _ _ 0 (Datatypes.S j) (List.length fs) (mkRSI p [] [] []) (RSI_appends_loss _) eq_refl)
    by lia.
  rewrite length_take.
  by replace (Datatypes.S j `min` _)%nat with (Datatypes.S j) by lia.
Qed.

End Numbers.

Lemma RSI_value_cases (p : nat) (gainArr lossArr : list cell) :
  let avgGain := (sum_cells (slice_last p gainArr) / of_nat p)%float in
  let avgLoss := (sum_cells (slice_last p lossArr) / of_nat p)%float in
  RSI_value p gainArr lossArr
  = if (avgLoss =? 0)%float then (100 - 100 / (1 + 100))%float
    else (100 - 100 / (1 + avgGain / avgLoss))%float.
Proof. intros avgGain avgLoss. unfold RSI_value. fold avgLoss. by destruct (avgLoss =? 0)%float. Qed.

(** C5, as the code has it: on an input of numbers, the gain and loss
    cells from index 1 on are [max(d, 0)] and [max(-d, 0)] for the
    difference [d] of consecutive elements, the cells at index 0 are [null];
    at every index [i >= 1] where the gain column has at least [p] cells the
    RSI cell is computed from the rolling means of the last [p] gain and
    loss cells (a [null] cell adding as 0): it is [100 - 100 / (1 + 100)]
    when the mean loss is 0, and [100 - 100 / (1 + avgGain / avgLoss)]
    otherwise. *)
Theorem RSI_rolling_mean (p : nat) (fs : list float) :
  let st := RSI_push (map VNum fs) (mkRSI p [] [] []) in
  (fs <> [] -> gain st !! 0%nat = Some None /\ loss st !! 0%nat = Some None)
  /\ (forall i x y, fs !! i = Some x -> fs !! Datatypes.S i = Some y ->
        gain st !! Datatypes.S i = Some (Some (max2 (y - x) 0))
        /\ loss st !! Datatypes.S i = Some (Some (max2 (- (y - x)) 0)))
  /\ (forall i, 1 <= i -> i < List.length fs -> p <= i + 1 ->
        let avgGain := (sum_cells (slice_last p (take (i + 1) (gain st))) / of_nat p)%float in
        let avgLoss := (sum_cells (slice_last p (take (i + 1) (loss st))) / of_nat p)%float in
        rsi_base st !! i
        = Some (Some (if (avgLoss =? 0)%float then (100 - 100 / (1 + 100))%float
                      else (100 - 100 / (1 + avgGain / avgLoss))%float))).
Proof.
  intros st. subst st. split; [|split].
  - intros Hne. by destruct (RSI_first_cells p fs Hne) as (_ & ? & ?).
  - apply RSI_gain_loss.
  - intros i H1 Hi Hp avgGain avgLoss.
    rewrite RSI_base_cell_numbers by done.
    destruct (Nat.leb_spec p (i + 1)); [|lia].
    by rewrite RSI_value_cases.
Qed.

(** C5 as stated fails: with period 2 on the input 1, 2, 3 the last two
    losses are 0, so the mean loss at index 2 is 0, and the RSI cell there
    is [100 - 100 / 101], not 100. *)
Lemma RSI_zero_loss_is_not_100 :
  loss (RSI_push [VNum 1; VNum 2; VNum 3] (mkRSI 2 [] [] []))
  = [None; Some 0%float; Some 0%float]
  /\ rsi_base (RSI_push [VNum 1; VNum 2; VNum 3] (mkRSI 2 [] [] [])) !! 2%nat
     = Some (Some (100 - 100 / 101)%float)
  /\ rsi_base (RSI_push [VNum 1; VNum 2; VNum 3] (mkRSI 2 [] [] [])) !! 2%nat
     <> Some (Some 100%float).
Proof.
  split; [reflexivity|]. split; [reflexivity|].
  intros H.
  apply (f_equal (fun c => match c with
                           | Some (Some x) => (x <? 100)%float
                           | _ => false
                           end)) in H.
  vm_compute in H. discriminate.
Qed.

End RSIFacts.

Module ATRFacts.
Import Indicator DeltaFacts.

Lemma ATR_body_range (c : PriceObject) (st : ATR) :
  range (ATR_body c st)
  = range st ++ [Spec.true_range c (default (Spec.hl2 c) (prevClose st))]
  /\ prevClose (ATR_body c st) = Some (Spec.close_of c)
  /\ atr_period (ATR_body c st) = atr_period st.
Proof. done. Qed.

Lemma ATR_push_range (cs : list PriceObject) (st : ATR) :
  range (ATR_push (map Some cs) st) = range st ++ Spec.true_ranges (prevClose st) cs
  /\ atr_period (ATR_push (map Some cs) st) = atr_period st.
Proof.
  revert st. induction cs as [|c cs IH]; intros st.
  - simpl. by rewrite app_nil_r.
  - simpl map. rewrite ATR_push_cons.
    destruct (IH (ATR_body c st)) as [H1 H2].
    rewrite H1, H2. destruct (ATR_body_range c st) as (R1 & R2 & R3).
    rewrite R1, R2, R3. simpl. by rewrite <- app_assoc.
Qed.

Lemma last_number_lookup (arr : list float) (a : float) :
  arr !! (List.length arr - 1)%nat = Some a -> arr <> [] -> last_number arr = a.
Proof.
  intros Ha Hne. unfold last_number. rewrite last_lookup.
  replace (Nat.pred (List.length arr)) with (List.length arr - 1)%nat by lia.
  by rewrite Ha.
Qed.

Section Fresh.
Variable p : nat.
Let fresh := mkATR p [] [] None.

(** The ATR cell the loop body appends when the columns hold the rows of
    [cs] and the bar [c] arrives. *)
Lemma ATR_push_snoc_base (cs : list PriceObject) (c : PriceObject) :
  let st := ATR_push (map Some cs) fresh in
  let trs := Spec.true_ranges None (cs ++ [c]) in
  let i := List.length cs in
  atr_base (ATR_push (map Some (cs ++ [c])) fresh)
  = atr_base st
    ++ [if (i + 1 <? p)%nat then nan
        else if (i + 1 =? p)%nat then Spec.mean_first p trs
        else ((last_number (atr_base st) * (of_nat p - 1) + default nan (trs !! i))
              / of_nat p)%float].
Proof.
  intros st trs i. subst st trs i.
  rewrite map_app. simpl map. rewrite ATR_push_snoc.
  destruct (ATR_push_range cs fresh) as [Hr Hp]. simpl in Hr.
  destruct (ATR_push_range (cs ++ [c]) fresh) as [Hr' _]. simpl in Hr'.
  rewrite map_app in Hr'. simpl map in Hr'. rewrite ATR_push_snoc in Hr'.
  destruct (ATR_body_range c (ATR_push (map Some cs) fresh)) as (R1 & _ & _).
  rewrite R1, Hr in Hr'.
  assert (Hlen : List.length (Spec.true_ranges None cs) = List.length cs).
  { rewrite <- Hr. destruct (ATR_push_rows cs fresh) as [_ H]. by rewrite H. }
  unfold ATR_body at 1. simpl atr_base.
  fold (Spec.hl2 c). fold (Spec.true_range c (default (Spec.hl2 c)
                                               (prevClose (ATR_push (map Some cs) fresh)))).
  rewrite Hp, Hr. simpl atr_period.
  rewrite length_app, Hlen. simpl List.length.
  rewrite Hr'. f_equal. f_equal.
  destruct (Nat.ltb_spec (List.length cs + 1) p); [done|].
  destruct (Nat.eqb_spec (List.length cs + 1) p); [|].
  - unfold Spec.mean_first, slice. by rewrite drop_0, Nat.sub_0_r.
  - rewrite <- Hr'. rewrite lookup_app_r by lia. rewrite Hlen, Nat.sub_diag. done.
Qed.

Lemma ATR_cells (cs : list PriceObject) :
  let out := atr_base (ATR_push (map Some cs) fresh) in
  let trs := Spec.true_ranges None cs in
  List.length out = List.length cs
  /\ List.length trs = List.length cs
  /\ (forall i, i < List.length cs -> i + 1 < p -> out !! i = Some nan)
  /\ (forall i, i < List.length cs -> i + 1 = p -> out !! i = Some (Spec.mean_first p trs))
  /\ (forall i a tr, p <= i + 1 -> out !! i = Some a -> trs !! Datatypes.S i = Some tr ->
        out !! Datatypes.S i = Some ((a * (of_nat p - 1) + tr) / of_nat p)%float).
Proof.
  induction cs as [|c cs IH] using rev_ind.
  - simpl. repeat split; try done; intros; lia.
  - cbv zeta in *. destruct IH as (Hlo & Hlt & H1 & H2 & H3).
    rewrite ATR_push_snoc_base.
    assert (Htr : exists tr, Spec.true_ranges None (cs ++ [c])
                             = Spec.true_ranges None cs ++ [tr]).
    { destruct (ATR_push_range (cs ++ [c]) fresh) as [Hr' _]. simpl in Hr'.
      rewrite map_app in Hr'. simpl map in Hr'. rewrite ATR_push_snoc in Hr'.
      destruct (ATR_body_range c (ATR_push (map Some cs) fresh)) as (R1 & _ & _).
      destruct (ATR_push_range cs fresh) as [Hr _]. simpl in Hr.
      rewrite R1, Hr in Hr'. eauto. }
    destruct Htr as [tr Htr]. rewrite Htr.
    rewrite !length_app. simpl List.length.
    split; [lia|]. split; [lia|]. split; [|split].
    + intros i Hi Hip. destruct (decide (i < List.length cs)) as [Hlt'|Hge].
      * rewrite lookup_app_l by lia. by apply H1.
      * assert (i = List.length cs) as -> by lia.
        rewrite lookup_app_r by lia. rewrite Hlo, Nat.sub_diag. simpl.
        by destruct (Nat.ltb_spec (List.length cs + 1) p); [|lia].
    + intros i Hi Hip. destruct (decide (i < List.length cs)) as [Hlt'|Hge].
      * rewrite lookup_app_l by lia. rewrite (H2 i) by done.
        unfold Spec.mean_first. by rewrite take_app_le by lia.
      * assert (i = List.length cs) as -> by lia.
        rewrite lookup_app_r by lia. rewrite Hlo, Nat.sub_diag. simpl.
        destruct (Nat.ltb_spec (List.length cs + 1) p); [lia|].
        by destruct (Nat.eqb_spec (List.length cs + 1) p); [|lia].
    + intros i a tr' Hpi Ha Htr'.
      assert (Hi : Datatypes.S i < List.length cs + 1) by (apply lookup_lt_Some in Htr';
        rewrite length_app in Htr'; simpl in Htr'; lia).
      destruct (decide (Datatypes.S i < List.length cs)) as [Hlt'|Hge].
      * rewrite lookup_app_l in Ha by lia. rewrite lookup_app_l in Htr' by lia.
        rewrite lookup_app_l by lia. by apply H3.
      * assert (Datatypes.S i = List.length cs) as Heq by lia.
        assert (E1 : (List.length cs + 1 <? p)%nat = false) by (apply Nat.ltb_ge; lia).
        assert (E2 : (List.length cs + 1 =? p)%nat = false) by (apply Nat.eqb_neq; lia).
        rewrite lookup_app_l in Ha by lia.
        rewrite E1, E2. rewrite Heq in Htr'. rewrite Htr'.
        rewrite lookup_app_r by lia. rewrite Hlo, Heq, Nat.sub_diag.
        assert (Hlast : last_number (atr_base (ATR_push (map Some cs) fresh)) = a).
        { apply last_number_lookup.
          - rewrite Hlo, <- Heq. simpl. by rewrite Nat.sub_0_r.
          - intros Hnil. rewrite Hnil in Ha. done. }
        rewrite Hlast. done.
Qed.

End Fresh.

(** C6: on a run of price objects fed to an ATR with empty columns and no
    previous close, the [range] column holds the true ranges
    [max(high - low, |high - prevClose|, |low - prevClose|)] with the first
    bar's [hl2] as its previous close; the ATR cell is NaN while fewer than
    [p] true ranges exist, the mean of the first [p] true ranges at the
    [p]-th bar, and [(ATR[i-1] * (p - 1) + TR[i]) / p] after it; and the
    three candles of the scenario give [NaN, 2, 2] with period 2. *)
Theorem ATR_wilder (p : nat) (cs : list PriceObject) :
  let st := ATR_push (map Some cs) (mkATR p [] [] None) in
  let trs := Spec.true_ranges None cs in
  range st = trs
  /\ List.length (atr_base st) = List.length cs
  /\ (forall i, i < List.length cs -> i + 1 < p -> atr_base st !! i = Some nan)
  /\ (forall i, i < List.length cs -> i + 1 = p ->
        atr_base st !! i = Some (Spec.mean_first p trs))
  /\ (forall i a tr, p <= i + 1 -> atr_base st !! i = Some a -> trs !! Datatypes.S i = Some tr ->
        atr_base st !! Datatypes.S i = Some ((a * (of_nat p - 1) + tr) / of_nat p)%float)
  /\ atr_base (ATR_push [Some Examples.candle1; Some Examples.candle2; Some Examples.candle3]
                        Examples.atr2)
     = [nan; 2%float; 2%float].
Proof.
  intros st trs. subst st trs.
  destruct (ATR_push_range cs (mkATR p [] [] None)) as [Hr _].
  destruct (ATR_cells p cs) as (H0 & _ & H1 & H2 & H3).
  split; [exact Hr|]. split; [exact H0|]. split; [exact H1|]. split; [exact H2|].
  split; [exact H3|]. reflexivity.
Qed.

End ATRFacts.

Module SuperTrendFacts.
Import Indicator DeltaFacts.

(** While the ATR is not finite the bands are NaN, the trend is [null] and
    the loop variables stay as they are. *)
Lemma ST_body_undefined (price : PriceObject) (st : SuperTrend) (loc : ST_locals) :
  is_finite (atr_after price st) = false ->
  let r := ST_body price (st, loc) in
  upper r.1 = upper st ++ [nan]
  /\ lower r.1 = lower st ++ [nan]
  /\ trend r.1 = trend st ++ [None]
  /\ r.2 = loc.
Proof. intros Hf. unfold ST_body. fold (atr_after price st). by rewrite Hf. Qed.

(** With a finite ATR and no previous trend and bands, the trend is 1 and
    the bands are [hl2 + m * ATR] and [hl2 - m * ATR]. *)
Lemma ST_body_first (price : PriceObject) (st : SuperTrend) :
  is_finite (atr_after price st) = true ->
  let r := ST_body price (st, mkLocals None None None) in
  upper r.1 = upper st ++ [(Spec.hl2 price + multiplier st * atr_after price st)%float]
  /\ lower r.1 = lower st ++ [(Spec.hl2 price - multiplier st * atr_after price st)%float]
  /\ trend r.1 = trend st ++ [Some 1%Z].
Proof. intros Hf. unfold ST_body. fold (atr_after price st). by rewrite Hf. Qed.

(** With a finite ATR and previous bands, the published upper band is the
    minimum of the new and the previous one when the trend is 1, and the
    published lower band the maximum of the new and the previous one when
    the trend is -1; the other band is the new one. *)
Lemma ST_body_ratchet (price : PriceObject) (st : SuperTrend) (loc : ST_locals)
    (pu pl : float) :
  is_finite (atr_after price st) = true ->
  prevUpper loc = Some pu -> prevLower loc = Some pl ->
  let r := ST_body price (st, loc) in
  let t := next_trend (Spec.close_of price) loc in
  let upperBand := (Spec.hl2 price + multiplier st * atr_after price st)%float in
  let lowerBand := (Spec.hl2 price - multiplier st * atr_after price st)%float in
  trend r.1 = trend st ++ [Some t]
  /\ upper r.1 = upper st ++ [if (t =? 1)%Z then min2 upperBand pu else upperBand]
  /\ lower r.1 = lower st ++ [if (t =? -1)%Z then max2 lowerBand pl else lowerBand]
  /\ prevTrend r.2 = Some t
  /\ prevUpper r.2 = Some (if (t =? 1)%Z then min2 upperBand pu else upperBand)
  /\ prevLower r.2 = Some (if (t =? -1)%Z then max2 lowerBand pl else lowerBand).
Proof.
  intros Hf Hu Hl. unfold ST_body, next_trend. fold (atr_after price st).
  rewrite Hf, Hu, Hl. repeat split; reflexivity.
Qed.

(** In one call on a state with empty columns, the bars before the first
    finite ATR leave the loop variables undefined, so the first bar with a
    finite ATR publishes trend 1 and the two bands as computed. *)
Lemma ST_loop_undefined (cs : list PriceObject) (st : SuperTrend) (loc : ST_locals) :
  (forall pre c post, cs = pre ++ c :: post ->
     is_finite (atr_after c (ST_loop (map Some pre) (st, loc)).1) = false) ->
  (ST_loop (map Some cs) (st, loc)).2 = loc.
Proof.
  induction cs as [|c cs IH] using rev_ind; intros Hall; [done|].
  rewrite map_app. unfold ST_loop. rewrite foldl_app. simpl.
  fold (ST_loop (map Some cs) (st, loc)).
  assert (Hloc : (ST_loop (map Some cs) (st, loc)).2 = loc).
  { apply IH. intros pre c' post ->. apply (Hall pre c' (post ++ [c])).
    by rewrite <- app_assoc. }
  destruct (ST_loop (map Some cs) (st, loc)) as [st' loc'] eqn:E. simpl in Hloc. subst loc'.
  apply ST_body_undefined. specialize (Hall cs c [] eq_refl). by rewrite E in Hall.
Qed.

Lemma ST_body_extends (price : PriceObject) (sl : SuperTrend * ST_locals) :
  upper sl.1 `prefix_of` upper (ST_body price sl).1
  /\ lower sl.1 `prefix_of` lower (ST_body price sl).1
  /\ trend sl.1 `prefix_of` trend (ST_body price sl).1
  /\ multiplier (ST_body price sl).1 = multiplier sl.1.
Proof.
  destruct sl as [st loc]. unfold ST_body.
  destruct (negb _); simpl; repeat split; by apply prefix_app_r.
Qed.

Lemma ST_loop_extends (cs : list (option PriceObject)) (sl : SuperTrend * ST_locals) :
  upper sl.1 `prefix_of` upper (ST_loop cs sl).1
  /\ lower sl.1 `prefix_of` lower (ST_loop cs sl).1
  /\ trend sl.1 `prefix_of` trend (ST_loop cs sl).1
  /\ multiplier (ST_loop cs sl).1 = multiplier sl.1.
Proof.
  revert sl. induction cs as [|[c|] cs IH]; intros sl; [done| |apply IH].
  destruct (IH (ST_body c sl)) as (H1 & H2 & H3 & H4).
  destruct (ST_body_extends c sl) as (B1 & B2 & B3 & B4).
  unfold ST_loop in *. simpl.
  split; [by etrans|]. split; [by etrans|]. split; [by etrans|]. congruence.
Qed.

Lemma ST_loop_app (xs ys : list (option PriceObject)) (sl : SuperTrend * ST_locals) :
  ST_loop (xs ++ ys) sl = ST_loop ys (ST_loop xs sl).
Proof. unfold ST_loop. by rewrite foldl_app. Qed.

Lemma ST_loop_cons (c : PriceObject) (ys : list (option PriceObject))
    (sl : SuperTrend * ST_locals) :
  ST_loop (Some c :: ys) sl = ST_loop ys (ST_body c sl).
Proof. done. Qed.

Lemma ST_push_first_band (pre post : list PriceObject) (c : PriceObject) (st : SuperTrend) :
  upper st = [] -> lower st = [] -> trend st = [] ->
  (forall pre' c' post', pre = pre' ++ c' :: post' ->
     is_finite (atr_after c' (ST_push (map Some pre') st)) = false) ->
  is_finite (atr_after c (ST_push (map Some pre) st)) = true ->
  let st' := ST_push (map Some (pre ++ c :: post)) st in
  let atr := atr_after c (ST_push (map Some pre) st) in
  trend st' !! List.length pre = Some (Some 1%Z)
  /\ upper st' !! List.length pre = Some (Spec.hl2 c + multiplier st * atr)%float
  /\ lower st' !! List.length pre = Some (Spec.hl2 c - multiplier st * atr)%float.
Proof.
  intros Hu Hl Ht Hpre Hc st' atr. subst st' atr.
  unfold ST_push in *. rewrite Hu, Hl, Ht in *. simpl last in *. simpl mjoin in *.
  set (loc0 := {| prevUpper := None; prevLower := None; prevTrend := None |}) in *.
  fold (ST_loop (map Some (pre ++ c :: post)) (st, loc0)).
  fold (ST_loop (map Some pre) (st, loc0)) in Hc |- *.
  assert (Hloc : (ST_loop (map Some pre) (st, loc0)).2 = loc0).
  { apply ST_loop_undefined. intros pre' c' post' E. apply (Hpre pre' c' post' E). }
  destruct (ST_loop_rows pre (st, loc0)) as (R1 & R2 & R3 & _).
  destruct (ST_loop_extends (map Some pre) (st, loc0)) as (_ & _ & _ & Hm).
  simpl in R1, R2, R3, Hm. rewrite Hu in R1. rewrite Hl in R2. rewrite Ht in R3.
  simpl in R1, R2, R3.
  rewrite map_app. simpl map. rewrite ST_loop_app, ST_loop_cons.
  destruct (ST_loop (map Some pre) (st, loc0)) as [st1 loc1] eqn:E.
  simpl in Hloc, R1, R2, R3, Hm, Hc. subst loc1.
  destruct (ST_body_first c st1 Hc) as (F1 & F2 & F3). cbv zeta in F1, F2, F3.
  fold loc0 in F1, F2, F3.
  destruct (ST_loop_extends (map Some post) (ST_body c (st1, loc0))) as ([u Eu] & [l El] & [t Et] & _).
  rewrite Eu, El, Et, F1, F2, F3, Hm.
  split; [|split].
  - rewrite <- R3, <- app_assoc. by apply list_lookup_middle.
  - rewrite <- R1, <- app_assoc. by apply list_lookup_middle.
  - rewrite <- R2, <- app_assoc. by apply list_lookup_middle.
Qed.

End SuperTrendFacts.

Module C4.
Import Indicator SuperTrendFacts.

(** C4 (the code misses a case): when the bars before the first finite ATR
    were pushed by an earlier call, [prevUpper] starts as the NaN published
    for them and not as [undefined], so the first band with a finite ATR is
    [Math.min(upperBand, NaN)]. With period 2 and multiplier 3, pushing
    [{h: 10, l: 8, c: 9}] and then [{h: 11, l: 9, c: 10}] in a second call
    gives ATR 2 and trend 1 at index 1 but the upper band NaN, where
    [hl2 + m * ATR] is 16; the same two bars in one call give 16. *)
Theorem SuperTrend_first_band_after_earlier_call :
  let st1 := ST_push [Some Examples.candle1] Examples.supertrend2 in
  let st2 := ST_push [Some Examples.candle2] st1 in
  atr_base (st_atr st2) = [nan; 2%float]
  /\ trend st2 = [None; Some 1%Z]
  /\ upper st2 = [nan; nan]
  /\ lower st2 = [nan; 4%float]
  /\ (Spec.hl2 Examples.candle2 + 3 * 2 = 16)%float
  /\ upper (ST_push [Some Examples.candle1; Some Examples.candle2] Examples.supertrend2)
     = [nan; 16%float].
Proof. cbv zeta. repeat split; reflexivity. Qed.

End C4.

Module ScenarioFacts.
Import Indicator Scenario FloatFacts.

Lemma or_zero_idem (x : option float) : or_zero (Some (or_zero x)) = or_zero x.
Proof.
  destruct x as [v|]; [|reflexivity]. simpl.
  destruct (is_nan v || (v =? 0)%float) eqn:E; [reflexivity|]. by rewrite E.
Qed.

Lemma normalize_lookup (sym1 sym2 s : string) (w : gmap string float) :
  normalize sym1 sym2 w !! s
  = if decide (s = sym1 \/ s = sym2) then Some (balance w s) else w !! s.
Proof.
  unfold normalize, balance.
  destruct (decide (s = sym2)) as [->|Hn2].
  - rewrite lookup_insert_eq. rewrite decide_True by auto.
    destruct (decide (sym1 = sym2)) as [->|Hn1].
    + by rewrite lookup_insert_eq, or_zero_idem.
    + by rewrite lookup_insert_ne.
  - rewrite lookup_insert_ne by done.
    destruct (decide (s = sym1)) as [->|Hn1].
    + rewrite lookup_insert_eq. by rewrite decide_True by auto.
    + rewrite lookup_insert_ne by done. by rewrite decide_False by tauto.
Qed.

Lemma balance_normalize (sym1 sym2 s : string) (w : gmap string float) :
  balance (normalize sym1 sym2 w) s = balance w s.
Proof.
  unfold balance at 1. rewrite normalize_lookup.
  destruct (decide _); [|done]. apply or_zero_idem.
Qed.

Lemma number_at_normalize_1 (sym1 sym2 : string) (w : gmap string float) :
  number_at (normalize sym1 sym2 w) sym1 = balance w sym1.
Proof. unfold number_at. rewrite normalize_lookup. by rewrite decide_True by auto. Qed.

Lemma number_at_normalize_2 (sym1 sym2 : string) (w : gmap string float) :
  number_at (normalize sym1 sym2 w) sym2 = balance w sym2.
Proof. unfold number_at. rewrite normalize_lookup. by rewrite decide_True by auto. Qed.

(** The two branches of the callback on the normalised wallet. *)
Lemma order_buy (price : PriceObject) (sym1 sym2 : string) (value : float)
    (w : gmap string float) :
  (value <=? 0)%float = false ->
  let wn := normalize sym1 sym2 w in
  let amount := (value / ((high price + default nan (close price)) / 2))%float in
  order price sym1 sym2 "buy" value w
  = if (value <=? balance w sym2)%float
    then <[sym1 := (number_at (<[sym2 := (balance w sym2 - value)%float]> wn) sym1
                    + amount)%float]>
           (<[sym2 := (balance w sym2 - value)%float]> wn)
    else wn.
Proof.
  intros Hv wn amount. unfold order. rewrite Hv. simpl String.eqb.
  fold (normalize sym1 sym2 w). fold wn. subst wn.
  by rewrite number_at_normalize_2.
Qed.

Lemma order_sell (price : PriceObject) (sym1 sym2 : string) (value : float)
    (w : gmap string float) :
  (value <=? 0)%float = false ->
  let wn := normalize sym1 sym2 w in
  let quantity := (value / ((low price + default nan (close price)) / 2))%float in
  order price sym1 sym2 "sell" value w
  = if (quantity <=? balance w sym1)%float
    then <[sym2 := (number_at (<[sym1 := (balance w sym1 - quantity)%float]> wn) sym2
                    + value)%float]>
           (<[sym1 := (balance w sym1 - quantity)%float]> wn)
    else wn.
Proof.
  intros Hv wn quantity. unfold order. rewrite Hv. simpl String.eqb.
  fold (normalize sym1 sym2 w). fold wn. subst wn.
  by rewrite number_at_normalize_1.
Qed.

(** C8, as the code has it: an order with an amount [<= 0] changes
    nothing.  A buy for more than the balance of [sym2], and a sell whose
    quantity exceeds the balance of [sym1], transfer nothing, but they are
    no silent no-op: the two assignments [wallet[sym] = wallet[sym] || 0]
    have run before the guard, so the wallet that is left is the normalised
    one, in which a missing entry of [sym1] or [sym2] has been created as
    [0] and an entry that was [NaN] or [-0] has become [0]; every balance
    as the callback reads it, [wallet[sym] || 0], and every entry of
    another symbol as it was stored, is as before.  An accepted buy takes
    the amount from [sym2] and adds [amount / ((high + close) / 2)] to
    [sym1]; an accepted sell takes [amount / ((low + close) / 2)] from
    [sym1] and adds the amount to [sym2]; no other entry of the wallet
    changes. *)
Theorem order_guards_and_transfers (price : PriceObject) (sym1 sym2 : string)
    (value : float) (w : gmap string float) :
  let close := default nan (close price) in
  let amount := (value / ((high price + close) / 2))%float in
  let quantity := (value / ((low price + close) / 2))%float in
  let bought := order price sym1 sym2 "buy" value w in
  let sold := order price sym1 sym2 "sell" value w in
  (forall side, (value <=? 0)%float = true -> order price sym1 sym2 side value w = w)
  /\ ((balance w sym2 <? value)%float = true ->
      ((value <=? 0)%float = false -> bought = normalize sym1 sym2 w)
      /\ (forall s, balance bought s = balance w s)
      /\ (forall s, s <> sym1 -> s <> sym2 -> bought !! s = w !! s))
  /\ ((balance w sym1 <? quantity)%float = true ->
      ((value <=? 0)%float = false -> sold = normalize sym1 sym2 w)
      /\ (forall s, balance sold s = balance w s)
      /\ (forall s, s <> sym1 -> s <> sym2 -> sold !! s = w !! s))
  /\ ((value <=? 0)%float = false -> (value <=? balance w sym2)%float = true ->
      (sym1 <> sym2 ->
         bought !! sym2 = Some (balance w sym2 - value)%float
         /\ bought !! sym1 = Some (balance w sym1 + amount)%float)
      /\ (sym1 = sym2 -> bought !! sym1 = Some (balance w sym1 - value + amount)%float)
      /\ (forall s, s <> sym1 -> s <> sym2 -> bought !! s = w !! s))
  /\ ((value <=? 0)%float = false -> (quantity <=? balance w sym1)%float = true ->
      (sym1 <> sym2 ->
         sold !! sym1 = Some (balance w sym1 - quantity)%float
         /\ sold !! sym2 = Some (balance w sym2 + value)%float)
      /\ (sym1 = sym2 -> sold !! sym1 = Some (balance w sym1 - quantity + value)%float)
      /\ (forall s, s <> sym1 -> s <> sym2 -> sold !! s = w !! s)).
Proof.
  intros close amount quantity bought sold. subst bought sold.
  split; [|split; [|split; [|split]]].
  - intros side Hv. unfold order. by rewrite Hv.
  - intros Hlt. destruct (value <=? 0)%float eqn:Hv.
    + unfold order. by rewrite Hv.
    + rewrite order_buy by done. rewrite (ltb_not_geb _ _ Hlt).
      split; [done|]. split.
      * intros s. apply balance_normalize.
      * intros s H1 H2. rewrite normalize_lookup. by rewrite decide_False by tauto.
  - intros Hlt. destruct (value <=? 0)%float eqn:Hv.
    + unfold order. by rewrite Hv.
    + rewrite order_sell by done. fold close. fold quantity.
      rewrite (ltb_not_geb _ _ Hlt).
      split; [done|]. split.
      * intros s. apply balance_normalize.
      * intros s H1 H2. rewrite normalize_lookup. by rewrite decide_False by tauto.
  - intros Hv Hge. rewrite order_buy by done. rewrite Hge. fold close. fold amount.
    split; [|split].
    + intros Hne. split.
      * rewrite lookup_insert_ne by done. by rewrite lookup_insert_eq.
      * rewrite lookup_insert_eq. unfold number_at at 1.
        rewrite lookup_insert_ne by done.
        fold (number_at (normalize sym1 sym2 w) sym1).
        by rewrite number_at_normalize_1.
    + intros ->. rewrite lookup_insert_eq. unfold number_at at 1.
      by rewrite lookup_insert_eq.
    + intros s H1 H2. rewrite !lookup_insert_ne by done.
      rewrite normalize_lookup. by rewrite decide_False by tauto.
  - intros Hv Hge. rewrite order_sell by done. fold close. fold quantity. rewrite Hge.
    split; [|split].
    + intros Hne. split.
      * rewrite lookup_insert_ne by done. by rewrite lookup_insert_eq.
      * rewrite lookup_insert_eq. unfold number_at at 1.
        rewrite lookup_insert_ne by done.
        fold (number_at (normalize sym1 sym2 w) sym2).
        by rewrite number_at_normalize_2.
    + intros ->. rewrite lookup_insert_eq. unfold number_at at 1.
      by rewrite lookup_insert_eq.
    + intros s H1 H2. rewrite !lookup_insert_ne by done.
      rewrite normalize_lookup. by rewrite decide_False by tauto.
Qed.

(** C9: [start] on a scenario whose [api] is [null] (a fresh scenario, or
    one on which [setAPI] was called with a value that is no function)
    throws 'API not set' and issues no request and runs no replay step;
    after [setAPI] with a function it does not throw and goes on to the
    requests and the replay. *)
Theorem start_needs_data_source (invertPriceData : list obj -> list PriceObject) :
  start invertPriceData create = inl "API not set"
  /\ (forall v sc, start invertPriceData (setAPI (ApiOther v) sc) = inl "API not set")
  /\ (forall sc, api sc = None -> start invertPriceData sc = inl "API not set")
  /\ (forall f sc, exists events,
        start invertPriceData (setAPI (ApiFunction f) sc) = inr events)
  /\ (forall f sc, api sc = Some f -> exists events, start invertPriceData sc = inr events).
Proof.
  split; [reflexivity|]. split; [reflexivity|]. split; [|split].
  - intros sc Hsc. unfold start. by rewrite Hsc.
  - intros f sc. unfold start. simpl. eauto.
  - intros f sc Hsc. unfold start. rewrite Hsc. eauto.
Qed.

End ScenarioFacts.

Module LedgerFacts.
Import Indicator Scenario FloatFacts ScenarioFacts.

Lemma or_zero_nonneg (x : option float) :
  (forall v, x = Some v -> (0 <=? v)%float = true) -> (0 <=? or_zero x)%float = true.
Proof.
  intros Hx. destruct x as [v|]; [|reflexivity]. simpl.
  destruct (is_nan v || (v =? 0)%float); [reflexivity|]. by apply Hx.
Qed.

Lemma balance_nonneg (w : gmap string float) (s : string) :
  nonneg w -> (0 <=? balance w s)%float = true.
Proof. intros Hw. apply or_zero_nonneg. intros v Hv. by apply (Hw s v). Qed.

Lemma nonneg_insert (w : gmap string float) (s : string) (b : float) :
  nonneg w -> (0 <=? b)%float = true -> nonneg (<[s := b]> w).
Proof. intros Hw Hb. by apply map_Forall_insert_2. Qed.

Lemma nonneg_normalize (sym1 sym2 : string) (w : gmap string float) :
  nonneg w -> nonneg (normalize sym1 sym2 w).
Proof.
  intros Hw. unfold normalize.
  assert (H1 : nonneg (<[sym1 := or_zero (w !! sym1)]> w)).
  { apply nonneg_insert; [done|]. by apply balance_nonneg. }
  apply nonneg_insert; [done|]. by apply (balance_nonneg _ sym2).
Qed.

Lemma number_at_nonneg (w : gmap string float) (s : string) :
  nonneg w -> is_Some (w !! s) -> (0 <=? number_at w s)%float = true.
Proof. intros Hw [b Hb]. unfold number_at. rewrite Hb. simpl. by apply (Hw s b). Qed.

Lemma normalize_has_1 (sym1 sym2 : string) (w : gmap string float) :
  is_Some (normalize sym1 sym2 w !! sym1).
Proof. rewrite normalize_lookup. rewrite decide_True by auto. eauto. Qed.

Lemma normalize_has_2 (sym1 sym2 : string) (w : gmap string float) :
  is_Some (normalize sym1 sym2 w !! sym2).
Proof. rewrite normalize_lookup. rewrite decide_True by auto. eauto. Qed.

Lemma insert_has (w : gmap string float) (s k : string) (b : float) :
  is_Some (w !! s) -> is_Some (<[k := b]> w !! s).
Proof.
  intros Hs. destruct (decide (k = s)) as [->|Hne].
  - rewrite lookup_insert_eq. eauto.
  - by rewrite lookup_insert_ne.
Qed.

Lemma order_other (price : PriceObject) (sym1 sym2 side : string) (value : float)
    (w : gmap string float) :
  (value <=? 0)%float = false -> side <> "buy" -> side <> "sell" ->
  order price sym1 sym2 side value w = normalize sym1 sym2 w.
Proof.
  intros Hv Hb Hs. unfold order. rewrite Hv.
  apply String.eqb_neq in Hb. apply String.eqb_neq in Hs. by rewrite Hb, Hs.
Qed.

(** One call keeps the balances [>= 0]. *)
Lemma order_call_nonneg (w : gmap string float) (c : call) :
  nonneg w -> prices_positive c -> amounts_not_infinite c -> nonneg (order_call w c).
Proof.
  intros Hw [Hpb Hps] [Hvi Hqi]. unfold order_call.
  destruct c as [price sym1 sym2 side value]. simpl in *.
  destruct (value <=? 0)%float eqn:Hv; [unfold order; by rewrite Hv|].
  pose proof (nonneg_normalize sym1 sym2 w Hw) as Hn.
  destruct (decide (side = "buy")) as [->|Hnb].
  - rewrite order_buy by done.
    destruct (value <=? balance w sym2)%float eqn:Hg; [|done].
    assert (Hpos : (0 <? value)%float = true).
    { apply pos_of_not_le_zero; [done|]. by eapply leb_not_nan. }
    assert (Hd : nonneg (<[sym2 := (balance w sym2 - value)%float]> (normalize sym1 sym2 w))).
    { apply nonneg_insert; [done|].
      apply sub_nonneg; [by apply balance_nonneg|by apply pos_nonneg|done|by apply Hvi]. }
    apply nonneg_insert; [done|]. apply add_nonneg.
    + apply number_at_nonneg; [done|]. apply insert_has, normalize_has_1.
    + apply div_nonneg; [done|done|by apply Hvi].
  - destruct (decide (side = "sell")) as [->|Hns].
    + rewrite order_sell by done.
      set (quantity := (value / ((low price + default nan (close price)) / 2))%float) in *.
      destruct (quantity <=? balance w sym1)%float eqn:Hg; [|done].
      assert (Hpos : (0 <? value)%float = true).
      { apply pos_of_not_le_zero; [done|].
        apply (div_not_nan value ((low price + default nan (close price)) / 2)).
        by eapply leb_not_nan. }
      assert (Hq : (0 <=? quantity)%float = true).
      { apply div_nonneg_or_nan; [done|done|]. by eapply leb_not_nan. }
      assert (Hd : nonneg (<[sym1 := (balance w sym1 - quantity)%float]>
                             (normalize sym1 sym2 w))).
      { apply nonneg_insert; [done|].
        apply sub_nonneg; [by apply balance_nonneg|done|done|by apply Hqi]. }
      apply nonneg_insert; [done|]. apply add_nonneg.
      * apply number_at_nonneg; [done|]. apply insert_has, normalize_has_2.
      * by apply pos_nonneg.
    + by rewrite order_other.
Qed.

(** C10, as the code has it: from balances [>= 0], at candles with positive
    execution prices, every sequence of calls of the order callback in
    which no buy amount and no sell quantity is infinite leaves every
    balance [>= 0]. *)
Theorem orders_keep_balances_nonneg (cs : list call) (w : gmap string float) :
  nonneg w -> Forall prices_positive cs -> Forall amounts_not_infinite cs ->
  nonneg (orders cs w).
Proof.
  revert w. induction cs as [|c cs IH]; intros w Hw Hp Ha; [done|].
  apply Forall_cons in Hp as [Hp Hps]. apply Forall_cons in Ha as [Ha Has].
  simpl. apply IH; [|done|done]. by apply order_call_nonneg.
Qed.

End LedgerFacts.

Module LedgerExamples.
Import Indicator Scenario FloatFacts ScenarioFacts LedgerFacts.

Lemma orders_keep_balances_nonneg_witness :
  nonneg Examples.small_wallet
  /\ Forall prices_positive Examples.small_calls
  /\ Forall amounts_not_infinite Examples.small_calls
  /\ nonneg (orders Examples.small_calls Examples.small_wallet).
Proof.
  assert (Hw : nonneg Examples.small_wallet).
  { apply map_Forall_singleton. reflexivity. }
  assert (Hp : Forall prices_positive Examples.small_calls).
  { repeat constructor. }
  assert (Ha : Forall amounts_not_infinite Examples.small_calls).
  { repeat constructor. }
  split; [exact Hw|]. split; [exact Hp|]. split; [exact Ha|].
  exact (orders_keep_balances_nonneg Examples.small_calls Examples.small_wallet Hw Hp Ha).
Defined.

(** C10 as stated fails: from a wallet of [2 ** 1000] USDT, at a candle
    whose prices are [2 ** -1000], buying for [2 ** 1000] makes the BTC
    balance [Infinity], and selling for [2 ** 1000] then needs the quantity
    [Infinity], which the guard accepts, and leaves
    [Infinity - Infinity = NaN], a balance that is not [>= 0]. *)
Lemma orders_overflow_to_nan :
  nonneg Examples.large_wallet
  /\ Forall prices_positive Examples.overflow_calls
  /\ orders Examples.overflow_calls Examples.large_wallet !! "BTC" = Some nan
  /\ ~ nonneg (orders Examples.overflow_calls Examples.large_wallet).
Proof.
  assert (Hbtc : orders Examples.overflow_calls Examples.large_wallet !! "BTC" = Some nan)
    by (vm_compute; reflexivity).
  split; [apply map_Forall_singleton; reflexivity|].
  split; [repeat constructor|]. split; [exact Hbtc|].
  intros H. specialize (H "BTC" nan Hbtc). vm_compute in H. discriminate.
Qed.

(** The guards and transfers on a wallet of 100 USDT at the price 1: a buy
    for 10 moves 10 USDT into 10 BTC, a buy for 200 and a sell for 10 leave
    the balances unchanged. *)
Lemma order_examples :
  order Examples.unit_candle "BTC" "USDT" "buy" 10 Examples.small_wallet !! "USDT" = Some 90%float
  /\ order Examples.unit_candle "BTC" "USDT" "buy" 10 Examples.small_wallet !! "BTC" = Some 10%float
  /\ balance (order Examples.unit_candle "BTC" "USDT" "buy" 200 Examples.small_wallet) "USDT" = 100%float
  /\ balance (order Examples.unit_candle "BTC" "USDT" "sell" 10 Examples.small_wallet) "BTC" = 0%float.
Proof. repeat split; vm_compute; reflexivity. Qed.

(** C8 as stated fails: a rejected order is no silent no-op.  On a wallet
    of 100 USDT without a BTC entry, a buy for 200 and a sell for 10 are
    rejected and leave a BTC entry of [0] that was not there; on a wallet
    whose BTC entry is [NaN], the rejected buy stores [0] over it. *)
Lemma rejected_order_changes_wallet :
  (balance Examples.small_wallet "USDT" <? 200)%float = true
  /\ Examples.small_wallet !! "BTC" = None
  /\ order Examples.unit_candle "BTC" "USDT" "buy" 200 Examples.small_wallet !! "BTC"
     = Some 0%float
  /\ order Examples.unit_candle "BTC" "USDT" "buy" 200 Examples.small_wallet
     <> Examples.small_wallet
  /\ (balance Examples.small_wallet "BTC" <? 10 / ((1 + 1) / 2))%float = true
  /\ order Examples.unit_candle "BTC" "USDT" "sell" 10 Examples.small_wallet !! "BTC"
     = Some 0%float
  /\ (balance Examples.nan_wallet "USDT" <? 200)%float = true
  /\ Examples.nan_wallet !! "BTC" = Some nan
  /\ order Examples.unit_candle "BTC" "USDT" "buy" 200 Examples.nan_wallet !! "BTC"
     = Some 0%float.
Proof.
  split; [reflexivity|]. split; [reflexivity|]. split; [vm_compute; reflexivity|].
  split.
  { intros H. apply (f_equal (fun w : gmap string float => w !! "BTC")) in H.
    vm_compute in H. discriminate. }
  split; [reflexivity|]. split; [vm_compute; reflexivity|].
  split; [vm_compute; reflexivity|]. split; [vm_compute; reflexivity|].
  vm_compute; reflexivity.
Qed.

End LedgerExamples.

Module RowFacts.
Import ArrayMap ArrayMapRows ArrayMapCells ArrayMapFacts.

Lemma eqb_true (a b : string) : String.eqb a b = true <-> a = b.
Proof. apply String.eqb_eq. Qed.

Lemma get_opt_None (o : obj) (k : string) : k ∉ keys o -> get_opt o k = None.
Proof.
  induction o as [|[k' v] o IH]; [done|]. intros Hk. simpl.
  destruct (String.eqb_spec k' k) as [->|Hne].
  - exfalso. apply Hk. unfold keys. simpl. left.
  - apply IH. intros Hin. apply Hk. unfold keys. simpl. by right.
Qed.

Lemma set_fresh (o : obj) (k : string) (v : value) :
  k ∉ keys o -> set o k v = o ++ [(k, v)].
Proof.
  induction o as [|[k' v'] o IH]; [done|]. intros Hk. simpl.
  destruct (String.eqb_spec k' k) as [->|Hne].
  - exfalso. apply Hk. unfold keys. simpl. left.
  - f_equal. apply IH. intros Hin. apply Hk. unfold keys. simpl. by right.
Qed.

Lemma foldl_set_fresh {A} (f : string * A -> value) (acc : obj) (m : list (string * A)) :
  NoDup (keys acc ++ map fst m) ->
  foldl (fun item kv => set item kv.1 (f kv)) acc m
  = acc ++ map (fun kv => (kv.1, f kv)) m.
Proof.
  revert acc. induction m as [|[k c] m IH]; intros acc Hnd; simpl.
  - by rewrite app_nil_r.
  - assert (Hk : k ∉ keys acc).
    { apply NoDup_app in Hnd as (_ & Hd & _). intros Hin. apply (Hd k Hin). simpl. left. }
    rewrite set_fresh by done. rewrite IH.
    + by rewrite <- app_assoc.
    + unfold keys. rewrite map_app. simpl. rewrite <- app_assoc. simpl.
      simpl in Hnd. done.
Qed.

(** With distinct keys, a row is the list of its cells in column order. *)
Lemma getItemAt_map (i : Z) (m : ArrayMap.t) :
  distinct_keys m ->
  getItemAt i m = map (fun kv => (kv.1, cell_at kv.2 i)) m.
Proof.
  intros Hd. unfold getItemAt.
  by rewrite (foldl_set_fresh (fun kv => cell_at kv.2 i) [] m).
Qed.

Lemma get_map_cells (i : Z) (m : ArrayMap.t) (k : string) :
  get (map (fun kv => (kv.1, cell_at kv.2 i)) m) k = cell m k i.
Proof.
  unfold get, cell. induction m as [|[k' c] m IH]; [done|]. simpl.
  destruct (String.eqb k' k); [done|]. apply IH.
Qed.

Lemma get_getItemAt (i : Z) (m : ArrayMap.t) (k : string) :
  distinct_keys m -> get (getItemAt i m) k = cell m k i.
Proof. intros Hd. rewrite getItemAt_map by done. apply get_map_cells. Qed.

Lemma keys_getItemAt (i : Z) (m : ArrayMap.t) :
  distinct_keys m -> keys (getItemAt i m) = map fst m.
Proof.
  intros Hd. rewrite getItemAt_map by done. unfold keys.
  rewrite map_map. done.
Qed.

Lemma has_key_column (m : ArrayMap.t) (k : string) :
  has_key m k = bool_decide (is_Some (column m k)).
Proof.
  induction m as [|[k' c] m IH]; [done|]. unfold has_key in *. simpl.
  destruct (String.eqb k' k); [|done]. reflexivity.
Qed.

Lemma has_key_elem (m : ArrayMap.t) (k : string) :
  has_key m k = true <-> k ∈ map fst m.
Proof.
  unfold has_key. induction m as [|[k' c] m IH]; simpl.
  - split; [done|]. intros H. by apply elem_of_nil in H.
  - rewrite orb_true_iff, IH, elem_of_cons. rewrite String.eqb_eq.
    split; intros [H|H]; auto.
Qed.


Lemma column_None (m : ArrayMap.t) (k : string) :
  has_key m k = false -> column m k = None.
Proof.
  rewrite has_key_column. intros H. apply bool_decide_eq_false in H.
  destruct (column m k); [|done]. exfalso. apply H. eauto.
Qed.

Lemma column_map (g : string -> list value -> list value) (m : ArrayMap.t) (k : string) :
  column (map (fun kv => (kv.1, g kv.1 kv.2)) m) k = g k <$> column m k.
Proof.
  induction m as [|[k' c] m IH]; [done|]. simpl.
  destruct (String.eqb_spec k' k) as [->|Hne]; [done|]. apply IH.
Qed.

Lemma map_fst_map (g : string -> list value -> list value) (m : ArrayMap.t) :
  map fst (map (fun kv => (kv.1, g kv.1 kv.2)) m) = map fst m.
Proof. rewrite map_map. done. Qed.

(** *** addKey *)

Lemma addKey1_keys (m : ArrayMap.t) (k : string) :
  map fst (addKey1 m k) = if has_key m k then map fst m else map fst m ++ [k].
Proof. unfold addKey1. destruct (has_key m k); [done|]. by rewrite map_app. Qed.

Lemma addKey1_distinct (m : ArrayMap.t) (k : string) :
  distinct_keys m -> distinct_keys (addKey1 m k).
Proof.
  unfold distinct_keys. intros Hd. rewrite addKey1_keys.
  destruct (has_key m k) eqn:E; [done|].
  apply NoDup_app. split; [done|]. split; [|apply NoDup_singleton].
  intros x Hx Hk. apply list_elem_of_singleton in Hk. subst x.
  apply has_key_elem in Hx. congruence.
Qed.

Lemma addKey_distinct (ks : list string) (m : ArrayMap.t) :
  distinct_keys m -> distinct_keys (addKey ks m).
Proof.
  revert m. induction ks as [|k ks IH]; intros m Hd; [done|].
  apply IH. by apply addKey1_distinct.
Qed.






Lemma has_get (o : obj) (k : string) :
  (if has o k then get o k else VUndefined) = get o k.
Proof. unfold has, get. by destruct (get_opt o k). Qed.


(** *** push *)

Lemma push1_alt (m : ArrayMap.t) (o : obj) :
  push1 m o = map (fun kv => (kv.1, kv.2 ++ [get o kv.1])) (addKey (keys o) m).
Proof.
  unfold push1. apply map_ext. intros [k c]. simpl. by rewrite has_get.
Qed.

Lemma push1_distinct (m : ArrayMap.t) (o : obj) :
  distinct_keys m -> distinct_keys (push1 m o).
Proof.
  intros Hd. rewrite push1_alt. unfold distinct_keys.
  rewrite (map_fst_map (fun k c => c ++ [get o k])). by apply addKey_distinct.
Qed.


End RowFacts.

Module PushPopFacts.
Import ArrayMap ArrayMapRows ArrayMapCells ArrayMapFacts RowFacts.

Lemma wf_column_length (m : ArrayMap.t) (k : string) (c : list value) :
  wf m -> column m k = Some c -> List.length c = ArrayMap.length m.
Proof.
  unfold wf, aligned. generalize (ArrayMap.length m) as n. intros n Hw.
  induction m as [|[k' c'] m IH]; [done|]. simpl.
  apply Forall_cons in Hw as [Hc Hw]. simpl in Hc.
  destruct (String.eqb k' k); [by intros [= <-]|]. by apply IH.
Qed.

Lemma cell_at_app_l (c : list value) (v : value) (i : Z) :
  (i < Z.of_nat (List.length c))%Z -> cell_at (c ++ [v]) i = cell_at c i.
Proof.
  intros Hi. unfold cell_at. destruct (Z.ltb_spec i 0); [done|].
  by rewrite lookup_app_l by lia.
Qed.

Lemma cell_at_app_last (c : list value) (v : value) :
  cell_at (c ++ [v]) (Z.of_nat (List.length c)) = v.
Proof.
  unfold cell_at. destruct (Z.ltb_spec (Z.of_nat (List.length c)) 0); [lia|].
  rewrite Nat2Z.id. by rewrite list_lookup_middle.
Qed.


Lemma push1_wf_any (m : ArrayMap.t) (o : obj) :
  wf m -> m <> [] \/ keys o <> [] ->
  wf (push1 m o) /\ ArrayMap.length (push1 m o) = S (ArrayMap.length m).
Proof.
  intros Hm Hne. destruct (addKey_wf (keys o) m Hm) as [Hw Hl].
  assert (Hk : addKey (keys o) m <> []).
  { destruct Hne; [by apply addKey_nonempty|by apply addKey_keys_nonempty]. }
  rewrite push1_alt.
  pose proof (aligned_map_snoc _ _ (fun k => get o k) Hw) as Ha.
  assert (Hlen : ArrayMap.length (map (fun kv => (kv.1, kv.2 ++ [get o kv.1]))
                                      (addKey (keys o) m)) = S (ArrayMap.length m)).
  { rewrite <- Hl. apply length_aligned; [done|]. destruct (addKey (keys o) m); done. }
  split; [|done]. unfold wf. rewrite Hlen, <- Hl. done.
Qed.






Lemma m0_wf : wf RowExamples.m0.
Proof. unfold wf, aligned, RowExamples.m0. simpl. by apply Forall_singleton. Qed.

Lemma m0_distinct : distinct_keys RowExamples.m0.
Proof. unfold distinct_keys, RowExamples.m0. simpl. apply NoDup_singleton. Qed.


(** *** pop *)

Lemma pop_columns (m : ArrayMap.t) :
  map (fun kv => (kv.1, (array_pop kv.2).1)) m
  = map (fun kv => (kv.1, removelast kv.2)) m.
Proof. done. Qed.





End PushPopFacts.

Module SetValueFacts.
Import ArrayMap ArrayMapRows ArrayMapCells ArrayMapFacts RowFacts PushPopFacts.

Lemma aligned_map (n n' : nat) (g : string -> list value -> list value) (m : ArrayMap.t) :
  aligned n m ->
  (forall k c, List.length c = n -> List.length (g k c) = n') ->
  aligned n' (map (fun kv => (kv.1, g kv.1 kv.2)) m).
Proof.
  intros Ha Hg. apply Forall_map. eapply Forall_impl; [exact Ha|].
  intros [k c] Hc. simpl in *. by apply Hg.
Qed.

Lemma aligned_wf (n : nat) (m : ArrayMap.t) :
  aligned n m -> m <> [] \/ n = 0%nat -> wf m /\ ArrayMap.length m = n.
Proof.
  intros Ha Hn. destruct m as [|kv m].
  - destruct Hn as [? | ->]; [done|]. split; [constructor|done].
  - assert (Hl : ArrayMap.length (kv :: m) = n) by by apply length_aligned.
    split; [|done]. unfold wf. by rewrite Hl.
Qed.

Lemma wf_map (n' : nat) (g : string -> list value -> list value) (m : ArrayMap.t) :
  wf m -> m <> [] ->
  (forall k c, List.length c = ArrayMap.length m -> List.length (g k c) = n') ->
  wf (map (fun kv => (kv.1, g kv.1 kv.2)) m)
  /\ ArrayMap.length (map (fun kv => (kv.1, g kv.1 kv.2)) m) = n'.
Proof.
  intros Hw Hne Hg. apply aligned_wf.
  - by apply (aligned_map (ArrayMap.length m)).
  - left. by destruct m.
Qed.

Lemma map_distinct (g : string -> list value -> list value) (m : ArrayMap.t) :
  distinct_keys m -> distinct_keys (map (fun kv => (kv.1, g kv.1 kv.2)) m).
Proof. unfold distinct_keys. by rewrite map_fst_map. Qed.


Lemma cell_map (g : string -> list value -> list value) (m : ArrayMap.t) (k : string) (i : Z) :
  cell (map (fun kv => (kv.1, g kv.1 kv.2)) m) k i
  = match column m k with Some c => cell_at (g k c) i | None => VUndefined end.
Proof. unfold cell. rewrite column_map. by destruct (column m k). Qed.





End SetValueFacts.

Module SpliceFacts.
Import ArrayMap ArrayMapRows ArrayMapCells ArrayMapFacts RowFacts PushPopFacts SetValueFacts.

Lemma array_splice_clamped {A} (s d : Z) (items l : list A) :
  (0 <= s <= Z.of_nat (List.length l))%Z -> (d <= Z.of_nat (List.length l) - s)%Z ->
  array_splice s d items l
  = take (Z.to_nat s) l ++ items ++ drop (Z.to_nat (s + Z.max 0 d)) l.
Proof.
  intros Hs Hd. unfold array_splice.
  destruct (Z.ltb_spec s 0); [lia|].
  replace (Z.min s (Z.of_nat (List.length l))) with s by lia.
  do 3 f_equal. lia.
Qed.

Lemma array_splice_length {A} (s d : Z) (items l : list A) :
  (0 <= s <= Z.of_nat (List.length l))%Z -> (d <= Z.of_nat (List.length l) - s)%Z ->
  Z.of_nat (List.length (array_splice s d items l))
  = (Z.of_nat (List.length l) - Z.max 0 d + Z.of_nat (List.length items))%Z.
Proof.
  intros Hs Hd. rewrite array_splice_clamped by done.
  rewrite !length_app, length_take, length_drop. lia.
Qed.

Lemma array_splice_cell (s d : Z) (items l : list value) (j : Z) :
  (0 <= s <= Z.of_nat (List.length l))%Z -> (d <= Z.of_nat (List.length l) - s)%Z ->
  cell_at (array_splice s d items l) j
  = if (j <? s)%Z then cell_at l j
    else if (j <? s + Z.of_nat (List.length items))%Z
         then cell_at items (j - s)
         else cell_at l (j - Z.of_nat (List.length items) + Z.max 0 d).
Proof.
  intros Hs Hd. rewrite array_splice_clamped by done. unfold cell_at.
  destruct (Z.ltb_spec j 0) as [Hj|Hj].
  { destruct (Z.ltb_spec j s); [done|lia]. }
  destruct (Z.ltb_spec j s) as [Hjs|Hjs].
  { rewrite lookup_app_l by (rewrite length_take; lia).
    by rewrite lookup_take_lt by lia. }
  rewrite lookup_app_r by (rewrite length_take; lia).
  rewrite length_take. replace (Z.to_nat s `min` List.length l)%nat with (Z.to_nat s) by lia.
  destruct (Z.ltb_spec j (s + Z.of_nat (List.length items))) as [Hji|Hji].
  { destruct (Z.ltb_spec (j - s) 0); [lia|].
    rewrite lookup_app_l by lia. do 2 f_equal. lia. }
  destruct (Z.ltb_spec (j - Z.of_nat (List.length items) + Z.max 0 d) 0); [lia|].
  rewrite lookup_app_r by lia. rewrite lookup_drop. do 2 f_equal. lia.
Qed.

Lemma cell_at_map_get (items : list obj) (k : string) (i : Z) :
  cell_at (map (fun item => get item k) items) i
  = match (if (i <? 0)%Z then None else items !! Z.to_nat i) with
    | Some item => get item k
    | None => VUndefined
    end.
Proof.
  unfold cell_at. destruct (i <? 0)%Z; [done|].
  change (map (fun item => get item k) items) with ((fun item => get item k) <$> items).
  rewrite list_lookup_fmap. by destruct (items !! Z.to_nat i).
Qed.

(** X4: [splice] on an aligned map that has columns acts on rows as
    [Array.prototype.splice] acts on one array: [start] is clamped to the
    rows, at most the rows from [start] on are removed (none for a negative
    count), the items are inserted at [start], the rows before read as
    before and the rows after are shifted.  An inserted item brings no new
    column: its keys that are not columns are dropped. *)
Theorem splice_rows (m : ArrayMap.t) (start deleteCount : Z) (items : list obj) :
  wf m -> distinct_keys m -> m <> [] ->
  let len := Z.of_nat (ArrayMap.length m) in
  let s := Z.max 0 (Z.min start len) in
  let d := Z.max 0 (Z.min (len - s) deleteCount) in
  let n := Z.of_nat (List.length items) in
  let m' := ArrayMap.splice start deleteCount items m in
  wf m' /\ distinct_keys m' /\ map fst m' = map fst m
  /\ Z.of_nat (ArrayMap.length m') = (len - d + n)%Z
  /\ forall j k, has_key m k = true ->
       get (getItemAt j m') k
       = if (j <? s)%Z then get (getItemAt j m) k
         else if (j <? s + n)%Z
              then match items !! Z.to_nat (j - s) with
                   | Some item => get item k
                   | None => VUndefined
                   end
              else get (getItemAt (j - n + d) m) k.
Proof.
  intros Hw Hd Hne len s d n m'. subst m'. unfold ArrayMap.splice. fold len. fold s.
  set (dc := Z.min (len - s) deleteCount).
  set (g := fun (k : string) (c : list value) =>
              array_splice s dc (map (fun item => get item k) items) c).
  change (map (fun kv : string * list value => (kv.1, array_splice s dc (map (fun item => get item kv.1) items) kv.2)) m)
    with (map (fun kv => (kv.1, g kv.1 kv.2)) m).
  assert (Hs : (0 <= s <= len)%Z) by (subst s len; lia).
  assert (Hdc : (dc <= len - s)%Z) by (subst dc; lia).
  assert (Hdd : d = Z.max 0 dc) by (subst d dc; lia).
  destruct (wf_map (Z.to_nat (len - d + n)) g m Hw Hne) as [Hw' Hl'].
  { intros k c Hc. unfold g. apply Nat2Z.inj.
    rewrite array_splice_length by (rewrite Hc; fold len; lia).
    rewrite length_map, Hc. fold len. fold n. lia. }
  pose proof (map_distinct g m Hd) as Hd'.
  split; [done|]. split; [done|]. split; [by rewrite map_fst_map|]. split.
  { rewrite Hl'. subst d. lia. }
  intros j k Hk. rewrite !get_getItemAt, cell_map by done.
  rewrite has_key_column in Hk. apply bool_decide_eq_true in Hk as [c Hc].
  unfold cell. rewrite Hc. pose proof (wf_column_length _ _ _ Hw Hc) as Hlen.
  unfold g. rewrite array_splice_cell by (rewrite Hlen; fold len; lia).
  rewrite length_map. fold n. rewrite <- Hdd.
  destruct (Z.ltb_spec j s); [done|].
  destruct (Z.ltb_spec j (s + n)); [|done].
  rewrite cell_at_map_get. destruct (Z.ltb_spec (j - s) 0); [lia|done].
Qed.

Lemma splice_rows_witness :
  ArrayMap.splice 0 1 [RowExamples.o0] RowExamples.m0 = [("a", [VUndefined])]
  /\ map fst (ArrayMap.splice 0 1 [RowExamples.o0] RowExamples.m0) = ["a"].
Proof.
  split; [reflexivity|].
  assert (Hne : RowExamples.m0 <> []) by (unfold RowExamples.m0; congruence).
  exact (proj1 (proj2 (proj2
    (splice_rows RowExamples.m0 0 1 [RowExamples.o0] m0_wf m0_distinct Hne)))).
Defined.

End SpliceFacts.

Module CloneFacts.
Import ArrayMap ArrayMapRows ArrayMapCells ArrayMapFacts RowFacts PushPopFacts SetValueFacts.

Lemma has_key_false (m : ArrayMap.t) (k : string) :
  k ∉ map fst m -> has_key m k = false.
Proof.
  intros Hk. destruct (has_key m k) eqn:E; [|done].
  by apply has_key_elem in E.
Qed.

Lemma length_empty_columns (m : ArrayMap.t) :
  Forall (fun kv => kv.2 = []) m -> ArrayMap.length m = 0%nat.
Proof.
  intros Hm. destruct m as [|kv m]; [done|].
  apply length_aligned; [|done]. eapply Forall_impl; [exact Hm|].
  intros [k c] Hc. simpl in *. by subst c.
Qed.

Lemma addKey_empty_columns (ks : list string) (acc : ArrayMap.t) :
  Forall (fun kv => kv.2 = []) acc -> NoDup (map fst acc ++ ks) ->
  addKey ks acc = acc ++ map (fun k => (k, [])) ks.
Proof.
  revert acc. induction ks as [|k ks IH]; intros acc He Hd.
  - simpl. by rewrite app_nil_r.
  - apply NoDup_app in Hd as (Hd1 & Hd2 & Hd3).
    change (addKey (k :: ks) acc) with (addKey ks (addKey1 acc k)).
    assert (H1 : addKey1 acc k = acc ++ [(k, [])]).
    { unfold addKey1.
      rewrite has_key_false by (intros Hin; apply (Hd2 _ Hin); left).
      by rewrite length_empty_columns. }
    rewrite H1, IH.
    + by rewrite <- app_assoc.
    + apply Forall_app. split; [done|]. by apply Forall_singleton.
    + rewrite map_app. simpl. rewrite <- app_assoc. simpl.
      apply NoDup_app. split; [done|]. split; [|done].
      intros x Hx. by apply Hd2.
Qed.

Lemma new_map_columns (m : ArrayMap.t) :
  distinct_keys m -> addKey (map fst m) [] = map (fun kv => (kv.1, [])) m.
Proof.
  intros Hd. rewrite addKey_empty_columns by done. simpl. by rewrite map_map.
Qed.

Lemma addKey_present (ks : list string) (m : ArrayMap.t) :
  Forall (fun k => has_key m k = true) ks -> addKey ks m = m.
Proof.
  induction ks as [|k ks IH]; intros Hk; [done|].
  apply Forall_cons in Hk as [Hk Hks]. simpl. unfold addKey1. rewrite Hk.
  by apply IH.
Qed.

Lemma push1_same_keys (m : ArrayMap.t) (o : obj) :
  keys o = map fst m ->
  push1 m o = map (fun kv => (kv.1, kv.2 ++ [get o kv.1])) m.
Proof.
  intros Hk. rewrite push1_alt, addKey_present; [done|].
  rewrite Hk. apply Forall_forall. intros k Hin. by apply has_key_elem.
Qed.

Lemma column_elem (m : ArrayMap.t) (k : string) (c : list value) :
  distinct_keys m -> (k, c) ∈ m -> column m k = Some c.
Proof.
  unfold distinct_keys. induction m as [|[k' c'] m IH]; intros Hd Hin.
  - by apply elem_of_nil in Hin.
  - simpl in *. apply NoDup_cons in Hd as [Hk' Hd].
    apply elem_of_cons in Hin as [[= <- <-]|Hin]; [by rewrite String.eqb_refl|].
    destruct (String.eqb_spec k' k) as [->|Hne]; [|by apply IH].
    exfalso. apply Hk'. apply list_elem_of_fmap. by exists (k, c).
Qed.

Lemma get_getItemAt_elem (m : ArrayMap.t) (k : string) (c : list value) (i : Z) :
  distinct_keys m -> (k, c) ∈ m -> get (getItemAt i m) k = cell_at c i.
Proof.
  intros Hd Hin. rewrite get_getItemAt by done. unfold cell.
  by rewrite (column_elem m k c).
Qed.

Lemma column_length_le (m : ArrayMap.t) (k : string) (c : list value) :
  (k, c) ∈ m -> (List.length c <= ArrayMap.length m)%nat.
Proof.
  unfold ArrayMap.length.
  assert (Hmono : forall (l : ArrayMap.t) a,
    (a <= foldl (fun len kv => if (len <? List.length kv.2)%nat
                               then List.length kv.2 else len) a l)%nat).
  { induction l as [|kv l IH]; intros a; simpl; [lia|].
    etransitivity; [|apply IH]. destruct (Nat.ltb_spec a (List.length kv.2)); lia. }
  generalize 0%nat. induction m as [|kv m IH]; intros a Hin.
  - by apply elem_of_nil in Hin.
  - simpl. apply elem_of_cons in Hin as [<-|Hin]; [|by apply IH].
    simpl. etransitivity; [|apply Hmono].
    destruct (Nat.ltb_spec a (List.length c)); lia.
Qed.

Lemma rows_upto (m : ArrayMap.t) (j : nat) :
  map (fun i => (getItemAt (Z.of_nat i) m, Z.of_nat i)) (seq 0 (S j))
  = map (fun i => (getItemAt (Z.of_nat i) m, Z.of_nat i)) (seq 0 j)
    ++ [(getItemAt (Z.of_nat j) m, Z.of_nat j)].
Proof. by rewrite seq_S, map_app. Qed.

(** The columns of [m], each filled up with [undefined] to the number of rows. *)
Lemma clone_partial (m : ArrayMap.t) (j : nat) :
  distinct_keys m -> (j <= ArrayMap.length m)%nat ->
  foldl (fun newMap r => ArrayMap.push [r.1] newMap)
        (addKey (map fst m) [])
        (map (fun i => (getItemAt (Z.of_nat i) m, Z.of_nat i)) (seq 0 j))
  = map (fun kv => (kv.1, take j (kv.2 ++ replicate (ArrayMap.length m - List.length kv.2)
                                                   VUndefined))) m.
Proof.
  intros Hd. induction j as [|j IH]; intros Hj.
  - simpl. rewrite new_map_columns by done. apply map_ext. intros [k c]. simpl.
    by rewrite take_0.
  - rewrite rows_upto, foldl_app, IH by lia. simpl.
    rewrite push1_same_keys.
    2:{ rewrite keys_getItemAt by done.
        by rewrite (map_fst_map (fun _ c => take j (c ++ replicate (ArrayMap.length m - List.length c) VUndefined))). }
    rewrite map_map. apply map_ext_in. intros [k c] Hin. simpl.
    apply list_elem_of_In in Hin.
    rewrite (get_getItemAt_elem m k c) by done.
    f_equal. pose proof (column_length_le _ _ _ Hin) as Hle.
    set (pad := c ++ replicate (ArrayMap.length m - List.length c) VUndefined).
    assert (Hpad : pad !! j = Some (cell_at c (Z.of_nat j))).
    { unfold cell_at, pad. destruct (Z.ltb_spec (Z.of_nat j) 0); [lia|].
      rewrite Nat2Z.id. destruct (Nat.lt_ge_cases j (List.length c)) as [Hlt|Hge].
      - rewrite lookup_app_l by done.
        destruct (lookup_lt_is_Some_2 c j Hlt) as [x Hx]. by rewrite Hx.
      - rewrite lookup_app_r by done. rewrite (lookup_ge_None_2 c j) by done. simpl.
        apply lookup_replicate_2. lia. }
    symmetry. by apply take_S_r.
Qed.

(** X5: [clone] returns a map with the same columns in the same order,
    each column filled up with [undefined] to the number of rows; the
    clone is always aligned, and the clone of an aligned map is equal to
    the map, cell by cell. *)
Theorem clone_equal (m : ArrayMap.t) :
  distinct_keys m ->
  clone m = map (fun kv => (kv.1, kv.2 ++ replicate (ArrayMap.length m - List.length kv.2)
                                                    VUndefined)) m
  /\ wf (clone m) /\ ArrayMap.length (clone m) = ArrayMap.length m
  /\ (wf m -> clone m = m).
Proof.
  intros Hd.
  assert (Hc : clone m = map (fun kv => (kv.1, kv.2 ++ replicate
                 (ArrayMap.length m - List.length kv.2) VUndefined)) m).
  { unfold clone, rows. rewrite clone_partial by (done || lia).
    apply map_ext_in. intros [k c] Hin. simpl. apply list_elem_of_In in Hin.
    pose proof (column_length_le _ _ _ Hin) as Hle.
    f_equal. apply take_ge. rewrite length_app, length_replicate. lia. }
  split; [done|].
  assert (Ha : aligned (ArrayMap.length m) (clone m)).
  { rewrite Hc. apply Forall_map, Forall_forall. intros [k c] Hin. simpl.
    pose proof (column_length_le _ _ _ Hin) as Hle.
    rewrite length_app, length_replicate. lia. }
  destruct (aligned_wf _ _ Ha) as [Hw Hl].
  { destruct m as [|kv m]; [by right|left]. by rewrite Hc. }
  split; [done|]. split; [done|].
  intros Hm. rewrite Hc. etransitivity; [|apply map_id]. apply map_ext_in.
  intros [k c] Hin. simpl. apply list_elem_of_In in Hin.
  unfold wf, aligned in Hm. rewrite Forall_forall in Hm. specialize (Hm _ Hin).
  simpl in Hm. rewrite Hm, Nat.sub_diag. simpl. by rewrite app_nil_r.
Qed.

Lemma clone_equal_witness :
  clone RowExamples.ragged = [("a", [VNum 1; VUndefined]); ("b", [VNum 2; VNum 3])].
Proof.
  assert (Hd : distinct_keys RowExamples.ragged).
  { unfold distinct_keys, RowExamples.ragged. simpl.
    apply NoDup_cons. split; [|apply NoDup_singleton].
    rewrite list_elem_of_singleton. discriminate. }
  exact (proj1 (clone_equal RowExamples.ragged Hd)).
Defined.

End CloneFacts.

Module FilterFacts.
Import ArrayMap ArrayMapRows ArrayMapCells ArrayMapFacts RowFacts PushPopFacts SetValueFacts CloneFacts.

Lemma get_head (k : string) (v : value) (o : obj) : get ((k, v) :: o) k = v.
Proof. unfold get. simpl. by rewrite String.eqb_refl. Qed.

Lemma get_tail (k k' : string) (v : value) (o : obj) :
  k <> k' -> get ((k, v) :: o) k' = get o k'.
Proof. intros Hne. unfold get. simpl. by destruct (String.eqb_spec k k'). Qed.

Lemma obj_eta (o : obj) :
  NoDup (keys o) -> map (fun k => (k, get o k)) (keys o) = o.
Proof.
  unfold keys. induction o as [|[k v] o IH]; intros Hd; [done|].
  simpl in *. apply NoDup_cons in Hd as [Hk Hd]. rewrite get_head. f_equal.
  etransitivity; [|apply (IH Hd)]. apply map_ext_in. intros k' Hin.
  apply list_elem_of_In in Hin. rewrite get_tail; [done|]. by intros ->.
Qed.

Lemma getItemAt_push1_old (m : ArrayMap.t) (o : obj) (i : nat) :
  wf m -> distinct_keys m -> keys o = map fst m -> (i < ArrayMap.length m)%nat ->
  getItemAt (Z.of_nat i) (push1 m o) = getItemAt (Z.of_nat i) m.
Proof.
  intros Hw Hd Hk Hi. rewrite !getItemAt_map by (done || by apply push1_distinct).
  rewrite push1_same_keys by done. rewrite map_map. apply map_ext_in.
  intros [k c] Hin. simpl. f_equal. apply cell_at_app_l.
  apply list_elem_of_In in Hin. unfold wf, aligned in Hw.
  rewrite Forall_forall in Hw. specialize (Hw _ Hin). simpl in Hw. lia.
Qed.

Lemma getItemAt_push1_new (m : ArrayMap.t) (o : obj) :
  wf m -> distinct_keys m -> keys o = map fst m ->
  getItemAt (Z.of_nat (ArrayMap.length m)) (push1 m o) = o.
Proof.
  intros Hw Hd Hk. rewrite getItemAt_map by by apply push1_distinct.
  rewrite push1_same_keys by done. rewrite map_map.
  etransitivity; [|apply obj_eta; rewrite Hk; exact Hd].
  rewrite Hk. rewrite map_map. apply map_ext_in.
  intros [k c] Hin. simpl. f_equal.
  apply list_elem_of_In in Hin. unfold wf, aligned in Hw.
  rewrite Forall_forall in Hw. specialize (Hw _ Hin). simpl in Hw.
  rewrite <- Hw. apply cell_at_app_last.
Qed.

Lemma objects_push1 (m : ArrayMap.t) (o : obj) :
  wf m -> distinct_keys m -> m <> [] -> keys o = map fst m ->
  map fst (rows (push1 m o)) = map fst (rows m) ++ [o].
Proof.
  intros Hw Hd Hne Hk. unfold rows.
  destruct (push1_wf_any m o Hw (or_introl Hne)) as [_ Hl]. rewrite Hl.
  rewrite rows_upto, map_app. simpl. rewrite getItemAt_push1_new by done.
  f_equal. rewrite !map_map. apply map_ext_in. intros i Hi. simpl.
  apply in_seq in Hi. apply getItemAt_push1_old; (done || lia).
Qed.

Lemma filter_partial (callback : obj -> Z -> bool) (m : ArrayMap.t) (l : list nat) :
  wf m -> distinct_keys m -> m <> [] ->
  let step := fun (newMap : ArrayMap.t) (r : obj * Z) =>
                if callback r.1 r.2 then ArrayMap.push [r.1] newMap else newMap in
  let rs := map (fun i => (getItemAt (Z.of_nat i) m, Z.of_nat i)) l in
  let acc := foldl step (addKey (map fst m) []) rs in
  wf acc /\ distinct_keys acc /\ map fst acc = map fst m
  /\ map fst (rows acc) = map fst (filter (fun r => callback r.1 r.2 = true) rs).
Proof.
  intros Hw Hd Hne step rs acc. subst acc rs.
  induction l as [|i l IH] using rev_ind.
  - simpl. rewrite new_map_columns by done.
    assert (Ha : aligned 0 (map (fun kv : string * list value => (kv.1, @nil value)) m)).
    { apply Forall_map, Forall_forall. by intros [k c] _. }
    destruct (aligned_wf _ _ Ha (or_intror eq_refl)) as [Hw0 Hl0].
    split; [done|]. split; [apply (map_distinct (fun _ _ => []) m Hd)|].
    split; [apply (map_fst_map (fun _ _ => []) m)|].
    unfold rows. by rewrite Hl0.
  - rewrite map_app, foldl_app, filter_app, map_app. simpl.
    destruct IH as (Hwa & Hda & Hka & Hra).
    set (acc := foldl step (addKey (map fst m) [])
                      (map (fun i => (getItemAt (Z.of_nat i) m, Z.of_nat i)) l)) in *.
    change (step acc (getItemAt (Z.of_nat i) m, Z.of_nat i))
      with (if callback (getItemAt (Z.of_nat i) m) (Z.of_nat i)
            then push1 acc (getItemAt (Z.of_nat i) m) else acc).
    rewrite filter_cons, filter_nil. simpl.
    destruct (callback (getItemAt (Z.of_nat i) m) (Z.of_nat i)) eqn:E.
    + rewrite decide_True by done. simpl.
      assert (Hk : keys (getItemAt (Z.of_nat i) m) = map fst acc).
      { rewrite keys_getItemAt by done. done. }
      assert (Hacc : acc <> []).
      { intros H0. rewrite H0 in Hka. destruct m; done. }
      destruct (push1_wf_any acc (getItemAt (Z.of_nat i) m) Hwa (or_introl Hacc)) as [Hw1 _].
      split; [done|]. split; [by apply push1_distinct|]. split.
      { rewrite push1_same_keys by done.
        by rewrite (map_fst_map (fun k c => c ++ [get (getItemAt (Z.of_nat i) m) k])). }
      rewrite objects_push1 by done. by rewrite Hra.
    + rewrite decide_False by done. simpl. rewrite app_nil_r. done.
Qed.

(** X6: [filter] returns an aligned map with the columns of the map, in the
    same order, whose rows are exactly the rows of the map that satisfy the
    callback, in their order (the callback sees each row with its index in
    the map). *)
Theorem filter_keeps_matching_rows (callback : obj -> Z -> bool) (m : ArrayMap.t) :
  wf m -> distinct_keys m ->
  let m' := filter_rows callback m in
  wf m' /\ distinct_keys m' /\ map fst m' = map fst m
  /\ map fst (rows m')
     = map fst (filter (fun r => callback r.1 r.2 = true) (rows m)).
Proof.
  intros Hw Hd m'. subst m'. destruct m as [|kv m].
  - unfold filter_rows, rows. simpl. repeat split; done.
  - by apply (filter_partial callback (kv :: m) (seq 0 (ArrayMap.length (kv :: m)))).
Qed.

Lemma filter_keeps_matching_rows_witness :
  map fst (rows (filter_rows (fun _ i => (0 <? i)%Z) RowExamples.two_rows))
  = [[("a", VNum 2); ("b", VStr "y")]].
Proof.
  assert (Hw : wf RowExamples.two_rows).
  { unfold wf, aligned, RowExamples.two_rows. simpl. by repeat constructor. }
  assert (Hd : distinct_keys RowExamples.two_rows).
  { unfold distinct_keys, RowExamples.two_rows. simpl.
    apply NoDup_cons. split; [|apply NoDup_singleton].
    rewrite list_elem_of_singleton. discriminate. }
  exact (proj2 (proj2 (proj2
    (filter_keeps_matching_rows (fun _ i => (0 <? i)%Z) RowExamples.two_rows Hw Hd)))).
Defined.

End FilterFacts.

Module IncludesFacts.
Import ArrayMap ArrayMapRows ArrayMapCells ArrayMapFacts RowFacts PushPopFacts SetValueFacts CloneFacts.






End IncludesFacts.

Module RowObjectFacts.
Import ArrayMap ArrayMapRows ArrayMapCells ArrayMapFacts.
Import RowFacts PushPopFacts SetValueFacts SpliceFacts CloneFacts FilterFacts KlinesRows.

Lemma objects_lookup (m : ArrayMap.t) (j : nat) :
  objects m !! j
  = if (j <? ArrayMap.length m)%nat then Some (getItemAt (Z.of_nat j) m) else None.
Proof.
  unfold objects, rows. rewrite map_map. simpl.
  change (map (fun i => getItemAt (Z.of_nat i) m) (seq 0 (ArrayMap.length m)))
    with ((fun i => getItemAt (Z.of_nat i) m) <$> seq 0 (ArrayMap.length m)).
  rewrite list_lookup_fmap. destruct (Nat.ltb_spec j (ArrayMap.length m)) as [Hj|Hj].
  - by rewrite lookup_seq_lt.
  - by rewrite lookup_seq_ge.
Qed.

Lemma objects_length (m : ArrayMap.t) : List.length (objects m) = ArrayMap.length m.
Proof. unfold objects, rows. by rewrite !length_map, length_seq. Qed.

Lemma objects_nil : objects [] = [].
Proof. done. Qed.

Lemma row_of_item (m : ArrayMap.t) (item : obj) :
  distinct_keys m -> keys item = map fst m ->
  map (fun kv : string * list value => (kv.1, get item kv.1)) m = item.
Proof.
  intros Hd Hk. etransitivity; [|apply obj_eta; rewrite Hk; exact Hd].
  rewrite Hk. by rewrite map_map.
Qed.

Lemma getItemAt_splice (m : ArrayMap.t) (s dc : Z) (items : list obj) (j : Z) :
  wf m -> distinct_keys m ->
  (0 <= s <= Z.of_nat (ArrayMap.length m))%Z ->
  (dc <= Z.of_nat (ArrayMap.length m) - s)%Z ->
  Forall (fun item => keys item = map fst m) items ->
  getItemAt j (map (fun kv => (kv.1, array_splice s dc
                                 (map (fun item => get item kv.1) items) kv.2)) m)
  = if (j <? s)%Z then getItemAt j m
    else if (j <? s + Z.of_nat (List.length items))%Z
         then default [] (items !! Z.to_nat (j - s))
         else getItemAt (j - Z.of_nat (List.length items) + Z.max 0 dc) m.
Proof.
  intros Hw Hd Hs Hdc Hit.
  set (g := fun (k : string) (c : list value) =>
              array_splice s dc (map (fun item => get item k) items) c).
  transitivity (getItemAt j (map (fun kv => (kv.1, g kv.1 kv.2)) m)); [reflexivity|].
  rewrite (getItemAt_map j (map (fun kv => (kv.1, g kv.1 kv.2)) m))
    by by apply map_distinct.
  rewrite map_map. simpl.
  assert (Hcell : forall kv, kv ∈ m ->
            cell_at (g kv.1 kv.2) j
            = if (j <? s)%Z then cell_at kv.2 j
              else if (j <? s + Z.of_nat (List.length items))%Z
                   then cell_at (map (fun item => get item kv.1) items) (j - s)
                   else cell_at kv.2 (j - Z.of_nat (List.length items) + Z.max 0 dc)).
  { intros [k c] Hin. simpl. unfold wf, aligned in Hw. rewrite Forall_forall in Hw.
    specialize (Hw _ Hin). simpl in Hw. unfold g.
    rewrite array_splice_cell by (rewrite Hw; lia). by rewrite length_map. }
  destruct (Z.ltb_spec j s) as [Hjs|Hjs].
  { rewrite getItemAt_map by done. apply map_ext_in. intros kv Hin.
    apply list_elem_of_In in Hin. rewrite (Hcell kv Hin).
    destruct (Z.ltb_spec j s); [done|lia]. }
  destruct (Z.ltb_spec j (s + Z.of_nat (List.length items))) as [Hji|Hji].
  - destruct (lookup_lt_is_Some_2 items (Z.to_nat (j - s))) as [item Hitem]; [lia|].
    unfold obj in *. rewrite Hitem. simpl. rewrite Forall_forall in Hit.
    rewrite <- (row_of_item m item Hd) by (apply Hit; by eapply list_elem_of_lookup_2).
    apply map_ext_in. intros kv Hin. apply list_elem_of_In in Hin. rewrite (Hcell kv Hin).
    destruct (Z.ltb_spec j s); [lia|].
    destruct (Z.ltb_spec j (s + Z.of_nat (List.length items))); [|lia].
    pose proof (cell_at_map_get items kv.1 (j - s)) as Hc. unfold obj in Hc.
    rewrite Hc. destruct (Z.ltb_spec (j - s) 0); [lia|]. by rewrite Hitem.
  - rewrite getItemAt_map by done. apply map_ext_in. intros kv Hin.
    apply list_elem_of_In in Hin. rewrite (Hcell kv Hin).
    destruct (Z.ltb_spec j s); [lia|].
    destruct (Z.ltb_spec j (s + Z.of_nat (List.length items))); [lia|done].
Qed.

Lemma splice_objects (m : ArrayMap.t) (start deleteCount : Z) (items : list obj) :
  wf m -> distinct_keys m -> m <> [] ->
  Forall (fun item => keys item = map fst m) items ->
  let len := Z.of_nat (ArrayMap.length m) in
  let s := Z.max 0 (Z.min start len) in
  let d := Z.max 0 (Z.min (len - s) deleteCount) in
  let m' := ArrayMap.splice start deleteCount items m in
  wf m' /\ distinct_keys m' /\ map fst m' = map fst m
  /\ objects m' = take (Z.to_nat s) (objects m) ++ items
                  ++ drop (Z.to_nat (s + d)) (objects m).
Proof.
  intros Hw Hd Hne Hit len s d m'. subst m'. unfold ArrayMap.splice. fold len. fold s.
  set (dc := Z.min (len - s) deleteCount).
  set (g := fun (k : string) (c : list value) =>
              array_splice s dc (map (fun item => get item k) items) c).
  assert (Hs : (0 <= s <= len)%Z) by (subst s len; lia).
  assert (Hdc : (dc <= len - s)%Z) by (subst dc; lia).
  assert (Hdd : d = Z.max 0 dc) by (subst d dc; lia).
  set (n := Z.of_nat (List.length items)).
  destruct (wf_map (Z.to_nat (len - d + n)) g m Hw Hne) as [Hw' Hl'].
  { intros k c Hc. unfold g. apply Nat2Z.inj.
    rewrite array_splice_length by (rewrite Hc; fold len; lia).
    rewrite length_map, Hc. fold len. fold n. lia. }
  pose proof (map_distinct g m Hd) as Hd'.
  change (map (fun kv : string * list value =>
                 (kv.1, array_splice s dc (map (fun item => get item kv.1) items) kv.2)) m)
    with (map (fun kv => (kv.1, g kv.1 kv.2)) m).
  split; [done|]. split; [done|]. split; [by rewrite map_fst_map|].
  apply list_eq. intros j. rewrite objects_lookup, Hl'.
  assert (Hrow : getItemAt (Z.of_nat j) (map (fun kv => (kv.1, g kv.1 kv.2)) m)
                 = if (Z.of_nat j <? s)%Z then getItemAt (Z.of_nat j) m
                   else if (Z.of_nat j <? s + n)%Z
                        then default [] (items !! Z.to_nat (Z.of_nat j - s))
                        else getItemAt (Z.of_nat j - n + d) m).
  { rewrite Hdd. exact (getItemAt_splice m s dc items (Z.of_nat j) Hw Hd Hs Hdc Hit). }
  pose proof (objects_length m) as Hol. fold len in Hol.
  destruct (Nat.lt_ge_cases j (Z.to_nat s)) as [Hjs|Hjs].
  { rewrite lookup_app_l by (rewrite length_take; lia).
    rewrite lookup_take_lt by lia. rewrite objects_lookup.
    destruct (Nat.ltb_spec j (Z.to_nat (len - d + n))); [|lia].
    destruct (Nat.ltb_spec j (ArrayMap.length m)); [|lia].
    rewrite Hrow. destruct (Z.ltb_spec (Z.of_nat j) s); [done|lia]. }
  rewrite lookup_app_r by (rewrite length_take; lia).
  rewrite length_take. replace (Z.to_nat s `min` List.length (objects m))%nat
    with (Z.to_nat s) by lia.
  destruct (Nat.lt_ge_cases (j - Z.to_nat s) (List.length items)) as [Hji|Hji].
  { rewrite lookup_app_l by done.
    destruct (Nat.ltb_spec j (Z.to_nat (len - d + n))); [|lia].
    rewrite Hrow. destruct (Z.ltb_spec (Z.of_nat j) s); [lia|].
    destruct (Z.ltb_spec (Z.of_nat j) (s + n)); [|lia].
    replace (Z.to_nat (Z.of_nat j - s)) with (j - Z.to_nat s)%nat by lia.
    destruct (lookup_lt_is_Some_2 items (j - Z.to_nat s) Hji) as [item Hitem].
    unfold obj in *. by rewrite Hitem. }
  rewrite lookup_app_r by done. rewrite lookup_drop, objects_lookup.
  destruct (Nat.ltb_spec j (Z.to_nat (len - d + n))) as [Hj|Hj].
  - destruct (Nat.ltb_spec (Z.to_nat (s + d) + (j - Z.to_nat s - List.length items))
                           (ArrayMap.length m)); [|lia].
    rewrite Hrow. destruct (Z.ltb_spec (Z.of_nat j) s); [lia|].
    destruct (Z.ltb_spec (Z.of_nat j) (s + n)); [lia|].
    do 2 f_equal. lia.
  - destruct (Nat.ltb_spec (Z.to_nat (s + d) + (j - Z.to_nat s - List.length items))
                           (ArrayMap.length m)); [lia|done].
Qed.

Lemma push_objects (os : list obj) (m : ArrayMap.t) :
  wf m -> distinct_keys m -> m <> [] ->
  Forall (fun o => keys o = map fst m) os ->
  let m' := ArrayMap.push os m in
  wf m' /\ distinct_keys m' /\ map fst m' = map fst m
  /\ objects m' = objects m ++ os.
Proof.
  revert m. induction os as [|o os IH]; intros m Hw Hd Hne Hk m'; subst m'.
  - simpl. by rewrite app_nil_r.
  - apply Forall_cons in Hk as [Hko Hk].
    change (ArrayMap.push (o :: os) m) with (ArrayMap.push os (push1 m o)).
    destruct (push1_wf_any m o Hw (or_introl Hne)) as [Hw1 Hl1].
    pose proof (push1_distinct m o Hd) as Hd1.
    assert (Hk1 : map fst (push1 m o) = map fst m).
    { rewrite push1_same_keys by done.
      apply (map_fst_map (fun k c => c ++ [get o k])). }
    assert (Hne1 : push1 m o <> []).
    { intros H0. rewrite H0 in Hk1. destruct m; done. }
    destruct (IH (push1 m o) Hw1 Hd1 Hne1) as (Hw2 & Hd2 & Hk2 & Ho2).
    { by rewrite Hk1. }
    split; [done|]. split; [done|]. split; [congruence|].
    rewrite Ho2. unfold objects at 1. rewrite objects_push1 by done.
    by rewrite <- app_assoc.
Qed.

Lemma push1_fresh (o : obj) :
  NoDup (keys o) -> push1 [] o = push1 (map (fun k => (k, [])) (keys o)) o.
Proof.
  intros Hd. rewrite !push1_alt. f_equal.
  rewrite addKey_empty_columns by done. simpl.
  symmetry. apply addKey_present. apply Forall_forall. intros k Hin.
  apply has_key_elem. by rewrite map_map, map_id.
Qed.

Lemma fresh_columns (ks : list string) :
  NoDup ks ->
  let m0 : ArrayMap.t := map (fun k => (k, [])) ks in
  wf m0 /\ distinct_keys m0 /\ map fst m0 = ks /\ objects m0 = [].
Proof.
  intros Hd m0. subst m0.
  assert (Hk : map fst (map (fun k : string => (k, @nil value)) ks) = ks).
  { by rewrite map_map, map_id. }
  assert (Ha : aligned 0 (map (fun k : string => (k, @nil value)) ks)).
  { by apply Forall_map, Forall_forall. }
  destruct (aligned_wf _ _ Ha (or_intror eq_refl)) as [Hw Hl].
  split; [done|]. split; [unfold distinct_keys; by rewrite Hk|]. split; [done|].
  unfold objects, rows. by rewrite Hl.
Qed.

End RowObjectFacts.

Module KlinesRowFacts.
Import ArrayMap ArrayMapRows ArrayMapCells ArrayMapFacts.
Import RowFacts PushPopFacts SetValueFacts SpliceFacts CloneFacts FilterFacts RowObjectFacts KlinesRows.

Lemma keysOut_NoDup : NoDup Klines.keysOut.
Proof. apply (bool_decide_unpack _). by vm_compute. Qed.

Lemma stored_distinct (k : Klines.t) : stored k -> distinct_keys (Klines.values k).
Proof.
  intros [_ [->|Hk]]; unfold distinct_keys; [apply NoDup_nil_2|].
  rewrite Hk. apply keysOut_NoDup.
Qed.

Lemma push_fresh (os : list obj) :
  Forall (fun o => keys o = Klines.keysOut) os -> os <> [] ->
  ArrayMap.push os [] = ArrayMap.push os (map (fun k => (k, [])) Klines.keysOut).
Proof.
  intros Hk Hne. destruct os as [|o os]; [done|].
  apply Forall_cons in Hk as [Ho _].
  change (ArrayMap.push (o :: os) []) with (ArrayMap.push os (push1 [] o)).
  rewrite push1_fresh by (rewrite Ho; apply keysOut_NoDup). by rewrite Ho.
Qed.

(** Pushing records with the columns of a normalised record onto a store. *)
Lemma push_stored (os : list obj) (m : ArrayMap.t) :
  wf m -> m = [] \/ map fst m = Klines.keysOut ->
  Forall (fun o => keys o = Klines.keysOut) os ->
  let m' := ArrayMap.push os m in
  wf m' /\ (m' = [] \/ map fst m' = Klines.keysOut)
  /\ objects m' = objects m ++ os.
Proof.
  intros Hw Hm Hk m'. subst m'.
  assert (Hcase : forall m0 : ArrayMap.t, wf m0 -> map fst m0 = Klines.keysOut ->
            wf (ArrayMap.push os m0) /\ map fst (ArrayMap.push os m0) = Klines.keysOut
            /\ objects (ArrayMap.push os m0) = objects m0 ++ os).
  { intros m0 Hw0 Hk0.
    destruct (push_objects os m0 Hw0) as (H1 & _ & H2 & H3).
    - unfold distinct_keys. rewrite Hk0. apply keysOut_NoDup.
    - intros ->. done.
    - by rewrite Hk0.
    - split; [done|]. split; [congruence|done]. }
  destruct Hm as [->|Hm].
  - destruct os as [|o os]; [split; [apply Forall_nil_2|split; [by left|done]]|].
    rewrite push_fresh by done.
    destruct (fresh_columns Klines.keysOut keysOut_NoDup) as (Hw0 & _ & Hk0 & Ho0).
    destruct (Hcase _ Hw0 Hk0) as (H1 & H2 & H3).
    split; [done|]. split; [by right|]. by rewrite H3, Ho0.
  - destruct (Hcase _ Hw Hm) as (H1 & H2 & H3). split; [done|]. split; [by right|done].
Qed.

(** Splicing records with the columns of a normalised record into a store
    that has columns. *)
Lemma splice_stored (start deleteCount : Z) (items : list obj) (m : ArrayMap.t) :
  wf m -> map fst m = Klines.keysOut ->
  Forall (fun o => keys o = Klines.keysOut) items ->
  let len := Z.of_nat (ArrayMap.length m) in
  let s := Z.max 0 (Z.min start len) in
  let d := Z.max 0 (Z.min (len - s) deleteCount) in
  let m' := ArrayMap.splice start deleteCount items m in
  wf m' /\ map fst m' = Klines.keysOut
  /\ objects m' = take (Z.to_nat s) (objects m) ++ items
                  ++ drop (Z.to_nat (s + d)) (objects m).
Proof.
  intros Hw Hm Hk len s d m'.
  destruct (splice_objects m start deleteCount items Hw) as (H1 & _ & H2 & H3).
  - unfold distinct_keys. rewrite Hm. apply keysOut_NoDup.
  - intros ->. done.
  - by rewrite Hm.
  - subst m'. split; [done|]. split; [congruence|exact H3].
Qed.

Lemma splice_nil (start deleteCount : Z) (items : list obj) :
  ArrayMap.splice start deleteCount items [] = [].
Proof. done. Qed.

Section Builtins.
Variable parseFloat parseInt : value -> float.

(** X8: [Klines.push] on a store keeps it a store, drops
    [max 0 (min len (n + len - limit))] of the oldest rows, for [n] the
    number of normalised records and [len] the rows before, and appends the
    normalised records in order; [last()] then reads the last of them. *)
Theorem Klines_push_appends (objs : list obj) (k : Klines.t) :
  stored k ->
  let results := Klines.invert parseFloat parseInt objs in
  let len := Z.of_nat (ArrayMap.length (Klines.values k)) in
  let count := (Z.of_nat (List.length results) + len)%Z in
  let dropped := Z.max 0 (Z.min len (count - Klines.limit k)) in
  let k' := Klines.push parseFloat parseInt objs k in
  stored k'
  /\ objects (Klines.values k')
     = drop (Z.to_nat dropped) (objects (Klines.values k)) ++ results
  /\ (results <> [] -> Some (KlinesRows.last 0 k') = list.last results).
Proof.
  intros [Hw Hm] results len count dropped k'.
  pose proof (KlinesFacts.invert_keys parseFloat parseInt objs) as Hk.
  fold results in Hk.
  set (d0 := (if (Klines.limit k <? Z.of_nat (List.length results
                                   + ArrayMap.length (Klines.values k)))%Z
              then Z.of_nat (List.length results + ArrayMap.length (Klines.values k))
                   - Klines.limit k else 0)%Z).
  assert (Hk' : Klines.values k' = ArrayMap.push results
                  (ArrayMap.splice 0 d0 [] (Klines.values k))) by reflexivity.
  assert (Hd0 : dropped = Z.max 0 (Z.min (len - Z.max 0 (Z.min 0 len)) d0)).
  { subst dropped d0 count len.
    destruct (Z.ltb_spec (Klines.limit k)
                (Z.of_nat (List.length results + ArrayMap.length (Klines.values k)))); lia. }
  assert (H2 : wf (ArrayMap.splice 0 d0 [] (Klines.values k))
               /\ (ArrayMap.splice 0 d0 [] (Klines.values k) = []
                   \/ map fst (ArrayMap.splice 0 d0 [] (Klines.values k)) = Klines.keysOut)
               /\ objects (ArrayMap.splice 0 d0 [] (Klines.values k))
                  = drop (Z.to_nat dropped) (objects (Klines.values k))).
  { destruct Hm as [Hm|Hm].
    - rewrite Hm. rewrite splice_nil. split; [constructor|]. split; [by left|].
      by rewrite objects_nil, drop_nil.
    - destruct (splice_stored 0 d0 [] (Klines.values k) Hw Hm (Forall_nil_2 _))
        as (H1 & H2 & H3).
      split; [done|]. split; [by right|]. rewrite H3. fold len.
      replace (Z.to_nat (Z.max 0 (Z.min 0 len))) with 0%nat by lia.
      rewrite take_0. simpl. f_equal. rewrite Hd0. lia. }
  destruct H2 as (Hw2 & Hm2 & Ho2).
  destruct (push_stored results _ Hw2 Hm2 Hk) as (Hw3 & Hm3 & Ho3).
  assert (Hobj : objects (Klines.values k')
                 = drop (Z.to_nat dropped) (objects (Klines.values k)) ++ results).
  { by rewrite Hk', Ho3, Ho2. }
  split; [by rewrite <- Hk' in Hw3, Hm3|]. split; [done|].
  intros Hne. unfold KlinesRows.last.
  assert (Hlast : list.last (objects (Klines.values k')) = list.last results).
  { rewrite Hobj. destruct (exists_last Hne) as (r & x & ->).
    by rewrite app_assoc, !last_snoc. }
  rewrite <- Hlast, last_lookup, objects_lookup, objects_length.
  assert (Hpos : (0 < ArrayMap.length (Klines.values k'))%nat).
  { rewrite <- objects_length, Hobj, length_app.
    destruct results; [done|simpl; lia]. }
  destruct (Nat.ltb_spec (Nat.pred (ArrayMap.length (Klines.values k')))
                         (ArrayMap.length (Klines.values k'))); [|lia].
  do 2 f_equal. lia.
Qed.

End Builtins.

End KlinesRowFacts.

Module KlinesReadFacts.
Import ArrayMap ArrayMapRows ArrayMapCells ArrayMapFacts.
Import RowFacts PushPopFacts SetValueFacts SpliceFacts CloneFacts FilterFacts RowObjectFacts KlinesRowFacts KlinesRows.

Lemma create_stored : stored Klines.create.
Proof. split; [apply Forall_nil_2|by left]. Qed.

(** The first step of [push] and of [splice]: dropping the oldest rows. *)
Lemma trim_stored (d0 : Z) (m : ArrayMap.t) :
  wf m -> m = [] \/ map fst m = Klines.keysOut ->
  let m' := ArrayMap.splice 0 d0 [] m in
  wf m' /\ (m = [] -> m' = []) /\ (map fst m = Klines.keysOut -> map fst m' = Klines.keysOut)
  /\ objects m'
     = drop (Z.to_nat (Z.max 0 (Z.min (Z.of_nat (ArrayMap.length m)) d0))) (objects m).
Proof.
  intros Hw Hm m'. subst m'. destruct Hm as [->|Hm].
  - rewrite splice_nil. split; [apply Forall_nil_2|]. split; [done|]. split; [done|].
    by rewrite objects_nil, drop_nil.
  - destruct (splice_stored 0 d0 [] m Hw Hm (Forall_nil_2 _)) as (H1 & H2 & H3).
    split; [done|]. split; [by intros ->|]. split; [done|]. rewrite H3.
    replace (Z.to_nat (Z.max 0 (Z.min 0 (Z.of_nat (ArrayMap.length m))))) with 0%nat by lia.
    rewrite take_0. simpl. f_equal. lia.
Qed.

Section Builtins.
Variable parseFloat parseInt : value -> float.

(** X9: [Klines.splice] does nothing for a negative [start]; otherwise it
    first drops [max 0 (min len (count - limit))] of the oldest rows, where
    [count] is the number of normalised records plus the rows from [start]
    on minus the count to delete, and then removes and inserts at [start]
    among the rows that are left.  A store without columns stays without
    columns, so that what is inserted into a new store is lost. *)
Theorem Klines_splice_rows (start deleteCount : Z) (objs : list obj) (k : Klines.t) :
  stored k ->
  let results := Klines.invert parseFloat parseInt objs in
  let len := Z.of_nat (ArrayMap.length (Klines.values k)) in
  let count := (Z.of_nat (List.length results)
                + (len - start - (if (0 <=? deleteCount)%Z then deleteCount else 0)))%Z in
  let dropped := Z.max 0 (Z.min len (count - Klines.limit k)) in
  let rows1 := drop (Z.to_nat dropped) (objects (Klines.values k)) in
  let len1 := Z.of_nat (List.length rows1) in
  let s := Z.min start len1 in
  let d := Z.max 0 (Z.min (len1 - s) deleteCount) in
  let k' := KlinesRows.splice parseFloat parseInt start deleteCount objs k in
  stored k' /\ Klines.limit k' = Klines.limit k
  /\ ((start < 0)%Z -> k' = k)
  /\ (Klines.values k = [] -> Klines.values k' = [])
  /\ ((0 <= start)%Z -> Klines.values k <> [] ->
      objects (Klines.values k')
      = take (Z.to_nat s) rows1 ++ results ++ drop (Z.to_nat (s + d)) rows1).
Proof.
  intros [Hw Hm] results len count dropped rows1 len1 s d k'.
  subst k'. unfold KlinesRows.splice. fold results. fold len. fold count.
  destruct (Z.ltb_spec start 0) as [Hneg|Hpos].
  { split; [done|]. split; [done|]. split; [done|]. split; [done|]. lia. }
  set (d0 := (if (Klines.limit k <? count)%Z then count - Klines.limit k else 0)%Z).
  assert (Hd0 : dropped = Z.max 0 (Z.min len d0)).
  { subst dropped d0. destruct (Z.ltb_spec (Klines.limit k) count); lia. }
  destruct (trim_stored d0 (Klines.values k) Hw Hm) as (Hw2 & Hn2 & Hk2 & Ho2).
  fold len in Ho2. rewrite <- Hd0 in Ho2. fold rows1 in Ho2.
  pose proof (KlinesFacts.invert_keys parseFloat parseInt objs) as Hk.
  fold results in Hk. simpl.
  destruct Hm as [Hm|Hm].
  - rewrite (Hn2 Hm), splice_nil.
    split; [split; [apply Forall_nil_2|by left]|].
    split; [done|]. split; [lia|]. split; [done|]. by intros _ Hne.
  - destruct (splice_stored start deleteCount results _ Hw2 (Hk2 Hm) Hk) as (H1 & H2 & H3).
    split; [split; [done|by right]|]. split; [done|]. split; [lia|].
    split; [intros H0; by rewrite H0 in Hm|]. intros _ _.
    rewrite H3, Ho2. rewrite <- objects_length, Ho2. fold len1.
    replace (Z.max 0 (Z.min start len1)) with s by (subst s; lia). done.
Qed.

End Builtins.

Lemma Klines_push_appends_witness :
  objects (Klines.values (Klines.push Klines.parse_number Klines.parse_number
                                      [Examples.raw1] Klines.create))
  = drop 0 (objects (Klines.values Klines.create))
    ++ Klines.invert Klines.parse_number Klines.parse_number [Examples.raw1].
Proof.
  exact (proj1 (proj2 (Klines_push_appends Klines.parse_number Klines.parse_number
                         [Examples.raw1] Klines.create create_stored))).
Defined.

Lemma Klines_splice_rows_witness :
  Klines.values (KlinesRows.splice Klines.parse_number Klines.parse_number 0 0
                                   [Examples.raw1] Klines.create) = [].
Proof.
  exact (proj1 (proj2 (proj2 (proj2
    (Klines_splice_rows Klines.parse_number Klines.parse_number 0 0
       [Examples.raw1] Klines.create create_stored)))) eq_refl).
Defined.

Section Conversions.
Variable string_to_number : string -> float.
Variable number_to_string : float -> string.

Lemma parse_without_prices (data : obj) (source : string) :
  Forall (fun key => get data key = VUndefined)
         ["timestamp"; "open"; "high"; "low"; "close"; "volume"] ->
  parse string_to_number number_to_string data source = VNum nan.
Proof.
  intros Hk. repeat (apply Forall_cons in Hk as [? Hk]).
  unfold parse. destruct (bool_decide (source ∈ Klines.source)) eqn:E; [|done].
  apply bool_decide_eq_true in E. unfold Klines.source in E. simpl.
  repeat (apply elem_of_cons in E as [->|E]; [simpl; by repeat match goal with
     | H : get data _ = VUndefined |- _ => rewrite H; clear H end|]).
  by apply elem_of_nil in E.
Qed.

Lemma row_without_prices (m : ArrayMap.t) (i : Z) (key : string) :
  distinct_keys m -> key ∉ map fst m -> get (getItemAt i m) key = VUndefined.
Proof.
  intros Hd Hk. rewrite get_getItemAt by done. unfold cell.
  by rewrite (column_None m key) by by apply has_key_false.
Qed.

(** X10: on a store as [push] and [splice] leave it, whose columns are those
    of a normalised record, [getItemsBySource] answers [NaN] for every row
    it is asked for, whatever the source: [count] values, at most as many
    as there are rows, for a supported source and a positive [count], and
    none otherwise. *)
Theorem getItemsBySource_all_NaN (source : string) (count : Z) (k : Klines.t) :
  stored k ->
  getItemsBySource string_to_number number_to_string source count k
  = if bool_decide (source ∈ Klines.source) && (0 <? count)%Z
    then replicate (Z.to_nat (Z.min count (Z.of_nat (ArrayMap.length (Klines.values k)))))
                   (VNum nan)
    else [].
Proof.
  intros Hs. pose proof (stored_distinct k Hs) as Hd. destruct Hs as [Hw Hm].
  unfold getItemsBySource.
  set (length := ArrayMap.length (Klines.values k)).
  set (len := if (0 <? count)%Z
              then (if (Z.of_nat length <? count)%Z then length else Z.to_nat count)
              else 0%nat).
  assert (Hlen : len = if (0 <? count)%Z
                       then Z.to_nat (Z.min count (Z.of_nat length)) else 0%nat).
  { subst len. destruct (0 <? count)%Z; [|done].
    destruct (Z.ltb_spec (Z.of_nat length) count); lia. }
  destruct (bool_decide (source ∈ Klines.source)) eqn:E; simpl; [|done].
  destruct (Nat.eqb_spec len 0) as [H0|H0].
  { rewrite Hlen in H0. destruct (0 <? count)%Z; [|done]. by rewrite H0. }
  assert (Hc : (0 <? count)%Z = true).
  { rewrite Hlen in H0. by destruct (0 <? count)%Z. }
  rewrite Hc in *. rewrite <- Hlen.
  assert (Hrow : forall i, parse string_to_number number_to_string
                             (getItemAt (Z.of_nat i) (Klines.values k)) source = VNum nan).
  { intros i. apply parse_without_prices.
    destruct Hm as [Hm|Hm].
    - rewrite Hm. by repeat constructor.
    - repeat (apply Forall_cons; split;
        [apply row_without_prices; [done|rewrite Hm; by apply (bool_decide_unpack _)]|]).
      apply Forall_nil_2. }
  generalize (length - len)%nat as a. clear H0 Hlen. generalize len as n.
  induction n as [|n IH]; intros a; [done|]. simpl. by rewrite Hrow, IH.
Qed.

End Conversions.

Lemma getItemsBySource_all_NaN_witness :
  getItemsBySource (fun _ => nan) (fun _ => EmptyString) "close" 1
    (Klines.push Klines.parse_number Klines.parse_number [Examples.raw1] Klines.create)
  = [VNum nan].
Proof.
  assert (Hs : stored (Klines.push Klines.parse_number Klines.parse_number
                                   [Examples.raw1] Klines.create)).
  { split; [|by right]. unfold wf, aligned. simpl. by repeat constructor. }
  exact (getItemsBySource_all_NaN (fun _ => nan) (fun _ => EmptyString) "close" 1 _ Hs).
Defined.

End KlinesReadFacts.

Module ColumnFacts.
Import ArrayMap ArrayMapRows ArrayMapCells ArrayMapLength ArrayMapFacts.
Import RowFacts PushPopFacts SetValueFacts CloneFacts FilterFacts RowObjectFacts KlinesRows.

Lemma filter_absent (m : list (string * list value)) (k : string) :
  has_key m k = false -> filter (fun kv : string * list value => kv.1 <> k) m = m.
Proof.
  intros Hk. induction m as [|[k' c] m IH]; [done|].
  unfold has_key in Hk. simpl in Hk. apply orb_false_iff in Hk as [Hk' Hk].
  rewrite filter_cons. simpl. apply String.eqb_neq in Hk'.
  rewrite decide_True by done. f_equal. by apply IH.
Qed.

Lemma deleteKey1_filter (m : list (string * list value)) (k : string) :
  deleteKey1 m k = filter (fun kv : string * list value => kv.1 <> k) m.
Proof.
  unfold deleteKey1. destruct (has_key m k) eqn:E; [done|]. by rewrite filter_absent.
Qed.

Lemma deleteKey_filter (ks : list string) (m : list (string * list value)) :
  deleteKey ks m = filter (fun kv : string * list value => kv.1 ∉ ks) m.
Proof.
  revert m. induction ks as [|k ks IH]; intros m.
  - simpl. induction m as [|kv m IHm]; [done|].
    rewrite filter_cons, decide_True by apply not_elem_of_nil. by rewrite <- IHm.
  - change (deleteKey (k :: ks) m) with (deleteKey ks (deleteKey1 m k)).
    rewrite IH, deleteKey1_filter, list_filter_filter.
    apply list_filter_iff. intros [k' c]. simpl. rewrite not_elem_of_cons. tauto.
Qed.

Lemma column_filter (P : string -> Prop) `{!forall k, Decision (P k)}
    (m : list (string * list value)) (k : string) :
  column (filter (fun kv : string * list value => P kv.1) m) k
  = if decide (P k) then column m k else None.
Proof.
  induction m as [|[k' c] m IH]; [by destruct (decide (P k))|].
  rewrite filter_cons. simpl. destruct (decide (P k')) as [Hk'|Hk'].
  - simpl. destruct (String.eqb_spec k' k) as [->|Hne].
    + by rewrite decide_True.
    + rewrite IH. by destruct (decide (P k)).
  - rewrite IH. destruct (decide (P k)) as [Hk|Hk]; [|done].
    destruct (String.eqb_spec k' k) as [->|Hne]; done.
Qed.

Lemma filter_aligned (P : string * list value -> Prop) `{!forall kv, Decision (P kv)}
    (n : nat) (m : list (string * list value)) :
  aligned n m -> aligned n (filter P m).
Proof.
  unfold aligned. rewrite !Forall_forall. intros Ha kv Hkv.
  apply list_elem_of_filter in Hkv as [_ Hkv]. by apply Ha.
Qed.

Lemma filter_keys (P : string -> Prop) `{!forall k, Decision (P k)} (m : list (string * list value)) :
  map fst (filter (fun kv : string * list value => P kv.1) m) = filter P (map fst m).
Proof.
  induction m as [|[k c] m IH]; [done|]. rewrite filter_cons. simpl.
  rewrite filter_cons. destruct (decide (P k)); simpl; by rewrite IH.
Qed.

(** X18: [deleteKey] removes the named columns and no other; on an aligned
    map every cell of a column that stays reads as before, and the rows
    stay as many as long as a column stays, while deleting the last column
    leaves a map without rows.  [clear] keeps every column and leaves no
    row. *)
Theorem deleteKey_and_clear (ks : list string) (m : ArrayMap.t) :
  wf m -> distinct_keys m ->
  let m' := deleteKey ks m in
  distinct_keys m'
  /\ map fst m' = filter (fun k => k ∉ ks) (map fst m)
  /\ (forall k i, k ∉ ks -> get (getItemAt i m') k = get (getItemAt i m) k)
  /\ wf m'
  /\ ArrayMap.length m' = (if decide (m' = []) then 0%nat else ArrayMap.length m)
  /\ map fst (clear m) = map fst m /\ wf (clear m) /\ ArrayMap.length (clear m) = 0%nat.
Proof.
  intros Hw Hd m'. subst m'. rewrite deleteKey_filter.
  set (m' := filter (fun kv : string * list value => kv.1 ∉ ks) m).
  assert (Hk : map fst m' = filter (fun k => k ∉ ks) (map fst m)).
  { exact (filter_keys (fun k => k ∉ ks) m). }
  assert (Hd' : distinct_keys m').
  { unfold distinct_keys. rewrite Hk. by apply NoDup_filter. }
  assert (Ha : aligned (ArrayMap.length m) m').
  { exact (filter_aligned (fun kv => kv.1 ∉ ks) _ m Hw). }
  split; [done|]. split; [done|]. split.
  { intros k i Hki. rewrite !get_getItemAt by done. unfold cell.
    pose proof (column_filter (fun k => k ∉ ks) m k) as Hc.
    rewrite decide_True in Hc by done.
    assert (Hc' : column m' k = column m k) by exact Hc.
    first [by rewrite Hc'|by rewrite Hc]. }
  assert (Hwl : wf m' /\ ArrayMap.length m'
                         = (if decide (m' = []) then 0%nat else ArrayMap.length m)).
  { destruct (decide (m' = [])) as [->|Hne]; [by split; [constructor|]|].
    by apply aligned_wf; [|left]. }
  destruct Hwl as [Hw' Hl']. split; [done|]. split; [done|].
  unfold clear. split; [apply (map_fst_map (fun _ _ => []))|].
  apply (aligned_wf 0); [|by right].
  apply Forall_map, Forall_forall. by intros [k c] _.
Qed.

Lemma deleteKey_and_clear_witness :
  ArrayMap.length (deleteKey ["a"] RowExamples.m0) = 0%nat
  /\ ArrayMap.length RowExamples.m0 = 1%nat.
Proof.
  split; [|reflexivity].
  exact (proj1 (proj2 (proj2 (proj2 (proj2
    (deleteKey_and_clear ["a"] RowExamples.m0 m0_wf m0_distinct)))))).
Defined.

Lemma existsb_filter {A} (p : A -> bool) (l : list A) :
  existsb p l = negb (List.length (filter (fun x => p x = true) l) =? 0)%nat.
Proof.
  induction l as [|x l IH]; [done|]. rewrite filter_cons. simpl.
  destruct (decide (p x = true)) as [Hp|Hp].
  - by rewrite Hp.
  - apply not_true_is_false in Hp. by rewrite Hp.
Qed.

Lemma forallb_filter {A} (p : A -> bool) (l : list A) :
  forallb p l = (List.length (filter (fun x => p x = true) l) =? List.length l)%nat.
Proof.
  induction l as [|x l IH]; [done|]. rewrite filter_cons. simpl.
  destruct (decide (p x = true)) as [Hp|Hp].
  - by rewrite Hp.
  - apply not_true_is_false in Hp. rewrite Hp. simpl. symmetry. apply Nat.eqb_neq.
    pose proof (length_filter (fun x => p x = true) l). lia.
Qed.

Lemma find_filter {A} (p : A -> bool) (l : list A) :
  List.find p l = head (filter (fun x => p x = true) l).
Proof.
  induction l as [|x l IH]; [done|]. rewrite filter_cons. simpl.
  destruct (decide (p x = true)) as [Hp|Hp].
  - by rewrite Hp.
  - apply not_true_is_false in Hp. by rewrite Hp.
Qed.

(** X19: on an aligned map, [some], [every] and [find] agree with
    [filter] under the same callback: [some] holds exactly when the
    filtered map has a row, [every] exactly when it has as many rows as the
    map, and [find] returns its first row. *)
Theorem some_every_find_filter (callback : obj -> Z -> bool) (m : ArrayMap.t) :
  wf m -> distinct_keys m ->
  let kept := filter_rows callback m in
  some callback m = negb (ArrayMap.length kept =? 0)%nat
  /\ every callback m = (ArrayMap.length kept =? ArrayMap.length m)%nat
  /\ find_row callback m = head (objects kept).
Proof.
  intros Hw Hd kept.
  assert (Hobj : objects kept
                 = map fst (filter (fun r => callback r.1 r.2 = true) (rows m))).
  { subst kept. destruct m as [|kv m]; [done|].
    by apply (filter_partial callback (kv :: m) (seq 0 (ArrayMap.length (kv :: m)))). }
  assert (Hlen : ArrayMap.length kept
                 = List.length (filter (fun r => callback r.1 r.2 = true) (rows m))).
  { by rewrite <- objects_length, Hobj, length_map. }
  assert (Hrows : List.length (rows m) = ArrayMap.length m).
  { unfold rows. by rewrite length_map, length_seq. }
  rewrite Hlen, Hobj, <- Hrows. unfold some, every, find_row.
  rewrite (existsb_filter (fun r => callback r.1 r.2)).
  rewrite (forallb_filter (fun r => callback r.1 r.2)).
  rewrite (find_filter (fun r => callback r.1 r.2)).
  split; [done|]. split; [done|].
  by destruct (filter (fun r => callback r.1 r.2 = true) (rows m)).
Qed.

Lemma some_every_find_filter_witness :
  find_row (fun _ i => (0 <? i)%Z) RowExamples.two_rows
  = Some [("a", VNum 2); ("b", VStr "y")].
Proof.
  assert (Hw : wf RowExamples.two_rows).
  { unfold wf, aligned, RowExamples.two_rows. simpl. by repeat constructor. }
  assert (Hd : distinct_keys RowExamples.two_rows).
  { unfold distinct_keys. apply (bool_decide_unpack _). by vm_compute. }
  exact (proj2 (proj2
    (some_every_find_filter (fun _ i => (0 <? i)%Z) RowExamples.two_rows Hw Hd))).
Defined.

Lemma array_resize_length (len : nat) (arr : list value) :
  List.length (array_resize len arr) = len.
Proof. unfold array_resize. rewrite length_app, length_take, length_replicate. lia. Qed.

Lemma array_resize_cell (len : nat) (arr : list value) (i : Z) :
  cell_at (array_resize len arr) i
  = if (i <? Z.of_nat len)%Z then cell_at arr i else VUndefined.
Proof.
  unfold cell_at, array_resize. destruct (Z.ltb_spec i 0) as [Hneg|Hpos].
  { by destruct (i <? Z.of_nat len)%Z. }
  destruct (Z.ltb_spec i (Z.of_nat len)) as [Hlt|Hge].
  - destruct (decide (Z.to_nat i < List.length arr)) as [Hin|Hout].
    + rewrite lookup_app_l by (rewrite length_take; lia).
      by rewrite lookup_take_lt by lia.
    + rewrite lookup_app_r by (rewrite length_take; lia).
      rewrite (lookup_ge_None_2 arr) by lia. simpl.
      rewrite length_take. destruct (lookup_lt_is_Some_2
        (replicate (len - List.length arr) VUndefined)
        (Z.to_nat i - len `min` List.length arr)) as [x Hx].
      { rewrite length_replicate. lia. }
      rewrite Hx. apply lookup_replicate in Hx as [-> _]. done.
  - rewrite lookup_ge_None_2; [done|].
    rewrite length_app, length_take, length_replicate. lia.
Qed.

(** X20: assigning [length] a number from 0 up to [2^32 - 1] makes any map
    with columns aligned on that many rows, the rows below it reading as
    before and the rows added reading [undefined] in every column; a
    negative number changes nothing, and a number from [2^32] on throws as
    soon as the map has a column. *)
Theorem set_length_aligns (len : Z) (m : ArrayMap.t) :
  distinct_keys m -> m <> [] ->
  ((len < 0)%Z -> set_length len m = Some m)
  /\ ((2 ^ 32 <= len)%Z -> set_length len m = None)
  /\ ((0 <= len < 2 ^ 32)%Z ->
      exists m', set_length len m = Some m'
        /\ wf m' /\ distinct_keys m' /\ map fst m' = map fst m
        /\ Z.of_nat (ArrayMap.length m') = len
        /\ forall i k, get (getItemAt i m') k
                       = if (i <? len)%Z then get (getItemAt i m) k else VUndefined).
Proof.
  intros Hd Hne. unfold set_length. split; [|split].
  - intros Hneg. by destruct (Z.ltb_spec len 0); [|lia].
  - intros Hbig. destruct (Z.ltb_spec len 0); [lia|].
    destruct m; [done|]. by destruct (Z.leb_spec (2 ^ 32) len); [|lia].
  - intros Hlen. destruct (Z.ltb_spec len 0); [lia|].
    destruct (Z.leb_spec (2 ^ 32) len); [lia|].
    set (g := fun (_ : string) (c : list value) => array_resize (Z.to_nat len) c).
    exists (map (fun kv => (kv.1, g kv.1 kv.2)) m).
    assert (Ha : aligned (Z.to_nat len) (map (fun kv => (kv.1, g kv.1 kv.2)) m)).
    { apply Forall_map, Forall_forall. intros [k c] _. apply array_resize_length. }
    destruct (aligned_wf _ _ Ha) as [Hw Hl]; [left; by destruct m|].
    pose proof (map_distinct g m Hd) as Hd'.
    split; [by destruct m|]. split; [done|]. split; [done|].
    split; [apply map_fst_map|]. split; [lia|].
    intros i k. rewrite !get_getItemAt, cell_map by done. unfold cell.
    destruct (column m k) as [c|]; [|by destruct (i <? len)%Z].
    unfold g. rewrite array_resize_cell. by rewrite Z2Nat.id by lia.
Qed.

Lemma set_length_aligns_witness :
  set_length 2 RowExamples.ragged
  = Some [("a", [VNum 1; VUndefined]); ("b", [VNum 2; VNum 3])]
  /\ set_length (-1) RowExamples.ragged = Some RowExamples.ragged.
Proof.
  split; [reflexivity|].
  assert (Hd : distinct_keys RowExamples.ragged).
  { unfold distinct_keys. apply (bool_decide_unpack _). by vm_compute. }
  assert (Hne : RowExamples.ragged <> []) by (unfold RowExamples.ragged; congruence).
  exact (proj1 (set_length_aligns (-1) RowExamples.ragged Hd Hne) ltac:(lia)).
Defined.

End ColumnFacts.

Module MACDFacts.
Import Indicator LoopFacts Columns.

Lemma loop_invariant {S : Type} (P : nat -> S -> Prop) (body : nat -> S -> S)
    (start n : nat) (st : S) :
  P start st ->
  (forall i st', start <= i < start + n -> P i st' -> P (Datatypes.S i) (body i st')) ->
  P (start + n)%nat (loop body start n st).
Proof.
  revert start st. induction n as [|n IH]; intros start st H0 Hstep.
  - by rewrite Nat.add_0_r.
  - simpl. replace (start + Datatypes.S n)%nat with (Datatypes.S start + n)%nat by lia.
    apply IH.
    + apply Hstep; [lia|done].
    + intros i st' Hi. apply Hstep. lia.
Qed.

Lemma loop_related {S1 S2 : Type} (R : S1 -> S2 -> Prop)
    (body1 : nat -> S1 -> S1) (body2 : nat -> S2 -> S2) (start n : nat) s1 s2 :
  R s1 s2 ->
  (forall i a b, R a b -> R (body1 i a) (body2 i b)) ->
  R (loop body1 start n s1) (loop body2 start n s2).
Proof.
  revert start s1 s2. induction n as [|n IH]; intros start s1 s2 H0 Hstep; [done|].
  simpl. apply IH; [by apply Hstep|done].
Qed.

Lemma EMA_step_value (p : nat) (xs : list value) (arr : list cell) (i : nat) :
  match xs !! i ≫= as_number with
  | Some price => EMA_step p xs arr i price
  | None => None
  end = EMA_value p xs arr i.
Proof.
  unfold EMA_value, EMA_step. destruct (xs !! i ≫= as_number) as [price|]; [|done].
  destruct (Nat.eqb_spec (i + 1) p) as [He|He].
  - destruct (Nat.ltb_spec (i + 1) p); [lia|done].
  - destruct (Nat.leb_spec p i); destruct (Nat.ltb_spec (i + 1) p); (done || lia).
Qed.

Lemma MACD_body_short (xs : list value) (i : nat) (st : MACD) :
  shortPeriod (MACD_body xs i st) = shortPeriod st
  /\ short (MACD_body xs i st)
     = short st ++ [EMA_value (shortPeriod st) xs (short st) i].
Proof.
  rewrite <- EMA_step_value. unfold MACD_body, EMA_step.
  by destruct (xs !! i ≫= as_number).
Qed.

Lemma MACD_body_long (xs : list value) (i : nat) (st : MACD) :
  longPeriod (MACD_body xs i st) = longPeriod st
  /\ long (MACD_body xs i st)
     = long st ++ [EMA_value (longPeriod st) xs (long st) i].
Proof.
  rewrite <- EMA_step_value. unfold MACD_body, EMA_step.
  by destruct (xs !! i ≫= as_number).
Qed.

Lemma MACD_body_signalPeriod (xs : list value) (i : nat) (st : MACD) :
  signalPeriod (MACD_body xs i st) = signalPeriod st.
Proof. unfold MACD_body. by destruct (xs !! i ≫= as_number). Qed.

Lemma zip_with_snoc {A B C} (f : A -> B -> C) (l : list A) (k : list B) a b :
  List.length l = List.length k ->
  zip_with f (l ++ [a]) (k ++ [b]) = zip_with f l k ++ [f a b].
Proof. intros Hl. by rewrite zip_with_app. Qed.

Lemma MACD_body_differences (xs : list value) (i : nat) (st0 st : MACD) :
  differences st0 st -> differences st0 (MACD_body xs i st).
Proof.
  intros (s & l & g & Hsl & Hlg & Hs & Hl & Hg & Hb & Hh).
  unfold MACD_body. destruct (xs !! i ≫= as_number) as [price|]; simpl.
  - match goal with
    | |- differences _ {| macd_base := _ ++ [?b]; short := _ ++ [?s_];
                          long := _ ++ [?l_]; signal := _ ++ [?g_];
                          histogram := _ ++ [?h_] |} =>
        exists (s ++ [s_]), (l ++ [l_]), (g ++ [g_])
    end.
    simpl. rewrite !length_app. simpl.
    rewrite !zip_with_snoc by (rewrite ?length_zip_with; lia).
    rewrite Hs, Hl, Hg, Hb, Hh, <- !app_assoc.
    repeat split; try lia; done.
  - exists (s ++ [None]), (l ++ [None]), (g ++ [None]).
    rewrite !length_app. simpl.
    rewrite !zip_with_snoc by (rewrite ?length_zip_with; lia).
    rewrite Hs, Hl, Hg, Hb, Hh, <- !app_assoc. repeat split; try lia; done.
Qed.


Lemma MACD_push_EMA (xs : list value) (st : MACD) (p : nat) (col : MACD -> list cell)
    (per : MACD -> nat) :
  (forall i m, per (MACD_body xs i m) = per m
               /\ col (MACD_body xs i m) = col m ++ [EMA_value (per m) xs (col m) i]) ->
  List.length (col st) = List.length (macd_base st) ->
  col (MACD_push xs st) = base (EMA_push xs (mkBase (per st) (col st))).
Proof.
  intros Hbody Hlen. unfold MACD_push, EMA_push, for_range. simpl. rewrite Hlen.
  symmetry.
  refine (proj2 (loop_related (fun m e => period e = per m /\ base e = col m)
                   (MACD_body xs) (EMA_body xs) _ _ st (mkBase (per st) (col st)) _ _));
    [done|].
  intros i m e [Hp Hb]. destruct (Hbody i m) as [H1 H2].
  unfold EMA_body, push_base. simpl. rewrite H1, H2, Hp, Hb. done.
Qed.

(** X11: the [short] and [long] columns of a MACD are the columns that an
    [ExponentialMovingAverage] of period [shortPeriod] and of period
    [longPeriod] computes from the same input; every cell a call adds to
    [base] is the difference of the cells added to [short] and [long], and
    every cell added to [histogram] the difference of the cells added to
    [base] and [signal] ([null] as soon as one of the two is [null]); the
    five columns stay as long as one another. *)
Theorem MACD_columns (xs : list value) (st : MACD) :
  MACD_aligned (List.length (macd_base st)) st ->
  let n0 := List.length (macd_base st) in
  let st' := MACD_push xs st in
  short st' = base (EMA_push xs (short_EMA st))
  /\ long st' = base (EMA_push xs (long_EMA st))
  /\ macd_base st'
     = macd_base st ++ zip_with sub_cell (drop n0 (short st')) (drop n0 (long st'))
  /\ histogram st'
     = histogram st ++ zip_with sub_cell (drop n0 (macd_base st')) (drop n0 (signal st'))
  /\ MACD_aligned (Nat.max n0 (List.length xs)) st'.
Proof.
  intros (_ & Hs0 & Hl0 & Hg0 & Hh0) n0 st'.
  split; [apply (MACD_push_EMA xs st (shortPeriod st) short shortPeriod);
          [apply MACD_body_short|done]|].
  split; [apply (MACD_push_EMA xs st (longPeriod st) long longPeriod);
          [apply MACD_body_long|done]|].
  assert (Hinv : differences st st'
                 /\ List.length (short st') = (n0 + (List.length xs - n0))%nat).
  { subst st'. unfold MACD_push, for_range. fold n0.
    apply (loop_invariant (fun i m => differences st m /\ List.length (short m) = i)).
    - split; [|done]. exists [], [], []. simpl. by rewrite !app_nil_r.
    - intros i m _ [Hd Hlen]. split; [by apply MACD_body_differences|].
      destruct (MACD_body_short xs i m) as [_ ->]. rewrite length_app. simpl. lia. }
  destruct Hinv as [(s & l & g & Hsl & Hlg & Hs & Hl & Hg & Hb & Hh) Hlen].
  assert (Hds : drop n0 (short st') = s).
  { rewrite Hs. unfold n0. rewrite <- Hs0. by rewrite drop_app_length. }
  assert (Hdl : drop n0 (long st') = l).
  { rewrite Hl. unfold n0. rewrite <- Hl0. by rewrite drop_app_length. }
  assert (Hdg : drop n0 (signal st') = g).
  { rewrite Hg. unfold n0. rewrite <- Hg0. by rewrite drop_app_length. }
  assert (Hdb : drop n0 (macd_base st') = zip_with sub_cell s l).
  { rewrite Hb. unfold n0. by rewrite drop_app_length. }
  rewrite Hds, Hdl, Hdg, Hdb. split; [done|]. split; [done|].
  assert (Hk : List.length s = (List.length xs - n0)%nat).
  { rewrite Hs, length_app in Hlen. unfold n0 in *. lia. }
  unfold MACD_aligned, n0 in *. rewrite Hb, Hs, Hl, Hg, Hh, !length_app, !length_zip_with.
  repeat split; lia.
Qed.

Lemma MACD_columns_witness :
  short (MACD_push [VNum 1; VNum 2; VNum 4] (MACD_fresh 2 3 1))
  = base (EMA_push [VNum 1; VNum 2; VNum 4] (mkBase 2 [])).
Proof.
  assert (Ha : MACD_aligned (List.length (macd_base (MACD_fresh 2 3 1))) (MACD_fresh 2 3 1))
    by (repeat split).
  exact (proj1 (MACD_columns [VNum 1; VNum 2; VNum 4] (MACD_fresh 2 3 1) Ha)).
Defined.

End MACDFacts.

Module MACDSignalFacts.
Import Indicator LoopFacts Columns MACDFacts.

Lemma omap_length_le {A B} (f : A -> option B) (l : list A) :
  List.length (omap f l) <= List.length l.
Proof.
  induction l as [|a l IH]; [done|]. csimpl. destruct (f a); simpl in *; lia.
Qed.

Lemma MA_calc_null (l : list value) : MA_calc (VNull :: l) = None.
Proof.
  unfold MA_calc. csimpl. pose proof (omap_length_le as_number l) as Hle.
  destruct (Nat.ltb_spec (List.length (omap as_number l)) (Datatypes.S (List.length l)));
    [done|lia].
Qed.

Lemma slice_head_null (arr : list cell) (s e : nat) :
  arr !! s = Some None -> s < e ->
  exists rest, map cell_value (slice s e arr) = VNull :: rest.
Proof.
  intros Hs He. unfold slice. rewrite (drop_S arr None s Hs).
  destruct (e - s)%nat as [|k] eqn:E; [lia|]. simpl. by eexists.
Qed.

Lemma prev_number_nulls (n i : nat) : prev_number (replicate n None) i = None.
Proof.
  destruct i as [|j]; [done|]. simpl.
  destruct (replicate n None !! j) as [c|] eqn:E; [|done].
  apply lookup_replicate in E as [-> _]. done.
Qed.

Lemma EMA_calc_no_prev (current : cell) (p : nat) : EMA_calc current None p = None.
Proof. by destruct current. Qed.

Lemma replicate_snoc {A} (n : nat) (x : A) :
  replicate n x ++ [x] = replicate (Datatypes.S n) x.
Proof. by rewrite replicate_S_end. Qed.

Lemma MACD_body_no_signal (sp lp sg : nat) (xs : list value) (i : nat) (m : MACD) :
  0 < lp -> lp < sp -> 0 < sg ->
  no_signal sp lp sg i m -> no_signal sp lp sg (Datatypes.S i) (MACD_body xs i m).
Proof.
  intros Hlp Hsp Hsg (Hs & Hl & Hg & Hlen & Hb & Hsig & Hhis).
  unfold no_signal, MACD_body. destruct (xs !! i ≫= as_number) as [price|]; simpl.
  2:{ rewrite Hsig, Hhis, !replicate_snoc, length_app. simpl.
      repeat split; try done; try lia. intros Hi.
      destruct (decide (lp - 1 < i)) as [Hlt|Hge].
      - rewrite lookup_app_l by lia. by apply Hb.
      - replace (lp - 1) with (List.length (macd_base m)) by lia.
        by rewrite list_lookup_middle. }
  rewrite Hs, Hl, Hg, Hsig, Hhis.
  set (short_ := if (i + 1 =? sp)%nat then _ else _).
  set (long_ := if (i + 1 =? lp)%nat then _ else _).
  set (base_ := match short_ with Some s => _ | None => None end).
  assert (Hbase : (lp - 1 < Datatypes.S i) ->
                  (macd_base m ++ [base_]) !! (lp - 1) = Some None).
  { intros Hi. destruct (decide (lp - 1 < i)) as [Hlt|Hge].
    - rewrite lookup_app_l by lia. by apply Hb.
    - assert (Hshort : short_ = None).
      { subst short_. destruct (Nat.eqb_spec (i + 1) sp); [lia|].
        destruct (Nat.leb_spec sp i); [lia|done]. }
      subst base_. rewrite Hshort.
      replace (lp - 1) with (List.length (macd_base m)) by lia.
      by rewrite list_lookup_middle. }
  set (signal_ := if (i + 2 =? lp + sg)%nat then _ else _).
  assert (Hsignal : signal_ = None).
  { subst signal_. destruct (Nat.eqb_spec (i + 2) (lp + sg)) as [He|He].
    - destruct (slice_head_null (macd_base m ++ [base_]) (i + 1 - sg) (i + 1))
        as [rest Hrest]; [|lia|].
      + replace (i + 1 - sg) with (lp - 1) by lia. apply Hbase. lia.
      + rewrite Hrest. apply MA_calc_null.
    - destruct (lp + sg <? i + 2)%nat; [|done].
      rewrite prev_number_nulls. apply EMA_calc_no_prev. }
  rewrite Hsignal, !replicate_snoc, length_app. simpl.
  repeat split; try done; try lia.
  change (None :: replicate i None) with (replicate (Datatypes.S i) (@None float)).
  rewrite <- replicate_snoc. f_equal. by destruct base_.
Qed.

(** X12: a MACD whose [longPeriod] is below its [shortPeriod] never has a
    signal: on any input, every cell of [signal] and of [histogram] is
    [null]. *)
Theorem MACD_long_below_short (sp lp sg : nat) (xs : list value) :
  0 < lp -> lp < sp -> 0 < sg ->
  let st' := MACD_push xs (MACD_fresh sp lp sg) in
  signal st' = replicate (List.length xs) None
  /\ histogram st' = replicate (List.length xs) None.
Proof.
  intros Hlp Hsp Hsg st'.
  assert (Hinv : no_signal sp lp sg (List.length xs) st').
  { subst st'. unfold MACD_push, for_range. simpl. rewrite Nat.sub_0_r.
    apply (loop_invariant (no_signal sp lp sg) (MACD_body xs) 0 (List.length xs)).
    - repeat split; try done. simpl. lia.
    - intros i m _. by apply MACD_body_no_signal. }
  destruct Hinv as (_ & _ & _ & _ & _ & H1 & H2). done.
Qed.

Lemma MACD_long_below_short_witness :
  signal (MACD_push [VNum 1; VNum 2; VNum 4; VNum 8] (MACD_fresh 2 1 1))
  = replicate 4 None.
Proof.
  exact (proj1 (MACD_long_below_short 2 1 1 [VNum 1; VNum 2; VNum 4; VNum 8]
                  ltac:(lia) ltac:(lia) ltac:(lia))).
Defined.

End MACDSignalFacts.

Module GapFacts.
Import Indicator LoopFacts Columns EMAFacts MACDFacts MACDSignalFacts.

Lemma omap_length_lt {A B} (f : A -> option B) (l : list A) (k : nat) (a : A) :
  l !! k = Some a -> f a = None -> List.length (omap f l) < List.length l.
Proof.
  revert k. induction l as [|b l IH]; intros k Hk Ha; [done|].
  csimpl. destruct k as [|k]; simpl in Hk.
  - injection Hk as ->. rewrite Ha. pose proof (omap_length_le f l). simpl. lia.
  - specialize (IH k Hk Ha). destruct (f b); simpl; lia.
Qed.

Lemma MA_calc_gap (l : list value) (k : nat) (v : value) :
  l !! k = Some v -> as_number v = None -> MA_calc l = None.
Proof.
  intros Hk Hv. unfold MA_calc. pose proof (omap_length_lt as_number l k v Hk Hv).
  destruct (Nat.ltb_spec (List.length (omap as_number l)) (List.length l)); [done|lia].
Qed.

Lemma slice_lookup {A} (s e k : nat) (l : list A) :
  s <= k < e -> slice s e l !! (k - s) = l !! k.
Proof.
  intros Hk. unfold slice. rewrite lookup_take_lt by lia. rewrite lookup_drop.
  f_equal. lia.
Qed.

Lemma no_number_lookup (xs : list value) (j : nat) :
  j < List.length xs -> xs !! j ≫= as_number = None ->
  exists v, xs !! j = Some v /\ as_number v = None.
Proof.
  intros Hj Hn. destruct (lookup_lt_is_Some_2 xs j Hj) as [v Hv].
  rewrite Hv in Hn. by exists v.
Qed.

(** The cell an EMA step computes at an index [i] from which the window or
    the cell before holds no number. *)
Lemma EMA_step_gap (p : nat) (xs : list value) (arr : list cell) (i j : nat)
    (price : float) :
  j < i -> j < List.length xs -> xs !! j ≫= as_number = None ->
  arr !! (i - 1) = Some None ->
  EMA_step p xs arr i price = None.
Proof.
  intros Hji Hj Hn Hprev. unfold EMA_step.
  destruct (no_number_lookup xs j Hj Hn) as (v & Hv & Hnv).
  destruct (Nat.eqb_spec (i + 1) p) as [He|He].
  - apply (MA_calc_gap _ (j - (i + 1 - p)) v); [|done].
    rewrite slice_lookup by lia. done.
  - destruct (p <=? i)%nat; [|done].
    destruct i as [|i']; [lia|]. simpl in *. rewrite Nat.sub_0_r in Hprev.
    by rewrite Hprev.
Qed.

Lemma EMA_null_from (p : nat) (xs : list value) (j i : nat) :
  j < List.length xs -> xs !! j ≫= as_number = None ->
  j <= i < List.length xs ->
  base (EMA_push xs (mkBase p [])) !! i = Some None.
Proof.
  intros Hj Hn. induction i as [i IH] using lt_wf_ind. intros Hi.
  rewrite EMA_push_lookup by lia. f_equal.
  rewrite <- EMA_step_value.
  destruct (xs !! i ≫= as_number) as [price|] eqn:Hp; [|done].
  assert (Hji : j < i).
  { destruct (decide (j = i)) as [->|]; [congruence|lia]. }
  apply (EMA_step_gap p xs _ i j); try done.
  rewrite lookup_take_lt by lia. apply IH; lia.
Qed.

Lemma lookup_snoc_old {A} (l : list A) (x : A) (k : nat) (y : A) :
  l !! k = Some y -> (l ++ [x]) !! k = Some y.
Proof. intros H. rewrite lookup_app_l; [done|]. by eapply lookup_lt_Some. Qed.

Lemma lookup_snoc_cases {A} (l : list A) (x : A) (k : nat) (P : A -> Prop) :
  k < Datatypes.S (List.length l) ->
  (k < List.length l -> exists y, l !! k = Some y /\ P y) -> P x ->
  exists y, (l ++ [x]) !! k = Some y /\ P y.
Proof.
  intros Hk Hold Hnew. destruct (decide (k < List.length l)) as [Hlt|Hge].
  - destruct (Hold Hlt) as (y & Hy & HP). exists y. split; [|done].
    by apply lookup_snoc_old.
  - exists x. split; [|done]. replace k with (List.length l) by lia.
    by rewrite list_lookup_middle.
Qed.

Lemma snoc_null (l : list cell) (c : cell) (j k : nat) :
  List.length l = k -> (j <= k -> c = None) ->
  (forall k', j <= k' < k -> l !! k' = Some None) ->
  forall k', j <= k' < Datatypes.S k -> (l ++ [c]) !! k' = Some None.
Proof.
  intros Hl Hc Hold k' Hk'. destruct (decide (k' < k)) as [Hlt|Hge].
  - rewrite lookup_app_l by lia. apply Hold. lia.
  - replace k' with (List.length l) by lia. rewrite list_lookup_middle by done.
    f_equal. apply Hc. lia.
Qed.

Lemma MACD_body_silent (xs : list value) (j i : nat) (m : MACD) :
  0 < signalPeriod m ->
  j < List.length xs -> xs !! j ≫= as_number = None ->
  silent_from j i m -> silent_from j (Datatypes.S i) (MACD_body xs i m).
Proof.
  intros Hsg Hj Hn [(Hlb & Hls & Hll & Hlg & Hlh) Hnull].
  assert (Hcols : forall k, j <= k < i -> short m !! k = Some None) by (intros; by apply Hnull).
  assert (Hcoll : forall k, j <= k < i -> long m !! k = Some None) by (intros; by apply Hnull).
  assert (Hcolb : forall k, j <= k < i -> macd_base m !! k = Some None) by (intros; by apply Hnull).
  assert (Hcolg : forall k, j <= k < i -> signal m !! k = Some None) by (intros; by apply Hnull).
  assert (Hcolh : forall k, j <= k < i -> histogram m !! k = Some None) by (intros; by apply Hnull).
  unfold silent_from, MACD_aligned, MACD_body.
  destruct (xs !! i ≫= as_number) as [price|] eqn:Hp.
  2:{ simpl. rewrite !length_app. simpl. split; [repeat split; lia|].
      intros k Hk. repeat split; by apply (snoc_null _ _ j i). }
  cbv beta iota zeta.
  cbn [macd_base short long signal histogram shortPeriod longPeriod signalPeriod].
  fold (EMA_step (shortPeriod m) xs (short m) i price).
  fold (EMA_step (longPeriod m) xs (long m) i price).
  assert (Hji : j <= i -> j < i).
  { intros Hle. destruct (decide (j = i)) as [->|]; [congruence|lia]. }
  assert (Hs : j <= i -> EMA_step (shortPeriod m) xs (short m) i price = None).
  { intros Hle. apply (EMA_step_gap _ xs _ i j); try done; [by apply Hji|].
    apply Hcols. specialize (Hji Hle). lia. }
  assert (Hl : j <= i -> EMA_step (longPeriod m) xs (long m) i price = None).
  { intros Hle. apply (EMA_step_gap _ xs _ i j); try done; [by apply Hji|].
    apply Hcoll. specialize (Hji Hle). lia. }
  match goal with |- context [macd_base m ++ [?b]] => set (base_ := b) end.
  assert (Hb : j <= i -> base_ = None).
  { intros Hle. subst base_. by rewrite (Hs Hle). }
  match goal with |- context [signal m ++ [?g]] => set (signal_ := g) end.
  assert (Hg : j <= i -> signal_ = None).
  { intros Hle. subst signal_. rewrite (Hb Hle).
    destruct (i + 2 =? longPeriod m + signalPeriod m)%nat.
    - apply (MA_calc_gap _ (i - (i + 1 - signalPeriod m)) VNull); [|done].
      change (map cell_value ?l) with (cell_value <$> l).
      rewrite list_lookup_fmap, slice_lookup by lia.
      rewrite <- Hlb. by rewrite list_lookup_middle.
    - by destruct (longPeriod m + signalPeriod m <? i + 2)%nat. }
  rewrite !length_app. simpl. split; [repeat split; lia|].
  intros k Hk. repeat split; apply (snoc_null _ _ j i); try done.
  intros Hle. rewrite (Hb Hle). done.
Qed.

Lemma MACD_loop_signalPeriod (xs : list value) (start n : nat) (st : MACD) :
  signalPeriod (loop (MACD_body xs) start n st) = signalPeriod st.
Proof.
  revert start st. induction n as [|n IH]; intros start st; [done|].
  simpl. by rewrite IH, MACD_body_signalPeriod.
Qed.

(** X13: one element that is no number silences an EMA and a MACD for good:
    from its index on, every cell of the EMA column and of the five MACD
    columns is [null], whatever numbers follow. *)
Theorem no_number_silences (xs : list value) (j : nat) :
  j < List.length xs -> xs !! j ≫= as_number = None ->
  (forall p i, j <= i < List.length xs ->
     base (EMA_push xs (mkBase p [])) !! i = Some None)
  /\ (forall sp lp sg i, 0 < sg -> j <= i < List.length xs ->
        let st' := MACD_push xs (MACD_fresh sp lp sg) in
        short st' !! i = Some None /\ long st' !! i = Some None
        /\ macd_base st' !! i = Some None /\ signal st' !! i = Some None
        /\ histogram st' !! i = Some None).
Proof.
  intros Hj Hn. split.
  - intros p i Hi. by apply (EMA_null_from p xs j i).
  - intros sp lp sg i Hsg Hi st'.
    assert (Hinv : silent_from j (List.length xs) st'
                   /\ signalPeriod st' = sg).
    { subst st'. unfold MACD_push, for_range. simpl. rewrite Nat.sub_0_r.
      apply (loop_invariant (fun i m => silent_from j i m /\ signalPeriod m = sg)
               (MACD_body xs) 0 (List.length xs)).
      - split; [|done]. split; [by repeat split|]. intros k Hk. lia.
      - intros i' m _ [Hs Hp]. split; [|by rewrite MACD_body_signalPeriod].
        apply MACD_body_silent; try done. lia. }
    destruct Hinv as [[_ Hnull] _]. by apply Hnull.
Qed.

Lemma no_number_silences_witness :
  base (EMA_push [VNum 1; VNull; VNum 2; VNum 3] (mkBase 1 [])) !! 3%nat = Some None.
Proof.
  exact (proj1 (no_number_silences [VNum 1; VNull; VNum 2; VNum 3] 1
                  ltac:(simpl; lia) eq_refl) 1%nat 3%nat ltac:(simpl; lia)).
Defined.

End GapFacts.

Module SignFacts.
Import Indicator Columns FloatFacts.

Lemma not_negative_spec (x : float) :
  not_negative x <-> sf_not_negative (Prim2SF x) = true.
Proof.
  unfold not_negative. rewrite FloatAxioms.ltb_spec.
  replace (Prim2SF 0) with (S754_zero false) by reflexivity.
  unfold sf_not_negative. by destruct (Prim2SF x) as [[|]|[|]| |[|] m e].
Qed.

Lemma nonneg_not_negative (x : float) : (0 <=? x)%float = true -> not_negative x.
Proof.
  rewrite leb_zero, not_negative_spec. unfold sf_not_negative. by intros ->.
Qed.

Lemma nan_not_negative : not_negative nan.
Proof. reflexivity. Qed.

Lemma binary_round_aux_not_negative (prec emax mx ex : Z) (lx : location) :
  sf_not_negative (binary_round_aux prec emax false mx ex lx) = true.
Proof.
  unfold binary_round_aux.
  destruct (shr_fexp prec emax mx ex lx) as [mrs' e'].
  destruct (shr_fexp prec emax _ e' loc_Exact) as [mrs'' e''].
  destruct (shr_m mrs''); [done| |done].
  by destruct (e'' <=? emax - prec)%Z.
Qed.

Lemma SFmul_not_negative (prec emax : Z) (x y : spec_float) :
  sf_not_negative x = true -> sf_not_negative y = true ->
  sf_not_negative (SFmul prec emax x y) = true.
Proof.
  destruct x as [[|]|[|]| |[|] mx ex], y as [[|]|[|]| |[|] my ey]; try done.
  intros _ _. apply binary_round_aux_not_negative.
Qed.

Lemma binary_round_aux_plus (prec emax mx ex : Z) (lx : location) :
  sf_plus (binary_round_aux prec emax false mx ex lx) = true.
Proof.
  unfold binary_round_aux.
  destruct (shr_fexp prec emax mx ex lx) as [mrs' e'].
  destruct (shr_fexp prec emax _ e' loc_Exact) as [mrs'' e''].
  destruct (shr_m mrs''); [done| |done].
  by destruct (e'' <=? emax - prec)%Z.
Qed.

Lemma binary_normalize_plus (prec emax m e : Z) :
  (0 <= m)%Z -> sf_plus (binary_normalize prec emax m e false) = true.
Proof.
  intros Hm. unfold binary_normalize. destruct m as [|m|m]; [done| |lia].
  unfold binary_round. destruct (shl_align m e _) as [mz ez].
  apply binary_round_aux_plus.
Qed.

Lemma SFdiv_not_negative (prec emax : Z) (x y : spec_float) :
  sf_not_negative x = true -> sf_plus y = true ->
  sf_not_negative (SFdiv prec emax x y) = true.
Proof.
  destruct x as [[|]|[|]| |[|] mx ex], y as [[|]|[|]| |[|] my ey]; try done.
  intros _ _. simpl.
  destruct (SFdiv_core_binary prec emax (Z.pos mx) ex (Z.pos my) ey) as [[mz ez] lz].
  apply binary_round_aux_not_negative.
Qed.

Lemma SFadd_not_negative (prec emax : Z) (x y : spec_float) :
  sf_not_negative x = true -> sf_not_negative y = true ->
  sf_not_negative (SFadd prec emax x y) = true.
Proof.
  intros Hx Hy. unfold sf_not_negative in *.
  destruct (sf_nan x) eqn:Ex.
  { by destruct x. }
  destruct (sf_nan y) eqn:Ey.
  { destruct y; try done. by destruct x. }
  rewrite orb_false_r in Hx, Hy. by rewrite SFadd_nonneg.
Qed.

Lemma mul_not_negative (x y : float) :
  not_negative x -> not_negative y -> not_negative (x * y).
Proof. rewrite !not_negative_spec, FloatAxioms.mul_spec. apply SFmul_not_negative. Qed.

Lemma div_not_negative (x y : float) :
  not_negative x -> sf_plus (Prim2SF y) = true -> not_negative (x / y).
Proof. rewrite !not_negative_spec, FloatAxioms.div_spec. apply SFdiv_not_negative. Qed.

Lemma add_not_negative (x y : float) :
  not_negative x -> not_negative y -> not_negative (x + y).
Proof. rewrite !not_negative_spec, FloatAxioms.add_spec. apply SFadd_not_negative. Qed.

Lemma abs_not_negative (x : float) : not_negative (abs x).
Proof.
  rewrite not_negative_spec, FloatAxioms.abs_spec.
  by destruct (Prim2SF x) as [[|]|[|]| |[|] m e].
Qed.

Lemma of_nat_plus (n : nat) : sf_plus (Prim2SF (of_nat n)) = true.
Proof.
  unfold of_nat. rewrite FloatAxioms.of_uint63_spec.
  apply binary_normalize_plus, Uint63.to_Z_bounded.
Qed.

Lemma SFltb_not_negative (x y : spec_float) :
  sf_not_negative x = true -> SFltb x y = true -> sf_not_negative y = true.
Proof.
  unfold SFltb.
  by destruct x as [[|]|[|]| |[|] mx ex], y as [[|]|[|]| |[|] my ey].
Qed.

Lemma SFltb_negative (x y : spec_float) :
  sf_not_negative x = false -> sf_nan y = false -> sf_not_negative y = true ->
  SFltb x y = true.
Proof.
  unfold SFltb.
  by destruct x as [[|]|[|]| |[|] mx ex], y as [[|]|[|]| |[|] my ey].
Qed.

Lemma max2_not_negative (a b : float) : not_negative b -> not_negative (max2 a b).
Proof.
  intros Hb. unfold max2.
  destruct (is_nan a) eqn:Ea; [apply nan_not_negative|].
  destruct (is_nan b) eqn:Eb; [apply nan_not_negative|].
  destruct (a <? b)%float eqn:Eab; [done|].
  assert (Ha : not_negative a).
  { apply not_negative_spec. apply not_negative_spec in Hb.
    rewrite FloatAxioms.ltb_spec in Eab. rewrite is_nan_spec in Eb.
    destruct (sf_not_negative (Prim2SF a)) eqn:E; [done|].
    by rewrite (SFltb_negative _ _ E Eb Hb) in Eab. }
  destruct (b <? a)%float; [done|]. by destruct (is_neg_zero a).
Qed.

Lemma sum_not_negative (l : list float) (a : float) :
  not_negative a -> Forall not_negative l ->
  not_negative (foldl (fun a b => a + b)%float a l).
Proof.
  revert a. induction l as [|x l IH]; intros a Ha Hl; [done|].
  apply Forall_cons in Hl as [Hx Hl]. simpl. apply IH; [|done].
  by apply add_not_negative.
Qed.

Lemma last_number_not_negative (l : list float) :
  Forall not_negative l -> not_negative (last_number l).
Proof.
  intros Hl. unfold last_number. destruct (last l) as [x|] eqn:E; [|apply nan_not_negative].
  simpl. rewrite Forall_forall in Hl. apply Hl.
  apply last_Some in E as [l' ->]. apply elem_of_app. right. by left.
Qed.

Lemma ATR_body_not_negative (value : PriceObject) (st : ATR) :
  (1 <=? of_nat (atr_period st))%float = true ->
  Forall not_negative (range st) -> Forall not_negative (atr_base st) ->
  atr_period (ATR_body value st) = atr_period st
  /\ Forall not_negative (range (ATR_body value st))
  /\ Forall not_negative (atr_base (ATR_body value st)).
Proof.
  intros Hp Hr Hb. unfold ATR_body. cbv zeta. simpl.
  set (tr := max3 _ _ _).
  assert (Htr : not_negative tr).
  { subst tr. unfold max3. apply max2_not_negative, abs_not_negative. }
  assert (Hr' : Forall not_negative (range st ++ [tr])).
  { apply Forall_app. split; [done|]. by apply Forall_singleton. }
  split; [done|]. split; [done|].
  apply Forall_app. split; [done|]. apply Forall_singleton.
  destruct (List.length (range st ++ [tr]) <? atr_period st)%nat; [apply nan_not_negative|].
  destruct (List.length (range st ++ [tr]) =? atr_period st)%nat.
  - apply div_not_negative; [|apply of_nat_plus].
    apply sum_not_negative; [reflexivity|].
    unfold slice. by apply Forall_take, Forall_drop.
  - apply div_not_negative; [|apply of_nat_plus].
    apply add_not_negative; [|done].
    apply mul_not_negative; [by apply last_number_not_negative|].
    apply nonneg_not_negative. apply sub_nonneg; try done.
    + rewrite leb_zero. pose proof (of_nat_plus (atr_period st)) as Hn.
      rewrite FloatAxioms.leb_spec in Hp.
      destruct (Prim2SF (of_nat (atr_period st))) as [[|]|[|]| |[|] m e]; done.
Qed.

(** X14: for a period that is at least 1, no cell of the [range] column
    and no cell of the [base] column of an ATR is ever negative: whatever
    the price objects hold, a true range and an average true range are
    zero, positive or NaN. *)
Theorem ATR_never_negative (ps : list (option PriceObject)) (st : ATR) :
  (1 <=? of_nat (atr_period st))%float = true ->
  Forall not_negative (range st) -> Forall not_negative (atr_base st) ->
  Forall not_negative (range (ATR_push ps st))
  /\ Forall not_negative (atr_base (ATR_push ps st)).
Proof.
  revert st. induction ps as [|[value|] ps IH]; intros st Hp Hr Hb; simpl.
  - done.
  - destruct (ATR_body_not_negative value st Hp Hr Hb) as (H1 & H2 & H3).
    apply IH; [by rewrite H1|done|done].
  - by apply IH.
Qed.

Lemma ATR_never_negative_witness :
  Forall not_negative
    (atr_base (ATR_push [Some Examples.candle1; Some Examples.candle2; Some Examples.candle3]
                        Examples.atr2)).
Proof.
  exact (proj2 (ATR_never_negative
                  [Some Examples.candle1; Some Examples.candle2; Some Examples.candle3]
                  Examples.atr2 eq_refl (Forall_nil_2 _) (Forall_nil_2 _))).
Defined.

End SignFacts.

Module WindowFacts.
Import Indicator LoopFacts EMAFacts GapFacts.

Lemma slice_length {A} (s e : nat) (l : list A) :
  s <= e -> e <= List.length l -> List.length (slice s e l) = (e - s)%nat.
Proof. intros Hs He. unfold slice. rewrite length_take, length_drop. lia. Qed.

(** X22: with a period of at least 1, the cell of a Moving Average at
    index [i] depends on the [period] elements that end at [i] and on
    nothing else: it is [null] while fewer than [period] elements have been
    seen and whenever one element of the window is no number, and the sum of
    the window from the left, divided by [period], otherwise.  So an element
    that is no number costs exactly the windows that contain it. *)
Theorem MA_window (p : nat) (xs : list value) (i : nat) :
  1 <= p -> i < List.length xs ->
  let out := base (MA_push xs (mkBase p [])) in
  let window := slice (i + 1 - p) (i + 1) xs in
  (i + 1 < p -> out !! i = Some None)
  /\ (p <= i + 1 ->
      List.length window = p
      /\ (forall k v, window !! k = Some v -> as_number v = None -> out !! i = Some None)
      /\ (forall fs, window = map VNum fs ->
            out !! i = Some (Some (foldl (fun a b => a + b) 0 fs / of_nat p)%float))).
Proof.
  intros Hp Hi out window. subst out. rewrite MA_push_lookup by done.
  unfold MA_value. split.
  - intros Hlt. by destruct (Nat.ltb_spec (i + 1) p); [|lia].
  - intros Hge. destruct (Nat.ltb_spec (i + 1) p); [lia|].
    assert (Hlen : List.length window = p).
    { subst window. rewrite slice_length by lia. lia. }
    split; [done|]. split.
    + intros k v Hk Hv. f_equal. by apply (MA_calc_gap _ k v).
    + intros fs Hfs. fold window. rewrite Hfs, MA_calc_numbers. do 4 f_equal.
      rewrite Hfs, length_map in Hlen. done.
Qed.

Lemma MA_window_witness :
  base (MA_push [VNum 1; VNull; VNum 2; VNum 4] (mkBase 2 [])) !! 3%nat
  = Some (Some (foldl (fun a b => a + b) 0 [2; 4] / of_nat 2)%float).
Proof.
  exact (proj2 (proj2 (proj2 (MA_window 2 [VNum 1; VNull; VNum 2; VNum 4] 3
                                ltac:(lia) ltac:(simpl; lia)) ltac:(lia)))
               [2; 4]%float eq_refl).
Defined.

End WindowFacts.

Module TrendFacts.
Import Indicator Trend.

(** What the loop of [SuperTrend.push] keeps: the cells of [trend] and the
    loop variable [prevTrend] hold [null], [1] or [-1]. *)
Lemma ST_body_trend (price : PriceObject) (st : SuperTrend) (loc : ST_locals) :
  Forall trend_cell (trend st) ->
  (forall t, prevTrend loc = Some t -> t = 1%Z \/ t = (-1)%Z) ->
  let r := ST_body price (st, loc) in
  st_atr r.1 = ATR_body price (st_atr st)
  /\ multiplier r.1 = multiplier st
  /\ Forall trend_cell (trend r.1)
  /\ (forall t, prevTrend r.2 = Some t -> t = 1%Z \/ t = (-1)%Z).
Proof.
  intros Ht Hp. unfold ST_body. cbv zeta.
  destruct (negb (is_finite _)); simpl.
  - split; [done|]. split; [done|]. split; [|done].
    apply Forall_app. split; [done|]. apply Forall_singleton. by left.
  - assert (Hnext : forall t,
      match prevTrend loc with
      | Some t0 =>
          if gt_opt (default ((high price + low price) / 2)%float (close price))
                    (prevUpper loc) then 1%Z
          else if lt_opt (default ((high price + low price) / 2)%float (close price))
                         (prevLower loc) then (-1)%Z
          else t0
      | None => 1%Z
      end = t -> t = 1%Z \/ t = (-1)%Z).
    { intros t <-. destruct (prevTrend loc) as [t0|]; [|by left].
      destruct (gt_opt _ _); [by left|]. destruct (lt_opt _ _); [by right|].
      by apply Hp. }
    split; [done|]. split; [done|]. split.
    + apply Forall_app. split; [done|]. apply Forall_singleton. right.
      destruct (Hnext _ eq_refl) as [->| ->]; [by left|by right].
    + intros t [= <-]. by apply Hnext.
Qed.

Lemma ST_loop_trend (ps : list (option PriceObject)) (st : SuperTrend) (loc : ST_locals) :
  Forall trend_cell (trend st) ->
  (forall t, prevTrend loc = Some t -> t = 1%Z \/ t = (-1)%Z) ->
  let r := ST_loop ps (st, loc) in
  st_atr r.1 = ATR_push ps (st_atr st)
  /\ multiplier r.1 = multiplier st
  /\ Forall trend_cell (trend r.1).
Proof.
  revert st loc. induction ps as [|[price|] ps IH]; intros st loc Ht Hp r; subst r.
  - done.
  - change (ST_loop (Some price :: ps) (st, loc))
      with (ST_loop ps (ST_body price (st, loc))).
    change (ATR_push (Some price :: ps) (st_atr st))
      with (ATR_push ps (ATR_body price (st_atr st))).
    destruct (ST_body_trend price st loc Ht Hp) as (H1 & H2 & H3 & H4).
    destruct (ST_body price (st, loc)) as [st1 loc1]. simpl in H1, H2, H3, H4.
    destruct (IH st1 loc1 H3 H4) as (H5 & H6 & H7).
    rewrite <- H1, <- H2. done.
  - by apply IH.
Qed.

(** X21: the inherited columns of a SuperTrend are those of an
    AverageTrueRange fed the same price objects, one by one; the multiplier
    does not change; and every cell of [trend] is [null], [1] or [-1]. *)
Theorem SuperTrend_extends_ATR (ps : list (option PriceObject)) (st : SuperTrend) :
  Forall trend_cell (trend st) ->
  let st' := ST_push ps st in
  st_atr st' = ATR_push ps (st_atr st)
  /\ multiplier st' = multiplier st
  /\ Forall trend_cell (trend st').
Proof.
  intros Ht st'. subst st'. unfold ST_push. apply ST_loop_trend; [done|].
  simpl. intros t Hlast.
  destruct (last (trend st)) as [[t'|]|] eqn:E; simpl in Hlast; try done.
  injection Hlast as ->. apply last_Some in E as [l' E].
  rewrite E in Ht. apply Forall_app in Ht as [_ Ht]. rewrite Forall_singleton in Ht.
  destruct Ht as [H|[H|H]]; [done|injection H as ->; by left|injection H as ->; by right].
Qed.

Lemma SuperTrend_extends_ATR_witness :
  st_atr (ST_push [Some Examples.candle1; None; Some Examples.candle2] Examples.supertrend2)
  = ATR_push [Some Examples.candle1; None; Some Examples.candle2]
             (st_atr Examples.supertrend2).
Proof.
  exact (proj1 (SuperTrend_extends_ATR [Some Examples.candle1; None; Some Examples.candle2]
                  Examples.supertrend2 (Forall_nil_2 _))).
Defined.

End TrendFacts.

Module SymbolFacts.
Import Symbols.

Lemma span_parts (p : ascii -> bool) (l : list ascii) :
  l = (span p l).1 ++ (span p l).2 /\ forallb p (span p l).1 = true.
Proof.
  induction l as [|c l [IH1 IH2]]; [done|]. simpl.
  destruct (p c) eqn:E; [|done]. destruct (span p l) as [a b]. simpl in *.
  split; [by f_equal|]. by rewrite E.
Qed.

Lemma span_stop (p : ascii -> bool) (a r : list ascii) :
  forallb p a = true -> match r with c :: _ => p c = false | [] => True end ->
  span p (a ++ r) = (a, r).
Proof.
  intros Ha Hr. induction a as [|c a IH]; simpl in *.
  - destruct r as [|c r]; [done|]. simpl. by rewrite Hr.
  - apply andb_true_iff in Ha as [Hc Ha]. rewrite Hc, (IH Ha). done.
Qed.

Lemma tries_first {R} (n : nat) (l : list ascii)
    (k : list ascii -> list ascii -> option R) (r : R) :
  0 < n -> k (take n l) (drop n l) = Some r -> tries n l k = Some r.
Proof. intros Hn Hk. destruct n as [|n]; [lia|]. simpl in *. by rewrite Hk. Qed.

Lemma tries_some {R} (n : nat) (l : list ascii)
    (k : list ascii -> list ascii -> option R) (r : R) :
  tries n l k = Some r -> exists m, 1 <= m <= n /\ k (take m l) (drop m l) = Some r.
Proof.
  induction n as [|n IH]; [done|]. simpl.
  destruct (k (take (S n) l) (drop (S n) l)) as [r'|] eqn:E.
  - intros [= <-]. exists (S n). split; [lia|done].
  - intros H. destruct (IH H) as (m & Hm & Hk). exists m. split; [lia|done].
Qed.

Lemma plus_greedy {R} (p : ascii -> bool) (a r : list ascii)
    (k : list ascii -> list ascii -> option R) (x : R) :
  a <> [] -> forallb p a = true ->
  match r with c :: _ => p c = false | [] => True end ->
  k a r = Some x -> plus p (a ++ r) k = Some x.
Proof.
  intros Hne Ha Hr Hk. unfold plus. rewrite span_stop by done. simpl.
  apply tries_first; [by destruct a; [|simpl; lia]|].
  by rewrite take_app_length, drop_app_length.
Qed.

(** What [plus] hands to its continuation: a run in the class, not empty. *)
Lemma plus_some {R} (p : ascii -> bool) (l : list ascii)
    (k : list ascii -> list ascii -> option R) (x : R) :
  plus p l k = Some x ->
  exists a r, a <> [] /\ forallb p a = true /\ k a r = Some x.
Proof.
  unfold plus. intros H. apply tries_some in H as (m & Hm & Hk).
  exists (take m l), (drop m l). destruct (span_parts p l) as [Hl Hp].
  split; [|split; [|done]].
  - intros H0. apply (f_equal List.length) in H0. rewrite length_take in H0.
    simpl in H0. assert (List.length (span p l).1 <= List.length l); [|lia].
    rewrite Hl at 2. rewrite length_app. lia.
  - rewrite Hl. rewrite take_app_le by lia.
    rewrite forallb_forall in Hp. apply forallb_forall. intros c Hc.
    apply Hp. apply list_elem_of_In. apply list_elem_of_In in Hc.
    apply elem_of_take in Hc as (i & Hi & _). by eapply list_elem_of_lookup_2.
Qed.

Lemma match_here_groups (l sym1 sym2 : list ascii) :
  match_here l = Some (sym1, sym2) ->
  sym1 <> [] /\ forallb alnum sym1 = true /\ sym2 <> [] /\ forallb alnum sym2 = true.
Proof.
  unfold match_here. intros H.
  apply plus_some in H as (a & r & Ha & Hpa & H).
  apply plus_some in H as (s & r' & _ & _ & H).
  apply plus_some in H as (b & r'' & Hb & Hpb & H).
  injection H as <- <-. done.
Qed.

Lemma search_groups (l sym1 sym2 : list ascii) :
  search l = Some (sym1, sym2) ->
  sym1 <> [] /\ forallb alnum sym1 = true /\ sym2 <> [] /\ forallb alnum sym2 = true.
Proof.
  induction l as [|c l IH]; [done|].
  change (search (c :: l)) with (match match_here (c :: l) with
                                 | Some r => Some r
                                 | None => search l
                                 end).
  destruct (match_here (c :: l)) as [[a b]|] eqn:E; [|done].
  intros [= <- <-]. by apply (match_here_groups (c :: l)).
Qed.

Lemma alnum_not_separator (c : ascii) : alnum c = true -> separator c = false.
Proof. unfold separator. by intros ->. Qed.

Lemma separator_not_alnum (c : ascii) : separator c = true -> alnum c = false.
Proof. unfold separator. by destruct (alnum c). Qed.

Lemma match_here_split (a s b : list ascii) :
  a <> [] -> forallb alnum a = true ->
  s <> [] -> forallb separator s = true ->
  b <> [] -> forallb alnum b = true ->
  match_here (a ++ s ++ b) = Some (a, b).
Proof.
  intros Ha Hpa Hs Hps Hb Hpb. unfold match_here.
  apply plus_greedy; try done.
  { destruct s as [|c s]; [done|]. simpl in *. apply andb_true_iff in Hps as [Hc _].
    by apply separator_not_alnum. }
  apply plus_greedy; try done.
  { destruct b as [|c b]; [done|]. simpl in *. apply andb_true_iff in Hpb as [Hc _].
    by apply alnum_not_separator. }
  rewrite <- (app_nil_r b) at 1. by apply plus_greedy.
Qed.

Lemma search_split (a s b : list ascii) :
  a <> [] -> forallb alnum a = true ->
  s <> [] -> forallb separator s = true ->
  b <> [] -> forallb alnum b = true ->
  search (a ++ s ++ b) = Some (a, b).
Proof.
  intros Ha Hpa Hs Hps Hb Hpb.
  pose proof (match_here_split a s b Ha Hpa Hs Hps Hb Hpb) as H.
  destruct (a ++ s ++ b) as [|c l]; [done|].
  change (search (c :: l)) with (match match_here (c :: l) with
                                 | Some r => Some r
                                 | None => search l
                                 end).
  by rewrite H.
Qed.

Lemma list_ascii_of_string_app (s t : string) :
  list_ascii_of_string (s ++ t) = list_ascii_of_string s ++ list_ascii_of_string t.
Proof. induction s as [|c s IH]; [done|]. simpl. by rewrite IH. Qed.

Lemma list_ascii_nonempty (s : string) : s <> EmptyString -> list_ascii_of_string s <> [].
Proof. by destruct s. Qed.

Lemma string_nonempty (l : list ascii) : l <> [] -> string_of_list_ascii l <> EmptyString.
Proof. by destruct l. Qed.

Lemma toUpperCase_chars (s : string) :
  list_ascii_of_string (toUpperCase s) = map upper_ascii (list_ascii_of_string s).
Proof. induction s as [|c s IH]; [done|]. simpl. by rewrite IH. Qed.

Lemma toUpperCase_nonempty (s : string) : s <> EmptyString -> toUpperCase s <> EmptyString.
Proof. by destruct s. Qed.

Lemma upper_ascii_alnum (c : ascii) : alnum c = true -> upper_alnum (upper_ascii c) = true.
Proof. destruct c as [[|] [|] [|] [|] [|] [|] [|] [|]]; by vm_compute. Qed.

Lemma upper_alnum_fixed (c : ascii) : upper_alnum c = true -> upper_ascii c = c.
Proof. destruct c as [[|] [|] [|] [|] [|] [|] [|] [|]]; by vm_compute. Qed.

Lemma upper_alnum_alnum (c : ascii) : upper_alnum c = true -> alnum c = true.
Proof. destruct c as [[|] [|] [|] [|] [|] [|] [|] [|]]; by vm_compute. Qed.

Lemma toUpperCase_symbol (l : list ascii) :
  l <> [] -> forallb alnum l = true -> symbol (toUpperCase (string_of_list_ascii l)).
Proof.
  intros Hne Hp. split.
  - by apply toUpperCase_nonempty, string_nonempty.
  - rewrite toUpperCase_chars, list_ascii_of_string_of_list_ascii.
    rewrite forallb_forall in Hp. apply forallb_forall. intros c Hc.
    apply in_map_iff in Hc as (c' & <- & Hc'). by apply upper_ascii_alnum, Hp.
Qed.

Lemma toUpperCase_fixed (s : string) :
  forallb upper_alnum (list_ascii_of_string s) = true -> toUpperCase s = s.
Proof.
  induction s as [|c s IH]; [done|]. simpl. intros H.
  apply andb_true_iff in H as [Hc Hs]. by rewrite (upper_alnum_fixed c Hc), IH.
Qed.

Lemma parse_split (a s b : string) :
  a <> EmptyString -> forallb alnum (list_ascii_of_string a) = true ->
  s <> EmptyString -> forallb separator (list_ascii_of_string s) = true ->
  b <> EmptyString -> forallb alnum (list_ascii_of_string b) = true ->
  parseSymbolPair (a ++ s ++ b) = Some (toUpperCase a, toUpperCase b).
Proof.
  intros Ha Hpa Hs Hps Hb Hpb. unfold parseSymbolPair.
  rewrite !list_ascii_of_string_app.
  rewrite search_split by (done || by apply list_ascii_nonempty).
  by rewrite !string_of_list_ascii_of_string.
Qed.

(** X15: [parseSymbolPair] splits two runs of letters and digits around
    any run of other characters (the underscore apart) and upper-cases
    them; whatever it returns is a pair of symbols, not empty and made of
    digits and upper-case letters, and parsing the key
    [sym1 + "/" + sym2] that [addSymbol] stores gives the same pair
    back. *)
Theorem parseSymbolPair_symbols :
  (forall a s b : string,
     a <> EmptyString -> forallb alnum (list_ascii_of_string a) = true ->
     s <> EmptyString -> forallb separator (list_ascii_of_string s) = true ->
     b <> EmptyString -> forallb alnum (list_ascii_of_string b) = true ->
     parseSymbolPair (a ++ s ++ b) = Some (toUpperCase a, toUpperCase b))
  /\ (forall input sym1 sym2,
        parseSymbolPair input = Some (sym1, sym2) ->
        symbol sym1 /\ symbol sym2
        /\ parseSymbolPair (sym1 ++ "/" ++ sym2) = Some (sym1, sym2)).
Proof.
  split; [apply parse_split|].
  intros input sym1 sym2. unfold parseSymbolPair at 1.
  destruct (search (list_ascii_of_string input)) as [[g1 g2]|] eqn:E; [|done].
  intros [= <- <-]. apply search_groups in E as (H1 & Hp1 & H2 & Hp2).
  pose proof (toUpperCase_symbol g1 H1 Hp1) as [Hs1 Hu1].
  pose proof (toUpperCase_symbol g2 H2 Hp2) as [Hs2 Hu2].
  split; [done|]. split; [done|].
  rewrite parse_split; try done.
  - by rewrite (toUpperCase_fixed _ Hu1), (toUpperCase_fixed _ Hu2).
  - apply forallb_forall. intros c Hc. apply upper_alnum_alnum.
    rewrite forallb_forall in Hu1. by apply Hu1.
  - apply forallb_forall. intros c Hc. apply upper_alnum_alnum.
    rewrite forallb_forall in Hu2. by apply Hu2.
Qed.

Lemma parseSymbolPair_symbols_witness :
  parseSymbolPair ("btc" ++ "-" ++ "usdt") = Some ("BTC", "USDT").
Proof.
  assert (Hne : forall c s, String c s <> EmptyString) by (intros c s; congruence).
  exact (proj1 parseSymbolPair_symbols "btc" "-" "usdt"
           (Hne _ _) eq_refl (Hne _ _) eq_refl (Hne _ _) eq_refl).
Defined.

(** The pattern on a few inputs: the separator may be any run of
    characters that are no word characters, an underscore separates
    nothing, and the leftmost match wins. *)
Lemma parseSymbolPair_examples :
  parseSymbolPair "btc/usdt" = Some ("BTC", "USDT")
  /\ parseSymbolPair "Eth - Usdt" = Some ("ETH", "USDT")
  /\ parseSymbolPair " a1//b2 c3" = Some ("A1", "B2")
  /\ parseSymbolPair "btc_usdt" = None
  /\ parseSymbolPair "btc" = None
  /\ parseSymbolPair "btc_x usdt" = Some ("X", "USDT").
Proof. repeat split; reflexivity. Qed.

End SymbolFacts.

Module WalletFacts.
Import Indicator Scenario Symbols SymbolFacts.

Section UpperCase.
Variable String_toUpperCase : string -> string.

Lemma setWallet_snoc (entries : list (string * float)) (k : string) (v : float)
    (w : gmap string float) :
  setWallet String_toUpperCase (entries ++ [(k, v)]) w
  = <[String_toUpperCase k := v]> (setWallet String_toUpperCase entries w).
Proof. unfold setWallet. by rewrite foldl_app. Qed.

Lemma setWallet_lookup (entries : list (string * float)) (w : gmap string float)
    (K : string) :
  setWallet String_toUpperCase entries w !! K
  = match List.find (fun kv => String.eqb (String_toUpperCase kv.1) K) (rev entries) with
    | Some kv => Some kv.2
    | None => w !! K
    end.
Proof.
  induction entries as [|[k v] entries IH] using rev_ind; [done|].
  rewrite setWallet_snoc, rev_app_distr. simpl.
  destruct (String.eqb_spec (String_toUpperCase k) K) as [->|Hne].
  - by rewrite lookup_insert_eq.
  - by rewrite lookup_insert_ne.
Qed.

(** X17: [setWallet] stores every entry under the upper-casing of its key
    by the built-in [toUpperCase], whatever text the key is; a later entry
    replaces an earlier one whose key upper-cases to the same text, and a
    wallet key that is the upper-casing of no entry stays as it was.  On
    ASCII letters and digits the built-in is the mapping that
    [parseSymbolPair] ends with, so the balance an order reads for the
    first symbol of a pair given as [a + "/" + b] is the one set last under
    a key that upper-cases as [a] does. *)
Theorem setWallet_upper_cases (entries : list (string * float))
    (w : gmap string float) :
  (forall K,
     setWallet String_toUpperCase entries w !! K
     = match List.find (fun kv => String.eqb (String_toUpperCase kv.1) K)
                       (rev entries) with
       | Some kv => Some kv.2
       | None => w !! K
       end)
  /\ (ascii_upper_case String_toUpperCase ->
      forall a a' b v,
        a <> EmptyString -> forallb alnum (list_ascii_of_string a) = true ->
        b <> EmptyString -> forallb alnum (list_ascii_of_string b) = true ->
        String_toUpperCase a' = String_toUpperCase a ->
        exists sym1 sym2,
          parseSymbolPair (a ++ "/" ++ b) = Some (sym1, sym2)
          /\ balance (setWallet String_toUpperCase (entries ++ [(a', v)]) w) sym1
             = or_zero (Some v)).
Proof.
  split; [apply setWallet_lookup|].
  intros Hascii a a' b v Ha Hpa Hb Hpb Hu.
  exists (toUpperCase a), (toUpperCase b). split.
  - by apply parse_split.
  - unfold balance. by rewrite setWallet_snoc, Hu, (Hascii a Hpa), lookup_insert_eq.
Qed.

End UpperCase.

Lemma setWallet_upper_cases_witness :
  exists sym1 sym2,
    parseSymbolPair ("btc" ++ "/" ++ "usdt") = Some (sym1, sym2)
    /\ balance (setWallet toUpperCase ([("btc", 1%float)] ++ [("Btc", 2%float)]) ∅) sym1
       = or_zero (Some 2%float).
Proof.
  assert (Hne : forall c s, String c s <> EmptyString) by (intros c s; congruence).
  exact (proj2 (setWallet_upper_cases toUpperCase [("btc", 1%float)] ∅)
           (fun s _ => eq_refl) "btc" "Btc" "usdt" 2%float
           (Hne _ _) eq_refl (Hne _ _) eq_refl eq_refl).
Defined.

End WalletFacts.
